(** * The DAG validator of dde-validator (validators/dag_validator.py)

    A shallow embedding of [DAGValidator]: its two entry points
    [validate_syntax] and [validate_structure], the sub-checks they run and
    the depth-first search for circular dependencies, followed by the
    properties of the specification that were checked against them.  The
    handler of the endpoint /validate/dag (app.py), which calls the two
    entry points, is embedded in the module [App]; the module [Recursion]
    has the search, the methods that lead to it and the handler under the
    recursion limit of the interpreter.

    Conventions of the embedding.
    - A Python [str] is a [string]; each [ascii] stands for one code point
      below 256.
    - A specification and its tasks, connections and variables are records
      with one field per key the validator reads.  A key that may be missing
      or hold [None] without the code raising is an [entry]; a key whose
      value the code uses as a string or iterates over is an [option]
      ([None]: the key is missing).  Inputs of other shapes make the Python
      code raise a TypeError or AttributeError and are outside the model.
    - [self.errors] and [self.warnings] are the two fields of the validator
      state, threaded through every check by a state monad.
    - The standard library's [re.match] is modelled by a small matcher and
      [datetime.fromisoformat] by the parser of CPython 3.11, byte by byte;
      [ast.parse] is a parameter.
    - The search for circular dependencies calls itself once for every node
      of a path.  The definitions outside the module [Recursion] give what
      the methods return when these calls stay within the recursion limit;
      those inside take the limit as a parameter and say when it is
      reached. *)

From Stdlib Require Import Ascii.
From stdpp Require Import base decidable option list sets gmap strings pretty relations.

(* ================================================================== *)
(** * Python strings *)

Module PyStr.

(** The double quote, which the messages put around identifiers. *)
Definition dq : string := String "034" EmptyString.

Definition code (c : ascii) : nat := nat_of_ascii c.

Definition in_range (lo hi : nat) (c : ascii) : bool :=
  bool_decide (lo ≤ code c ≤ hi).

(** [str.isspace] on one code point below 256. *)
Definition is_space (c : ascii) : bool :=
  in_range 9 13 c || in_range 28 32 c
  || bool_decide (code c = 133) || bool_decide (code c = 160).

Fixpoint lstrip (s : string) : string :=
  match s with
  | EmptyString => EmptyString
  | String c s' => if is_space c then lstrip s' else s
  end.

Fixpoint rstrip (s : string) : string :=
  match s with
  | EmptyString => EmptyString
  | String c s' =>
      match rstrip s' with
      | EmptyString => if is_space c then EmptyString else String c EmptyString
      | r => String c r
      end
  end.

(** [s.strip()] *)
Definition strip (s : string) : string := rstrip (lstrip s).

(** [str.lower] on one code point below 256: the ASCII capitals and the
    Latin-1 capitals other than the multiplication sign. *)
Definition lower_char (c : ascii) : ascii :=
  if in_range 65 90 c
     || (in_range 192 222 c && negb (bool_decide (code c = 215)))
  then ascii_of_nat (code c + 32)
  else c.

Fixpoint lower (s : string) : string :=
  match s with
  | EmptyString => EmptyString
  | String c s' => String (lower_char c) (lower s')
  end.

Fixpoint starts_with (p s : string) : bool :=
  match p, s with
  | EmptyString, _ => true
  | String a p', String b s' => bool_decide (a = b) && starts_with p' s'
  | String _ _, EmptyString => false
  end.

(** [needle in hay] for two strings. *)
Fixpoint contains (needle hay : string) : bool :=
  starts_with needle hay
  || match hay with
     | EmptyString => false
     | String _ hay' => contains needle hay'
     end.

Fixpoint last_char (s : string) : option ascii :=
  match s with
  | EmptyString => None
  | String c EmptyString => Some c
  | String _ s' => last_char s'
  end.

Definition is_digit (c : ascii) : bool := in_range 48 57 c.

End PyStr.

(* ================================================================== *)
(** * Regular expressions: the part of [re.match] the validator uses *)

Module Re.
Import PyStr.

Inductive regex : Type :=
| Never                                   (* matches nothing *)
| Eps                                     (* the empty pattern, and [^] at position 0 *)
| Chr (p : ascii → bool)                  (* a character or a class *)
| Seq (r1 r2 : regex)
| Alt (r1 r2 : regex)
| Star (r : regex)
| Dollar.                                 (* [$] *)

(** [$] holds at the end of the text and just before a newline that ends it. *)
Definition at_dollar (rest : string) : bool :=
  match rest with
  | EmptyString => true
  | String c EmptyString => bool_decide (code c = 10)
  | _ => false
  end.

(** Does [r] match the empty word when [rest] is the text still ahead? *)
Fixpoint nullable (rest : string) (r : regex) : bool :=
  match r with
  | Never => false
  | Eps => true
  | Chr _ => false
  | Seq r1 r2 => nullable rest r1 && nullable rest r2
  | Alt r1 r2 => nullable rest r1 || nullable rest r2
  | Star _ => true
  | Dollar => at_dollar rest
  end.

(** What is left of [r] after it has consumed [c], the first character of
    [rest]. *)
Fixpoint deriv (rest : string) (c : ascii) (r : regex) : regex :=
  match r with
  | Never | Eps | Dollar => Never
  | Chr p => if p c then Eps else Never
  | Seq r1 r2 =>
      if nullable rest r1
      then Alt (Seq (deriv rest c r1) r2) (deriv rest c r2)
      else Seq (deriv rest c r1) r2
  | Alt r1 r2 => Alt (deriv rest c r1) (deriv rest c r2)
  | Star r1 => Seq (deriv rest c r1) (Star r1)
  end.

(** [re.match(r, s) is not None]: some prefix of [s] matches [r]. *)
Fixpoint re_match (r : regex) (s : string) : bool :=
  nullable s r
  || match s with
     | EmptyString => false
     | String c s' => re_match (deriv s c r) s'
     end.

Definition chr (c : ascii) : regex := Chr (λ x, bool_decide (x = c)).

Fixpoint lit (s : string) : regex :=
  match s with
  | EmptyString => Eps
  | String c s' => Seq (chr c) (lit s')
  end.

Definition plus (r : regex) : regex := Seq r (Star r).
Definition opt (r : regex) : regex := Alt r Eps.
Definition alts (rs : list regex) : regex := foldr Alt Never rs.
Definition digit : regex := Chr is_digit.

Fixpoint times (n : nat) (r : regex) : regex :=
  match n with
  | 0 => Eps
  | S n' => Seq r (times n' r)
  end.

(** [r{lo,hi}] with [hi = lo + more]. *)
Definition between (lo more : nat) (r : regex) : regex :=
  Seq (times lo r) (times more (opt r)).

(** [[a-zA-Z0-9_-]] *)
Definition id_char (c : ascii) : bool :=
  in_range 97 122 c || in_range 65 90 c || in_range 48 57 c
  || bool_decide (code c = 95) || bool_decide (code c = 45).

(** [r'^[a-zA-Z0-9_-]+$'] *)
Definition id_pattern : regex := Seq Eps (Seq (plus (Chr id_char)) Dollar).

(** The three alternatives of [cron_pattern]; [^] belongs to the first
    and [$] to the last. *)
Definition cron_preset : regex :=
  Seq Eps
    (Seq (lit "@")
       (alts [lit "yearly"; lit "annually"; lit "monthly"; lit "weekly";
              lit "daily"; lit "hourly"; lit "reboot"])).

Definition cron_every : regex :=
  Seq (lit "@every ")
    (plus (Seq (plus digit)
             (alts [lit "ns"; lit "us";
                    lit (String "194" (String "181" "s"));
                    lit "ms"; lit "s"; lit "m"; lit "h"]))).

Definition cron_field : regex :=
  alts [Seq (plus (Seq (plus digit) (lit ","))) (plus digit);
        Seq (plus digit) (Seq (alts [lit "/"; lit "-"]) (plus digit));
        plus digit;
        lit "*"].

Definition cron_fields : regex :=
  Seq (between 5 2 (Seq cron_field (opt (lit " ")))) Dollar.

Definition cron_pattern : regex :=
  Alt cron_preset (Alt cron_every cron_fields).

End Re.

(* ================================================================== *)
(** * [datetime.fromisoformat]

    The function as CPython 3.11 implements it, in C.  It works on the
    UTF-8 bytes of the text, reads the byte after the last one as zero, and
    accepts a date YYYY-MM-DD, YYYYMMDD, YYYY-Www, YYYYWww, YYYY-Www-D or
    YYYYWwwD, then possibly one character of any kind and a time
    HH[[:]MM[[:]SS]] with an optional fraction and an optional offset Z or
    +HH[[:]MM[[:]SS]] with a fraction; where the implementation is more
    lenient than that, so is the model.  The versions before 3.11 accept
    fewer texts. *)

Module IsoFormat.
Import PyStr.

(** The datetime the call returns: the date as its proleptic Gregorian
    ordinal ([toordinal()]), the time, and the offset from UTC in
    microseconds when the text gives one.  The validator does not use it. *)
Record datetime := mk_datetime {
  ordinal : Z; hour : Z; minute : Z; second : Z; microsecond : Z;
  utcoffset : option Z
}.

Definition utf8_char (c : ascii) : list nat :=
  if bool_decide (code c < 128) then [code c]
  else [192 + code c / 64; 128 + code c mod 64].

(** [PyUnicode_AsUTF8AndSize] *)
Fixpoint utf8 (s : string) : list nat :=
  match s with
  | EmptyString => []
  | String c s' => utf8_char c ++ utf8 s'
  end.

(** [dtstr[i]] *)
Definition byte_at (dtstr : list nat) (i : nat) : nat := nth i dtstr 0.

Definition is_digit_byte (c : nat) : bool := bool_decide (48 ≤ c ≤ 57).

(** [parse_digits]: [num_digits] digits from [ptr] on, added to [var]. *)
Fixpoint parse_digits (dtstr : list nat) (ptr num_digits : nat) (var : Z) : option Z :=
  match num_digits with
  | 0 => Some var
  | S n =>
      let c := byte_at dtstr ptr in
      if is_digit_byte c then parse_digits dtstr (S ptr) n (var * 10 + Z.of_nat (c - 48))%Z
      else None
  end.

(** The first position from [idx] on, among [fuel] of them, that holds no
    digit. *)
Fixpoint skip_digits (dtstr : list nat) (idx fuel : nat) : nat :=
  match fuel with
  | 0 => idx
  | S fuel' =>
      if is_digit_byte (byte_at dtstr idx) then skip_digits dtstr (S idx) fuel'
      else idx
  end.

(** Where the date ends; [None] stands for -1. *)
Definition _find_isoformat_datetime_separator (dtstr : list nat) : option nat :=
  let len := length dtstr in
  if bool_decide (len = 7) then Some 7
  else if bool_decide (byte_at dtstr 4 = code "-") then
    if bool_decide (byte_at dtstr 5 = code "W") then
      if bool_decide (len < 8) then None
      else if bool_decide (8 < len) && bool_decide (byte_at dtstr 8 = code "-") then
        if bool_decide (len = 9) then None
        else if bool_decide (10 < len) && is_digit_byte (byte_at dtstr 10) then Some 8
        else Some 10
      else Some 8
    else Some 10
  else if bool_decide (byte_at dtstr 4 = code "W") then
    let idx := skip_digits dtstr 7 (len - 7) in
    if bool_decide (idx < 9) then Some idx
    else if bool_decide (idx mod 2 = 0) then Some 7
    else Some 8
  else Some 8.

Definition is_leap (y : Z) : bool :=
  bool_decide (y mod 4 = 0)%Z
  && (negb (bool_decide (y mod 100 = 0)%Z) || bool_decide (y mod 400 = 0)%Z).

Definition days_in_month (y m : Z) : Z :=
  if bool_decide (m = 2)%Z then (if is_leap y then 29 else 28)%Z
  else if bool_decide (m ∈ [4; 6; 9; 11]%Z) then 30%Z
  else 31%Z.

Definition days_before_year (year : Z) : Z :=
  let y := (year - 1)%Z in (y * 365 + y / 4 - y / 100 + y / 400)%Z.

Definition days_before_month (y m : Z) : Z :=
  foldr Z.add 0%Z (days_in_month y <$> seqZ 1 (m - 1)).

Definition ymd_to_ord (y m d : Z) : Z :=
  (days_before_year y + days_before_month y m + d)%Z.

(** Monday is 0. *)
Definition weekday (y m d : Z) : Z := ((ymd_to_ord y m d + 6) mod 7)%Z.

Definition iso_week1_monday (year : Z) : Z :=
  let first_day := ymd_to_ord year 1 1 in
  let first_weekday := ((first_day + 6) mod 7)%Z in
  let week1_monday := (first_day - first_weekday)%Z in
  if bool_decide (3 < first_weekday)%Z then (week1_monday + 7)%Z else week1_monday.

(** The ordinal of 9999-12-31. *)
Definition MAXORDINAL : Z := 3652059.

(** What the constructor asks of a date. *)
Definition check_date_args (y m d : Z) : bool :=
  bool_decide (1 ≤ y ≤ 9999)%Z && bool_decide (1 ≤ m ≤ 12)%Z
  && bool_decide (1 ≤ d ≤ days_in_month y m)%Z.

(** [iso_to_ymd] and the constructor's check of the date it gives: a year
    has week 53 when it starts on a Thursday, or on a Wednesday and is a
    leap year; the days of the year 0000 lie before the year 1, and the
    last two days of week 52 of 9999 after the year 9999. *)
Definition iso_to_ymd (iso_year iso_week iso_day : Z) : option Z :=
  let first_weekday := weekday iso_year 1 1 in
  if bool_decide (iso_week ≤ 0)%Z
     || bool_decide (53 < iso_week)%Z
     || (bool_decide (iso_week = 53)%Z
         && negb (bool_decide (first_weekday = 3)%Z
                  || (bool_decide (first_weekday = 2)%Z && is_leap iso_year)))
  then None
  else if bool_decide (iso_day ≤ 0)%Z || bool_decide (8 ≤ iso_day)%Z then None
  else
    let day_1 := iso_week1_monday iso_year in
    let day_offset := ((iso_week - 1) * 7 + iso_day - 1)%Z in
    if bool_decide (iso_year ≤ 0)%Z || bool_decide (MAXORDINAL < day_1 + day_offset)%Z
    then None
    else Some (day_1 + day_offset)%Z.

(** [parse_isoformat_date] on the bytes before [len], and the check of the
    date: the ordinal of the date. *)
Definition parse_isoformat_date (dtstr : list nat) (len : option nat) : option Z :=
  year ← parse_digits dtstr 0 4 0%Z;
  let uses_separator := bool_decide (byte_at dtstr 4 = code "-") in
  let cur := if uses_separator then 5 else 4 in
  if bool_decide (byte_at dtstr cur = code "W") then
    let cur := S cur in
    iso_week ← parse_digits dtstr cur 2 0%Z;
    let cur := cur + 2 in
    if match len with Some len => bool_decide (cur < len) | None => true end then
      if uses_separator && negb (bool_decide (byte_at dtstr cur = code "-")) then None
      else
        let cur := if uses_separator then S cur else cur in
        iso_day ← parse_digits dtstr cur 1 0%Z;
        iso_to_ymd year iso_week iso_day
    else iso_to_ymd year iso_week 1%Z
  else
    month ← parse_digits dtstr cur 2 0%Z;
    let cur := cur + 2 in
    if uses_separator && negb (bool_decide (byte_at dtstr cur = code "-")) then None
    else
      let cur := if uses_separator then S cur else cur in
      day ← parse_digits dtstr cur 2 0%Z;
      if check_date_args year month day then Some (ymd_to_ord year month day) else None.

(** How the loop over hours, minutes and seconds ends. *)
Inductive components : Type :=
| Returned (vals : list Z) (rv : nat)
| Broken (vals : list Z) (p : nat)
| Malformed.

(** The loop of [parse_hh_mm_ss_ff] with [n] components to go. *)
Fixpoint hh_mm_ss (dtstr : list nat) (p_end n : nat) (first has_separator : bool)
    (p : nat) (vals : list Z) : components :=
  match n with
  | 0 => Broken vals p
  | S n' =>
      match parse_digits dtstr p 2 0%Z with
      | None => Malformed
      | Some v =>
          let vals := vals ++ [v] in
          let c := byte_at dtstr (p + 2) in
          let p := p + 3 in
          let has_separator := if first then bool_decide (c = code ":") else has_separator in
          if bool_decide (p_end ≤ p) then Returned vals (if bool_decide (c = 0) then 0 else 1)
          else if has_separator && bool_decide (c = code ":") then
            hh_mm_ss dtstr p_end n' false has_separator p vals
          else if bool_decide (c = code ".") || bool_decide (c = code ",") then Broken vals p
          else if negb has_separator then
            hh_mm_ss dtstr p_end n' false has_separator (p - 1) vals
          else Malformed
      end
  end.

(** [parse_hh_mm_ss_ff] on the bytes from [p] to [p_end]: the hour, the
    minute, the second, the microsecond, and 1 when something is left. *)
Definition parse_hh_mm_ss_ff (dtstr : list nat) (p p_end : nat)
  : option (Z * Z * Z * Z * nat) :=
  match hh_mm_ss dtstr p_end 3 true true p [] with
  | Malformed => None
  | Returned vals rv => Some (nth 0 vals 0%Z, nth 1 vals 0%Z, nth 2 vals 0%Z, 0%Z, rv)
  | Broken vals p =>
      let len_remains := p_end - p in
      let to_parse := len_remains `min` 6 in
      microsecond ← parse_digits dtstr p to_parse 0%Z;
      let microsecond := (microsecond * 10 ^ Z.of_nat (6 - to_parse))%Z in
      let p := skip_digits dtstr (p + to_parse) (length dtstr - (p + to_parse)) in
      Some (nth 0 vals 0%Z, nth 1 vals 0%Z, nth 2 vals 0%Z, microsecond,
            if bool_decide (byte_at dtstr p = 0) then 0 else 1)
  end.

Definition is_tz_byte (c : nat) : bool :=
  bool_decide (c = code "Z") || bool_decide (c = code "+") || bool_decide (c = code "-").

(** [do ... while (++tzinfo_pos < p_end)], with [fuel] turns after this one. *)
Fixpoint find_tzinfo (dtstr : list nat) (tzinfo_pos fuel : nat) : nat :=
  if is_tz_byte (byte_at dtstr tzinfo_pos) then tzinfo_pos
  else
    match fuel with
    | 0 => S tzinfo_pos
    | S fuel' => find_tzinfo dtstr (S tzinfo_pos) fuel'
    end.

(** [parse_isoformat_time] together with [tzinfo_from_isoformat_results]:
    an offset of zero seconds is UTC, another one has to be less than a day
    long. *)
Definition parse_isoformat_time (dtstr : list nat) (p dtlen : nat)
  : option (Z * Z * Z * Z * option Z) :=
  let p_end := p + dtlen in
  let tzinfo_pos := find_tzinfo dtstr p (dtlen - 1) in
  '(h, m, s, us, rv) ← parse_hh_mm_ss_ff dtstr p tzinfo_pos;
  if bool_decide (tzinfo_pos = p_end) then
    if bool_decide (rv = 1) then None else Some (h, m, s, us, None)
  else if bool_decide (byte_at dtstr tzinfo_pos = code "Z") then
    if bool_decide (byte_at dtstr (S tzinfo_pos) = 0) then Some (h, m, s, us, Some 0%Z)
    else None
  else
    let tzsign := if bool_decide (byte_at dtstr tzinfo_pos = code "-") then (-1)%Z else 1%Z in
    '(tzhour, tzminute, tzsecond, tzmicrosecond, rv) ←
      parse_hh_mm_ss_ff dtstr (S tzinfo_pos) p_end;
    if bool_decide (rv = 0) then
      let tzoffset := (tzhour * 3600 + tzminute * 60 + tzsecond)%Z in
      if bool_decide (tzoffset = 0)%Z then Some (h, m, s, us, Some 0%Z)
      else if bool_decide (tzoffset * 1000000 + tzmicrosecond < 86400 * 1000000)%Z then
        Some (h, m, s, us, Some (tzsign * (tzoffset * 1000000 + tzmicrosecond))%Z)
      else None
    else None.

(** The bytes of the character that separates the date from the time. *)
Definition separator_width (c : nat) : nat :=
  if bool_decide (c < 128) then 1
  else if bool_decide (240 ≤ c) then 4
  else if bool_decide (224 ≤ c) then 3
  else if bool_decide (192 ≤ c) then 2
  else 0.

Definition check_time_args (h m s : Z) : bool :=
  bool_decide (h < 24)%Z && bool_decide (m < 60)%Z && bool_decide (s < 60)%Z.

(** [datetime_fromisoformat] on the bytes of the text.  No text makes the
    search for the separator fail and the date parse. *)
Definition datetime_fromisoformat (dtstr : list nat) : option datetime :=
  let len := length dtstr in
  let separator_location := _find_isoformat_datetime_separator dtstr in
  date ← parse_isoformat_date dtstr separator_location;
  sep ← separator_location;
  if bool_decide (sep < len) then
    let p := sep + separator_width (byte_at dtstr sep) in
    '(h, m, s, us, tz) ← parse_isoformat_time dtstr p (len - p);
    if check_time_args h m s then Some (mk_datetime date h m s us tz) else None
  else Some (mk_datetime date 0 0 0 0 None)%Z.

(** [None] stands for the ValueError the function raises. *)
Definition fromisoformat (s : string) : option datetime :=
  datetime_fromisoformat (utf8 s).

End IsoFormat.

(* ================================================================== *)
(** * Data model *)

(** The value a dict holds under a key the validator reads with [get] or
    tests with [in] and [is None]. *)
Inductive entry (A : Type) : Type :=
| Absent                 (* the key is not in the dict *)
| Null                   (* the key maps to None *)
| Present (a : A).
Arguments Absent {A}.
Arguments Null {A}.
Arguments Present {A} a.

(** [d.get(key)]: [None] is Python's None. *)
Definition get {A} (e : entry A) : option A :=
  match e with
  | Present a => Some a
  | Absent | Null => None
  end.

(** [d.get(key, default)] *)
Definition get_or {A} (e : entry A) (default : A) : option A :=
  match e with
  | Present a => Some a
  | Absent => Some default
  | Null => None
  end.

(** [key not in d or d[key] is None] *)
Definition missing_or_none {A} (e : entry A) : bool :=
  match e with
  | Present _ => false
  | Absent | Null => true
  end.

(** A mapping of operator parameters; the validator only asks whether it is
    empty. *)
Definition Mapping : Type := list (string * string).

Record Task := mk_task {
  task_id : option string;
  operator_type : entry string;
  params : entry Mapping;
  parameters : entry Mapping;        (* never read by the validator *)
  dependencies : option (list string)
}.

Record Connection := mk_connection {
  conn_id : option string;
  conn_type : option string
}.

Record Variable_ := mk_variable {
  key : option string;
  value : option string
}.

Record Specification := mk_spec {
  dag_id : entry string;
  description : entry string;
  schedule : entry string;
  start_date : entry string;
  tasks : entry (list Task);
  connections : option (list Connection);
  variables : option (list Variable_);
  other_keys : list string            (* catchup, tags, default_args, ... *)
}.

(** The dict [{}]. *)
Definition empty_spec : Specification :=
  mk_spec Absent Absent Absent Absent Absent None None [].

(** A finding is a dict with the key [type], [message] and some of [field],
    [line] and [details]; [details] may hold None. *)
Record Finding := mk_finding {
  type : string;
  field : option string;
  line : option nat;
  message : string;
  details : option (option string)
}.

Global Instance Finding_eq_dec : EqDecision Finding.
Proof. solve_decision. Defined.

Definition field_finding (ty fld msg : string) : Finding :=
  mk_finding ty (Some fld) None msg None.

Definition line_finding (ty : string) (ln : nat) (msg : string) : Finding :=
  mk_finding ty None (Some ln) msg None.

Record ValidationResult := mk_result {
  valid : bool;
  errors : list Finding;
  warnings : list Finding
}.

(** The attributes of a [DAGValidator] instance. *)
Record DAGValidator := mk_validator {
  self_errors : list Finding;
  self_warnings : list Finding
}.

(** [DAGValidator()] *)
Definition init : DAGValidator := mk_validator [] [].

(* ================================================================== *)
(** * The state monad of the methods *)

Definition M (A : Type) : Type := DAGValidator → A * DAGValidator.

Global Instance M_ret : MRet M := λ A a self, (a, self).
Global Instance M_bind : MBind M := λ A B f m self,
  let '(a, self') := m self in f a self'.

(** [self.errors.append(f)] *)
Definition add_error (f : Finding) : M unit := λ self,
  (tt, mk_validator (self_errors self ++ [f]) (self_warnings self)).

(** [self.warnings.append(f)] *)
Definition add_warning (f : Finding) : M unit := λ self,
  (tt, mk_validator (self_errors self) (self_warnings self ++ [f])).

(** [self.errors = []; self.warnings = []] *)
Definition reset : M unit := λ _, (tt, init).

Definition when (b : bool) (m : M unit) : M unit :=
  if b then m else mret tt.

(** [_build_result] *)
Definition _build_result : M ValidationResult := λ self,
  (mk_result (bool_decide (length (self_errors self) = 0))
     (self_errors self) (self_warnings self),
   self).

(** Python truth of an optional string, list or mapping. *)
Definition truthy_str (s : option string) : bool :=
  match s with
  | Some (String _ _) => true
  | _ => false
  end.

Definition truthy_list {A} (l : option (list A)) : bool :=
  match l with
  | Some (_ :: _) => true
  | _ => false
  end.

(* ================================================================== *)
(** * validate_syntax *)

(** What [_check_dag_structure] looks at in a node of the parsed tree. *)
Inductive ast_node : Type :=
| ImportFrom (module : option string) (names : list string)
| Call (func_id : option string)       (* the id when [func] is a Name *)
| OtherNode.

(** The outcome of [ast.parse]: the nodes in the order of [ast.walk], a
    SyntaxError with its [lineno], [msg] and [text], or another exception
    with its text. *)
Inductive parse_outcome : Type :=
| Parsed (walk : list ast_node)
| RaisedSyntaxError (lineno : option nat) (msg : string) (text : option string)
| RaisedException (str_e : string).

Definition VALID_OPERATORS : list string :=
  ["BashOperator"; "PythonOperator"; "EmailOperator"; "SimpleHttpOperator";
   "PostgresOperator"; "MySqlOperator"; "SqliteOperator"; "MsSqlOperator";
   "OracleOperator"; "S3FileTransformOperator"; "S3ToRedshiftOperator";
   "RedshiftToS3Operator"; "BigQueryOperator"; "BigQueryCreateEmptyTableOperator";
   "GCSToGoogleDriveOperator"; "SnowflakeOperator"; "SparkSubmitOperator";
   "DatabricksSubmitRunOperator"; "KubernetesPodOperator"; "DockerOperator";
   "EmptyOperator"; "BranchPythonOperator"; "ShortCircuitOperator";
   "TriggerDagRunOperator"; "ExternalTaskSensor"; "HttpSensor";
   "S3KeySensor"; "SqlSensor"; "TimeDeltaSensor"].

(** The strings of [VALID_SCHEDULES]; its member None is handled before the
    set is consulted. *)
Definition VALID_SCHEDULES : list string :=
  ["@once"; "@hourly"; "@daily"; "@weekly"; "@monthly"; "@yearly";
   "@annually"; "None"; "null"].

Import PyStr.

(** The three flags after the walk over the tree. *)
Record flags := mk_flags {
  has_dag_import : bool;
  has_dag_definition : bool;
  has_tasks : bool
}.

Definition visit (fl : flags) (node : ast_node) : flags :=
  match node with
  | ImportFrom (Some module) names =>
      if contains "airflow" module then
        mk_flags true
          (has_dag_definition fl || bool_decide ("DAG" ∈ names))
          (has_tasks fl)
      else fl
  | ImportFrom None _ => fl
  | Call (Some id) =>
      mk_flags (has_dag_import fl)
        (has_dag_definition fl || bool_decide (id = "DAG"))
        (has_tasks fl || contains "Operator" id || contains "Sensor" id)
  | Call None => fl
  | OtherNode => fl
  end.

Definition _check_dag_structure (walk : list ast_node) : M unit :=
  let fl := foldl visit (mk_flags false false false) walk in
  when (negb (has_dag_import fl))
    (add_warning (mk_finding "structure" None None
       "No Airflow imports detected. Ensure you import from airflow modules." None)) ;;
  when (negb (has_dag_definition fl))
    (add_warning (mk_finding "structure" None None
       "No DAG definition found. A DAG object must be instantiated." None)) ;;
  when (negb (has_tasks fl))
    (add_warning (mk_finding "structure" None None
       "No task operators detected. DAG should contain at least one task." None)).

(** How an f-string prints an optional line number. *)
Definition str_lineno (l : option nat) : string :=
  match l with
  | Some n => pretty n
  | None => "None"
  end.

Section Syntax.

(** [ast.parse], the parser of the Python interpreter. *)
Variable ast_parse : string → parse_outcome.

Definition validate_syntax (dag_code : string) : M ValidationResult :=
  reset ;;
  if negb (truthy_str (Some dag_code)) || negb (truthy_str (Some (strip dag_code))) then
    add_error (line_finding "syntax" 0 "DAG code is empty") ;;
    _build_result
  else
    match ast_parse dag_code with
    | Parsed walk =>
        _check_dag_structure walk ;;
        _build_result
    | RaisedSyntaxError lineno msg text =>
        let error_msg := "Syntax error at line " +:+ str_lineno lineno +:+ ": " +:+ msg in
        add_error (mk_finding "syntax" None (Some (default 0 lineno)) error_msg
                     (Some (if truthy_str text then strip <$> text else None))) ;;
        _build_result
    | RaisedException str_e =>
        add_error (line_finding "validation" 0 ("Validation error: " +:+ str_e)) ;;
        _build_result
    end.

End Syntax.

(* ================================================================== *)
(** * validate_structure: the sub-checks *)

Import Re IsoFormat.

(** [for x in l: body(x)] *)
Fixpoint for_each {A} (l : list A) (body : A → M unit) : M unit :=
  match l with
  | [] => mret tt
  | x :: l' => body x ;; for_each l' body
  end.

Definition quoted (s : string) : string := dq +:+ s +:+ dq.

(** [_validate_required_fields]; each pair is a required key and whether
    [field not in spec or spec[field] is None] holds for it. *)
Definition _validate_required_fields (spec : Specification) : M unit :=
  for_each
    [("dag_id", missing_or_none (dag_id spec));
     ("description", missing_or_none (description spec));
     ("schedule", missing_or_none (schedule spec));
     ("tasks", missing_or_none (tasks spec))]
    (λ '(fld, missing),
       when missing
         (if bool_decide (fld = "schedule") then
            add_warning (field_finding "field" fld
              "Schedule is None - DAG will not run automatically")
          else
            add_error (field_finding "field" fld
              ("Required field " +:+ quoted fld +:+ " is missing or null")))).

Definition _validate_dag_id (dag_id : option string) : M unit :=
  if negb (truthy_str dag_id) then mret tt
  else
    let dag_id := default EmptyString dag_id in
    when (negb (re_match id_pattern dag_id))
      (add_error (field_finding "format" "dag_id"
         ("DAG ID " +:+ quoted dag_id +:+
          " contains invalid characters. Use only letters, numbers, underscores, and hyphens."))) ;;
    when (bool_decide (100 < String.length dag_id))
      (add_error (field_finding "format" "dag_id"
         ("DAG ID is too long (" +:+ pretty (String.length dag_id) +:+
          " chars). Maximum is 100 characters."))) ;;
    when (bool_decide (dag_id ≠ lower dag_id))
      (add_warning (field_finding "format" "dag_id"
         ("DAG ID should be lowercase for consistency. Consider: " +:+
          quoted (lower dag_id)))).

Definition _validate_schedule (schedule : option string) : M unit :=
  match schedule with
  | None => mret tt
  | Some schedule =>
      if bool_decide (schedule ∈ ["None"; "null"]) then mret tt
      else if bool_decide (schedule ∈ VALID_SCHEDULES) then mret tt
      else
        when (negb (re_match cron_pattern (strip schedule)))
          (add_warning (field_finding "format" "schedule"
             ("Schedule " +:+ quoted schedule +:+
              " may not be a valid cron expression or preset")))
  end.

Definition _validate_start_date (start_date : option string) : M unit :=
  if negb (truthy_str start_date) then
    add_warning (field_finding "field" "start_date"
      "No start_date specified. Will use default.")
  else
    let start_date := default EmptyString start_date in
    match fromisoformat start_date with
    | Some _ => mret tt
    | None =>
        add_error (field_finding "format" "start_date"
          ("Invalid date format " +:+ quoted start_date +:+ ". Use YYYY-MM-DD."))
    end.

(** [f'tasks[{i}].name'] and its like. *)
Definition indexed (coll : string) (i : nat) (name : string) : string :=
  coll +:+ "[" +:+ pretty i +:+ "]." +:+ name.

(** Python truth of what [task.get('params', {})] returns. *)
Definition truthy_mapping (m : option Mapping) : bool :=
  match m with
  | Some (_ :: _) => true
  | _ => false
  end.

(** The body of the loop of [_validate_tasks] from index [i] on, with the
    ids seen so far. *)
Fixpoint tasks_loop (i : nat) (tasks : list Task) (task_ids : gset string) : M unit :=
  match tasks with
  | [] => mret tt
  | task :: rest =>
      match task_id task with
      | None =>
          add_error (field_finding "field" (indexed "tasks" i "task_id")
            ("Task at index " +:+ pretty i +:+ " is missing task_id")) ;;
          tasks_loop (S i) rest task_ids
      | Some tid =>
          when (bool_decide (tid ∈ task_ids))
            (add_error (field_finding "duplicate" "task_id"
               ("Duplicate task_id: " +:+ quoted tid))) ;;
          let task_ids := {[tid]} ∪ task_ids in
          when (negb (re_match id_pattern tid))
            (add_error (field_finding "format" (indexed "tasks" i "task_id")
               ("Task ID " +:+ quoted tid +:+ " contains invalid characters"))) ;;
          let operator_type := get (operator_type task) in
          (if negb (truthy_str operator_type) then
             add_error (field_finding "field" (indexed "tasks" i "operator_type")
               ("Task " +:+ quoted tid +:+ " is missing operator_type"))
           else
             when (bool_decide (default EmptyString operator_type ∉ VALID_OPERATORS))
               (add_warning (field_finding "operator" (indexed "tasks" i "operator_type")
                  ("Unknown operator type: " +:+ quoted (default EmptyString operator_type) +:+
                   ". May not be supported.")))) ;;
          let params := get_or (params task) [] in
          when (truthy_str operator_type && negb (truthy_mapping params))
            (add_warning (field_finding "params" (indexed "tasks" i "params")
               ("Task " +:+ quoted tid +:+
                " has no parameters. Operator may require configuration."))) ;;
          tasks_loop (S i) rest task_ids
      end
  end.

Definition _validate_tasks (tasks : option (list Task)) : M unit :=
  if negb (truthy_list tasks) then
    add_error (field_finding "structure" "tasks" "DAG must contain at least one task")
  else tasks_loop 0 (default [] tasks) ∅.

Fixpoint connections_loop (i : nat) (conns : list Connection) (conn_ids : gset string) : M unit :=
  match conns with
  | [] => mret tt
  | conn :: rest =>
      match conn_id conn with
      | None =>
          add_error (field_finding "field" (indexed "connections" i "conn_id")
            ("Connection at index " +:+ pretty i +:+ " is missing conn_id")) ;;
          connections_loop (S i) rest conn_ids
      | Some cid =>
          when (bool_decide (cid ∈ conn_ids))
            (add_error (field_finding "duplicate" "conn_id"
               ("Duplicate connection ID: " +:+ quoted cid))) ;;
          let conn_ids := {[cid]} ∪ conn_ids in
          when (bool_decide (conn_type conn = None))
            (add_error (field_finding "field" (indexed "connections" i "conn_type")
               ("Connection " +:+ quoted cid +:+ " is missing conn_type"))) ;;
          connections_loop (S i) rest conn_ids
      end
  end.

Definition _validate_connections (connections : list Connection) : M unit :=
  connections_loop 0 connections ∅.

Fixpoint variables_loop (i : nat) (vars : list Variable_) (var_keys : gset string) : M unit :=
  match vars with
  | [] => mret tt
  | var :: rest =>
      match key var with
      | None =>
          add_error (field_finding "field" (indexed "variables" i "key")
            ("Variable at index " +:+ pretty i +:+ " is missing key")) ;;
          variables_loop (S i) rest var_keys
      | Some k =>
          when (bool_decide (k ∈ var_keys))
            (add_warning (field_finding "duplicate" "variable_key"
               ("Duplicate variable key: " +:+ quoted k))) ;;
          variables_loop (S i) rest ({[k]} ∪ var_keys)
      end
  end.

Definition _validate_variables (variables : list Variable_) : M unit :=
  variables_loop 0 variables ∅.

(* ================================================================== *)
(** * Circular dependencies *)

(** [task.get('dependencies', [])] *)
Definition get_dependencies (task : Task) : list string :=
  default [] (dependencies task).

(** A dict from task ids to dependency lists: keys in the order of their
    first insertion, the value of the last assignment. *)
Definition Graph : Type := list (string * list string).

Fixpoint dict_get (graph : Graph) (k : string) : option (list string) :=
  match graph with
  | [] => None
  | (k', v) :: graph' => if decide (k' = k) then Some v else dict_get graph' k
  end.

(** [graph[k] = v] *)
Fixpoint dict_set (graph : Graph) (k : string) (v : list string) : Graph :=
  match graph with
  | [] => [(k, v)]
  | (k', v') :: graph' =>
      if decide (k' = k) then (k, v) :: graph' else (k', v') :: dict_set graph' k v
  end.

Definition dict_keys (graph : Graph) : list string := fst <$> graph.

(** The adjacency list built at the start of [_has_circular_dependencies]. *)
Definition build_graph (tasks : list Task) : Graph :=
  foldl (λ graph task,
           match task_id task with
           | None => graph
           | Some tid => dict_set graph tid (get_dependencies task)
           end) [] tasks.

(** The two sets the search shares between its calls. *)
Record dfs_state := mk_dfs {
  visited : gset string;
  rec_stack : gset string
}.

(** The outcome of a call of [has_cycle]: what it returned and the sets
    afterwards; [None] when the fuel ran out. *)
Definition outcome : Type := option (bool * dfs_state).

(** [for neighbor in ...] inside [has_cycle]; [rec] is the recursive call. *)
Fixpoint scan (rec : string → dfs_state → outcome)
    (neighbors : list string) (st : dfs_state) : outcome :=
  match neighbors with
  | [] => Some (false, st)
  | neighbor :: rest =>
      if decide (neighbor ∉ visited st) then
        match rec neighbor st with
        | None => None
        | Some (true, st') => Some (true, st')
        | Some (false, st') => scan rec rest st'
        end
      else if decide (neighbor ∈ rec_stack st) then Some (true, st)
      else scan rec rest st
  end.

Fixpoint has_cycle (fuel : nat) (graph : Graph) (node : string) (st : dfs_state) : outcome :=
  match fuel with
  | 0 => None
  | S fuel' =>
      let st := mk_dfs ({[node]} ∪ visited st) ({[node]} ∪ rec_stack st) in
      match scan (has_cycle fuel' graph) (default [] (dict_get graph node)) st with
      | None => None
      | Some (true, st') => Some (true, st')
      | Some (false, st') =>
          Some (false, mk_dfs (visited st') (rec_stack st' ∖ {[node]}))
      end
  end.

(** [for node in graph] at the end of [_has_circular_dependencies]. *)
Fixpoint roots (rec : string → dfs_state → outcome)
    (nodes : list string) (st : dfs_state) : outcome :=
  match nodes with
  | [] => Some (false, st)
  | node :: rest =>
      if decide (node ∉ visited st) then
        match rec node st with
        | None => None
        | Some (true, st') => Some (true, st')
        | Some (false, st') => roots rec rest st'
        end
      else roots rec rest st
  end.

(** Every string that can become a node of the search: the keys of the
    graph and the entries of its lists. *)
Definition universe (graph : Graph) : gset string :=
  list_to_set (dict_keys graph) ∪ list_to_set (mjoin (snd <$> graph)).

(** The fuel of [has_cycle] is the number of its calls that may nest.  Each
    call marks a node that was not visited, so with one unit of fuel per
    possible node the search comes to its end ([search_total] below): this
    is the search when the recursion limit of the interpreter is out of
    reach.  The module [Recursion] has the search under a limit. *)
Definition search (graph : Graph) : outcome :=
  roots (has_cycle (size (universe graph)) graph) (dict_keys graph) (mk_dfs ∅ ∅).

Definition _has_circular_dependencies (tasks : list Task) : bool :=
  match search (build_graph tasks) with
  | Some (b, _) => b
  | None => false
  end.

(** The set comprehension at the start of [_validate_dependencies]. *)
Definition task_id_set (tasks : list Task) : gset string :=
  list_to_set (omap task_id tasks).

Definition nonexistent_error (tid dep : string) : Finding :=
  field_finding "dependency" "dependencies"
    ("Task " +:+ quoted tid +:+ " depends on non-existent task " +:+ quoted dep).

Definition self_error (tid : string) : Finding :=
  field_finding "dependency" "dependencies"
    ("Task " +:+ quoted tid +:+ " cannot depend on itself").

Definition circular_error : Finding :=
  field_finding "dependency" "dependencies"
    "Circular dependency detected in task graph".

(** The body of the loop over the tasks in [_validate_dependencies]. *)
Definition check_references (task_ids : gset string) (task : Task) : M unit :=
  match task_id task with
  | None => mret tt
  | Some tid =>
      for_each (get_dependencies task) (λ dep,
        when (bool_decide (dep ∉ task_ids)) (add_error (nonexistent_error tid dep)) ;;
        when (bool_decide (dep = tid)) (add_error (self_error tid)))
  end.

Definition _validate_dependencies (tasks : option (list Task)) : M unit :=
  if negb (truthy_list tasks) then mret tt
  else
    let tasks := default [] tasks in
    let task_ids := task_id_set tasks in
    for_each tasks (check_references task_ids) ;;
    when (_has_circular_dependencies tasks) (add_error circular_error).

(* ================================================================== *)
(** * validate_structure *)

(** [not dag_spec] for a dict: it has no key at all. *)
Definition is_none {A} (o : option A) : bool :=
  match o with
  | None => true
  | Some _ => false
  end.

Definition absent {A} (e : entry A) : bool :=
  match e with
  | Absent => true
  | _ => false
  end.

Definition is_empty_dict (spec : Specification) : bool :=
  absent (dag_id spec) && absent (description spec) && absent (schedule spec)
  && absent (start_date spec) && absent (tasks spec)
  && is_none (connections spec) && is_none (variables spec)
  && bool_decide (other_keys spec = []).

(** [not dag_spec]: None or the empty dict. *)
Definition falsy_spec (dag_spec : option Specification) : bool :=
  match dag_spec with
  | None => true
  | Some spec => is_empty_dict spec
  end.

Definition root_error : Finding :=
  field_finding "structure" "root" "DAG specification is empty".

Definition validate_structure (dag_spec : option Specification) : M ValidationResult :=
  reset ;;
  if falsy_spec dag_spec then
    add_error root_error ;;
    _build_result
  else
    let spec := default empty_spec dag_spec in
    _validate_required_fields spec ;;
    _validate_dag_id (get (dag_id spec)) ;;
    _validate_schedule (get (schedule spec)) ;;
    _validate_start_date (get (start_date spec)) ;;
    _validate_tasks (get_or (tasks spec) []) ;;
    _validate_connections (default [] (connections spec)) ;;
    _validate_variables (default [] (variables spec)) ;;
    _validate_dependencies (get_or (tasks spec) []) ;;
    _build_result.

(** A call on a fresh instance: [DAGValidator().validate_structure(spec)]. *)
Definition check_structure (dag_spec : option Specification) : ValidationResult :=
  (validate_structure dag_spec init).1.

(* ================================================================== *)
(** * The dependency graph, as the search sees it and as the tasks declare it *)

(** [graph.get(node, [])] *)
Definition successors (graph : Graph) (u : string) : list string :=
  default [] (dict_get graph u).

Definition edge (graph : Graph) (u v : string) : Prop := v ∈ successors graph u.

(** A directed cycle of length at least one. *)
Definition has_cycle_in (R : relation string) : Prop := ∃ u, tc R u u.

(** An edge from every task id to every entry of the dependency list of
    every task that carries this id. *)
Definition declared_edge (tasks : list Task) (u v : string) : Prop :=
  ∃ task, task ∈ tasks ∧ task_id task = Some u ∧ v ∈ get_dependencies task.

(** The last task of the list that carries the id [u]. *)
Fixpoint declaration (tasks : list Task) (u : string) : option Task :=
  match tasks with
  | [] => None
  | task :: rest =>
      match declaration rest u with
      | Some t => Some t
      | None => if decide (task_id task = Some u) then Some task else None
      end
  end.

(** An edge from every task id to every entry of the dependency list of
    the last task that carries this id. *)
Definition effective_edge (tasks : list Task) (u v : string) : Prop :=
  ∃ task, declaration tasks u = Some task ∧ v ∈ get_dependencies task.

(** The task with the id [u] lists [v] among its dependencies. *)
Definition depends_on (tasks : list Task) (u v : string) : Prop :=
  ∃ task deps, task ∈ tasks ∧ task_id task = Some u
               ∧ dependencies task = Some deps ∧ v ∈ deps.

(** The names that occur in a task list, as a task id or in a list of
    dependencies. *)
Definition names (tasks : list Task) : gset string :=
  list_to_set (omap task_id tasks)
  ∪ list_to_set (tasks ≫= λ task, default [] (dependencies task)).

(** The nodes that are visited and no longer on the stack. *)
Definition finished (st : dfs_state) : gset string := visited st ∖ rec_stack st.

(** * The findings of a check *)

(** The state a check leaves when it starts from empty lists. *)
Definition out (m : M unit) : DAGValidator := (m init).2.

Definition extend (a b : DAGValidator) : DAGValidator :=
  mk_validator (self_errors a ++ self_errors b) (self_warnings a ++ self_warnings b).

(** A check only appends, and what it appends does not depend on what the
    lists held before. *)
Class Framed (m : M unit) : Prop :=
  framed : ∀ self, m self = (tt, extend self (out m)).

(** The tasks a specification carries, as [_validate_dependencies] gets them. *)
Definition tasks_of (spec : Specification) : list Task :=
  default [] (get (tasks spec)).

(** [s] between double quotes. *)
Definition in_quotes (s : string) : string :=
  String "034" (s +:+ String "034" EmptyString).

(** The error the specification asks for when the task [tid] lists [dep]
    and no task has the id [dep]. *)
Definition dangling_error (tid dep : string) : Finding :=
  mk_finding "dependency" (Some "dependencies") None
    ("Task " +:+ in_quotes tid +:+ " depends on non-existent task " +:+ in_quotes dep)
    None.

(** An error of kind dependency that says some task depends on a task that
    does not exist. *)
Definition is_dangling_error (f : Finding) : Prop :=
  type f = "dependency"
  ∧ ∃ tid dep,
      message f
      = "Task " +:+ in_quotes tid +:+ " depends on non-existent task " +:+ in_quotes dep.

(** The occurrences of a dangling reference in a task list, in the order of
    the tasks and of their lists: a task with an id, and an entry of its
    list under the key dependencies that is the id of no task. *)
Definition dangling_occurrences (ts : list Task) : list (string * string) :=
  task ← ts;
  match task_id task, dependencies task with
  | Some tid, Some deps =>
      (λ dep, (tid, dep)) <$> filter (λ dep, dep ∉ omap task_id ts) deps
  | _, _ => []
  end.

(** The dangling references as [_validate_dependencies] reads them, with
    the list [task.get('dependencies', [])] of every task. *)
Definition dangling_references (ts : list Task) : list (string * string) :=
  task ← ts;
  match task_id task with
  | None => []
  | Some tid =>
      (λ dep, (tid, dep)) <$> filter (λ dep, dep ∉ omap task_id ts) (get_dependencies task)
  end.

(** The findings [_validate_dependencies] appends for them. *)
Definition is_nonexistent_error (f : Finding) : Prop :=
  ∃ tid dep, f = nonexistent_error tid dep.

(** [sieve P l l']: [l'] lists the members of [l] that satisfy [P], in
    order and with their repetitions. *)
Inductive sieve {A} (P : A → Prop) : list A → list A → Prop :=
| sieve_nil : sieve P [] []
| sieve_keep x l l' : P x → sieve P l l' → sieve P (x :: l) (x :: l')
| sieve_skip x l l' : ¬ P x → sieve P l l' → sieve P (x :: l) l'.

(** A sequence of calls on one validator instance. *)
Inductive call : Type :=
| SyntaxCall (dag_code : string)
| StructureCall (dag_spec : option Specification).

Definition run_call (ast_parse : string → parse_outcome) (c : call)
    (self : DAGValidator) : DAGValidator :=
  match c with
  | SyntaxCall dag_code => (validate_syntax ast_parse dag_code self).2
  | StructureCall dag_spec => (validate_structure dag_spec self).2
  end.

Definition run_calls (ast_parse : string → parse_outcome) (cs : list call)
    (self : DAGValidator) : DAGValidator :=
  foldl (λ self c, run_call ast_parse c self) self cs.

(** Source text that is empty or holds white space only. *)
Fixpoint whitespace_only (s : string) : bool :=
  match s with
  | EmptyString => true
  | String c s' => is_space c && whitespace_only s'
  end.

(** The warning about missing parameters of the task at index [i]. *)
Definition is_params_warning (i : nat) (f : Finding) : Prop :=
  type f = "params" ∧ field f = Some (indexed "tasks" i "params").

Global Instance is_params_warning_dec i f : Decision (is_params_warning i f).
Proof. unfold is_params_warning. apply _. Defined.

(** An error of kind format on the start date. *)
Definition is_start_date_error (f : Finding) : Prop :=
  type f = "format" ∧ field f = Some "start_date".

Global Instance is_start_date_error_dec f : Decision (is_start_date_error f).
Proof. unfold is_start_date_error. apply _. Defined.

(** The eight sub-checks of [validate_structure], in the order they run. *)
Definition structure_checks (spec : Specification) : list (M unit) :=
  [_validate_required_fields spec;
   _validate_dag_id (get (dag_id spec));
   _validate_schedule (get (schedule spec));
   _validate_start_date (get (start_date spec));
   _validate_tasks (get_or (tasks spec) []);
   _validate_connections (default [] (connections spec));
   _validate_variables (default [] (variables spec));
   _validate_dependencies (get_or (tasks spec) [])].

(** Every error of a check satisfies [Pe] and every warning [Pw]. *)
Definition emits_only (Pe Pw : Finding → Prop) (m : M unit) : Prop :=
  Forall Pe (self_errors (out m)) ∧ Forall Pw (self_warnings (out m)).

(** The error that reports a circular dependency. *)
Definition is_circular_error (f : Finding) : Prop :=
  type f = "dependency" ∧ message f = "Circular dependency detected in task graph".

Global Instance is_circular_error_dec f : Decision (is_circular_error f).
Proof. unfold is_circular_error. apply _. Defined.

(** How many findings of a list satisfy [P]. *)
Definition count (P : Finding → Prop) `{∀ f, Decision (P f)} (l : list Finding) : nat :=
  length (filter P l).

(** When the loop of [_validate_tasks] warns about missing parameters: the
    task has an id and a non-empty operator type, and [params] is missing,
    None or empty. *)
Definition lacks_params (t : Task) : bool :=
  bool_decide (is_Some (task_id t))
  && truthy_str (get (operator_type t))
  && negb (truthy_mapping (get_or (params t) [])).

(* ================================================================== *)
(** * Vocabulary of the proofs *)

(** ** The invariant of the search *)

(** No edge leaves the set [B] and no member of [B] lies on a cycle. *)
Definition settled (graph : Graph) (B : gset string) : Prop :=
  ∀ x, x ∈ B → (∀ y, edge graph x y → y ∈ B) ∧ ¬ tc (edge graph) x x.

(** What holds when [has_cycle] is called on [node]: the node is new, the
    stack is part of the visited set, every node on the stack reaches
    [node], and the finished nodes are settled. *)
Definition pre (graph : Graph) (node : string) (st : dfs_state) : Prop :=
  (node ∉ visited st) ∧ rec_stack st ⊆ visited st ∧
  (∀ s, s ∈ rec_stack st → rtc (edge graph) s node) ∧ settled graph (finished st).

(** What the call guarantees: a cycle when it returns True; otherwise the
    stack is as before, [node] is visited and the finished nodes are
    settled. *)
Definition post (graph : Graph) (node : string) (st : dfs_state)
    (r : bool * dfs_state) : Prop :=
  if r.1 then has_cycle_in (edge graph)
  else rec_stack r.2 = rec_stack st ∧ visited st ⊆ visited r.2 ∧
       node ∈ visited r.2 ∧ settled graph (finished r.2).

Definition rec_ok (graph : Graph) (rec : string → dfs_state → outcome) : Prop :=
  ∀ node st r, rec node st = Some r → pre graph node st → post graph node st r.

Definition visited_grows (rec : string → dfs_state → outcome) : Prop :=
  ∀ node st r, rec node st = Some r → {[node]} ∪ visited st ⊆ visited r.2.

(** The nodes of the universe that are still to be visited. *)
Definition pending (graph : Graph) (st : dfs_state) : nat :=
  size (universe graph ∖ visited st).

Definition rec_total (graph : Graph) (fuel : nat)
    (rec : string → dfs_state → outcome) : Prop :=
  ∀ node st, node ∈ universe graph → node ∉ visited st → pending graph st ≤ fuel →
             is_Some (rec node st).

(** ** Classes of findings *)

(** Every path through an entry point ends in [_build_result]. *)
Definition built (c : M ValidationResult) : Prop :=
  ∀ self, ∃ st, c self = _build_result st.

Definition not_about_dag_id (f : Finding) : Prop := field f ≠ Some "dag_id".
Definition not_dependency (f : Finding) : Prop := type f ≠ "dependency".
Definition not_circular (f : Finding) : Prop := ¬ is_circular_error f.
Definition not_params (f : Finding) : Prop := type f ≠ "params".

(** The errors about dangling references that one task contributes. *)
Definition reference_errors (ids : list string) (t : Task) : list Finding :=
  match task_id t with
  | None => []
  | Some tid =>
      nonexistent_error tid <$> filter (λ dep, dep ∉ ids) (get_dependencies t)
  end.

(** ** Specifications used as examples *)

Definition example_task (tid : string) (deps : list string) : Task :=
  mk_task (Some tid) (Present "BashOperator") Absent Absent (Some deps).

Definition example_spec (ts : list Task) : Specification :=
  mk_spec (Present "test_dag") (Present "Test") (Present "@daily") Absent
    (Present ts) None None [].

(** Test 5 of test_validator.py. *)
Definition two_cycle : list Task :=
  [example_task "task1" ["task2"]; example_task "task2" ["task1"]].

(** The id a is declared twice; its second declaration has no dependency. *)
Definition redeclared : list Task :=
  [example_task "a" ["b"]; example_task "b" ["a"]; example_task "a" []].

(** The first task depends on the second and on an id nobody declares. *)
Definition dangling : list Task :=
  [example_task "load" ["extract"; "ghost"]; example_task "extract" []].

(** Three tasks in a row. *)
Definition chain : list Task :=
  [example_task "a" ["b"]; example_task "b" ["c"]; example_task "c" []].


(** A task whose mapping sits under the key parameters. *)
Definition parameters_task : Task :=
  mk_task (Some "run") (Present "BashOperator") Absent
    (Present [("bash_command", "ls")]) (Some []).

Definition empty_id_spec : Specification :=
  mk_spec (Present EmptyString) (Present "Test") (Present "@daily") Absent
    (Present [example_task "task1" []]) None None [].

(* ================================================================== *)
(** * What the patterns mean *)

(** [matches r w rest]: the pattern [r] can consume the word [w] when the
    text that follows [w] is [rest]; only [$] looks at [rest]. *)
Inductive matches : regex → string → string → Prop :=
| matches_eps rest : matches Eps EmptyString rest
| matches_chr (p : ascii → bool) c rest :
    p c = true → matches (Chr p) (String c EmptyString) rest
| matches_seq r1 r2 w1 w2 rest :
    matches r1 w1 (w2 +:+ rest) → matches r2 w2 rest →
    matches (Seq r1 r2) (w1 +:+ w2) rest
| matches_alt_l r1 r2 w rest : matches r1 w rest → matches (Alt r1 r2) w rest
| matches_alt_r r1 r2 w rest : matches r2 w rest → matches (Alt r1 r2) w rest
| matches_star_nil r rest : matches (Star r) EmptyString rest
| matches_star_cons r w1 w2 rest :
    matches r w1 (w2 +:+ rest) → matches (Star r) w2 rest →
    matches (Star r) (w1 +:+ w2) rest
| matches_dollar rest : at_dollar rest = true → matches Dollar EmptyString rest.

(** Some prefix of the text matches the pattern. *)
Definition prefix_matches (r : regex) (s : string) : Prop :=
  ∃ w rest, s = w +:+ rest ∧ matches r w rest.

Fixpoint all_chars (p : ascii → bool) (s : string) : bool :=
  match s with
  | EmptyString => true
  | String c s' => p c && all_chars p s'
  end.

(** The text without the newline that ends it, if one does. *)
Fixpoint chomp (s : string) : string :=
  match s with
  | EmptyString => EmptyString
  | String c EmptyString => if bool_decide (code c = 10) then EmptyString else s
  | String c s' => String c (chomp s')
  end.

(** One or more letters, digits, underscores and hyphens, and possibly a
    newline after them. *)
Definition is_identifier (s : string) : bool :=
  match chomp s with
  | EmptyString => false
  | w => all_chars id_char w
  end.

(* ================================================================== *)
(** * Days of the calendar

    The dates the specification has in mind for the start date, YYYY-MM-DD,
    written down without the parser. *)







(* ================================================================== *)
(** * Specifications without defect *)

(** A check that appends no error. *)
Definition quiet (m : M unit) : Prop := self_errors (out m) = [].

(** What the loop of [_validate_tasks] asks of a task by itself. *)
Definition task_fields_ok (t : Task) : Prop :=
  (∃ tid, task_id t = Some tid ∧ is_identifier tid = true)
  ∧ truthy_str (get (operator_type t)) = true.

(** A task has an id that is an identifier and a non-empty operator type,
    and each of its dependencies is the id of a task in [ts]. *)
Definition sound_task (ts : list Task) (t : Task) : Prop :=
  (∃ tid, task_id t = Some tid ∧ is_identifier tid = true)
  ∧ truthy_str (get (operator_type t)) = true
  ∧ Forall (λ dep, dep ∈ omap task_id ts) (get_dependencies t).

(** The tasks are sound, no id is used twice and the declared dependencies
    form no cycle. *)
Definition sound_tasks (ts : list Task) : Prop :=
  ts ≠ [] ∧ Forall (sound_task ts) ts ∧ NoDup (omap task_id ts)
  ∧ ¬ has_cycle_in (declared_edge ts).

Definition sound_connection (c : Connection) : Prop :=
  is_Some (conn_id c) ∧ is_Some (conn_type c).

(** What [validate_structure] asks of a specification. *)
Record well_formed (spec : Specification) : Prop := mk_well_formed {
  wf_dag_id :
    ∃ s, dag_id spec = Present s
         ∧ (s = EmptyString ∨ (is_identifier s = true ∧ String.length s ≤ 100));
  wf_description : ∃ d, description spec = Present d;
  wf_start_date :
    ∀ s, start_date spec = Present s → s = EmptyString ∨ is_Some (fromisoformat s);
  wf_tasks : ∃ ts, tasks spec = Present ts ∧ sound_tasks ts;
  wf_connections :
    Forall sound_connection (default [] (connections spec))
    ∧ NoDup (omap conn_id (default [] (connections spec)));
  wf_variables : Forall (λ v, is_Some (key v)) (default [] (variables spec))
}.

(* ================================================================== *)
(** * Kinds of findings *)

(** A finding of kind [ty] on the field [fld]. *)
Definition is_finding (ty fld : string) (f : Finding) : Prop :=
  type f = ty ∧ field f = Some fld.

Global Instance is_finding_dec ty fld f : Decision (is_finding ty fld f).
Proof. unfold is_finding. apply _. Defined.

Definition has_type (ty : string) (f : Finding) : Prop := type f = ty.

Global Instance has_type_dec ty f : Decision (has_type ty f).
Proof. unfold has_type. apply _. Defined.

(** A finding on one of the three fields the loop of [_validate_tasks]
    names for the task at index [i]. *)
Definition about_task (i : nat) (f : Finding) : Prop :=
  field f ∈ [Some (indexed "tasks" i "task_id");
             Some (indexed "tasks" i "operator_type");
             Some (indexed "tasks" i "params")].

Global Instance about_task_dec i f : Decision (about_task i f).
Proof. unfold about_task. apply _. Defined.

(** The three signals [_check_dag_structure] looks for, read off the list
    of nodes. *)
Definition imports_airflow (node : ast_node) : bool :=
  match node with
  | ImportFrom (Some module) _ => contains "airflow" module
  | _ => false
  end.

Definition brings_dag (node : ast_node) : bool :=
  match node with
  | ImportFrom (Some module) names =>
      contains "airflow" module && bool_decide ("DAG" ∈ names)
  | Call (Some id) => bool_decide (id = "DAG")
  | _ => false
  end.

Definition uses_operator (node : ast_node) : bool :=
  match node with
  | Call (Some id) => contains "Operator" id || contains "Sensor" id
  | _ => false
  end.

Definition structure_warning (msg : string) : Finding :=
  mk_finding "structure" None None msg None.

(** The warnings of the scan for a list of nodes. *)
Definition scan_warnings (walk : list ast_node) : list Finding :=
  (if existsb imports_airflow walk then []
   else [structure_warning
           "No Airflow imports detected. Ensure you import from airflow modules."])
  ++ (if existsb brings_dag walk then []
      else [structure_warning
              "No DAG definition found. A DAG object must be instantiated."])
  ++ (if existsb uses_operator walk then []
      else [structure_warning
              "No task operators detected. DAG should contain at least one task."]).

(** A finding on the field [fld], of whatever kind. *)
Definition about_field (fld : string) (f : Finding) : Prop := field f = Some fld.

Global Instance about_field_dec fld f : Decision (about_field fld f).
Proof. unfold about_field. apply _. Defined.

(** How many errors the loop of [_validate_tasks] reports on the fields of
    one task: one for a missing id and nothing else, or one for an id that
    is no identifier and one for a missing or empty operator type. *)
Definition task_error_count (t : Task) : nat :=
  match task_id t with
  | None => 1
  | Some tid =>
      (if is_identifier tid then 0 else 1)
      + (if truthy_str (get (operator_type t)) then 0 else 1)
  end.

(** How many warnings it reports on them: none without an id, else one for
    an operator type that is not in the list and one for missing
    parameters. *)
Definition task_warning_count (t : Task) : nat :=
  match task_id t with
  | None => 0
  | Some _ =>
      (if truthy_str (get (operator_type t))
          && bool_decide (default EmptyString (get (operator_type t)) ∉ VALID_OPERATORS)
       then 1 else 0)
      + (if lacks_params t then 1 else 0)
  end.

(* ================================================================== *)
(** * The endpoint /validate/dag *)

(** [validate_dag] of app.py.  The body of the request is taken as
    [request.get_json()] returns it; the model covers the bodies that are
    null or JSON objects with a string (or null, or nothing) under dag_code
    and an object of the shape of [Specification] (or null, or nothing)
    under dag_spec.  On an object of another shape the handler or the
    validator raises, and the handler answers 500. *)
Module App.

(** The two keys the handler reads, and the names of the other keys. *)
Record Request := mk_request {
  dag_code : entry string;
  dag_spec : entry Specification;
  more_keys : list string
}.

(** [not data] for an object: it has no key. *)
Definition empty_body (data : Request) : bool :=
  absent (dag_code data) && absent (dag_spec data) && bool_decide (more_keys data = []).

Record Details := mk_details {
  syntax_validation : option ValidationResult;
  structure_validation : option ValidationResult
}.

Inductive Body : Type :=
| Failure (error : string)
| Verdict (is_valid : bool) (all_errors all_warnings : list Finding) (results : Details).

(** What [jsonify(...), status_code] returns. *)
Record Response := mk_response {
  body : Body;
  status_code : nat
}.

(** [results[key].get('errors', [])] under [if results[key]]: a result is
    a dict with three keys, hence true. *)
Definition errors_of (result : option ValidationResult) : list Finding :=
  match result with
  | Some result => errors result
  | None => []
  end.

Definition warnings_of (result : option ValidationResult) : list Finding :=
  match result with
  | Some result => warnings result
  | None => []
  end.

Definition no_data : Response := mk_response (Failure "No data provided") 400.

(** [data] is [None] when the body is null. *)
Definition validate_dag (ast_parse : string → parse_outcome) (data : option Request)
  : Response :=
  match data with
  | None => no_data
  | Some data =>
      if empty_body data then no_data
      else
        let dag_code := get (dag_code data) in
        let dag_spec := get (dag_spec data) in
        if negb (truthy_str dag_code) && falsy_spec dag_spec then
          mk_response (Failure "Either dag_code or dag_spec must be provided") 400
        else
          let validator := init in
          let '(syntax_validation, validator) :=
            if truthy_str dag_code then
              let '(syntax_result, validator) :=
                validate_syntax ast_parse (default EmptyString dag_code) validator in
              (Some syntax_result, validator)
            else (None, validator) in
          let '(structure_validation, validator) :=
            if negb (falsy_spec dag_spec) then
              let '(structure_result, validator) := validate_structure dag_spec validator in
              (Some structure_result, validator)
            else (None, validator) in
          let all_errors := errors_of syntax_validation ++ errors_of structure_validation in
          let all_warnings :=
            warnings_of syntax_validation ++ warnings_of structure_validation in
          let is_valid := bool_decide (length all_errors = 0) in
          mk_response
            (Verdict is_valid all_errors all_warnings
               (mk_details syntax_validation structure_validation))
            (if is_valid then 200 else 422)
  end.

(** The code and the specification the handler passes to the validator:
    those that are there and true. *)
Definition submitted_code (data : Request) : option string :=
  match dag_code data with
  | Present (String c s) => Some (String c s)
  | _ => None
  end.

Definition submitted_spec (data : Request) : option Specification :=
  match dag_spec data with
  | Present spec => if is_empty_dict spec then None else Some spec
  | _ => None
  end.

(** The errors and the warnings of a response; an error body has none. *)
Definition response_errors (r : Response) : list Finding :=
  match body r with
  | Verdict _ all_errors _ _ => all_errors
  | Failure _ => []
  end.

Definition response_warnings (r : Response) : list Finding :=
  match body r with
  | Verdict _ _ all_warnings _ => all_warnings
  | Failure _ => []
  end.

End App.

(* ================================================================== *)
(** * The recursion limit

    [has_cycle] calls itself once for every node of the path it follows, and
    the interpreter raises RecursionError when the calls nest deeper than
    its recursion limit allows.  No method catches the exception, so
    [_has_circular_dependencies], [_validate_dependencies] and
    [validate_structure] do not return then; the handler of the endpoint
    catches it and answers 500.  The definitions above give what these
    methods return when the search stays within the limit.  The definitions
    of this module take the limit into account: [depth] is the number of
    calls of [has_cycle] that may nest, the fuel of [has_cycle], and [None]
    stands for RecursionError. *)
Module Recursion.

Definition search (depth : nat) (graph : Graph) : outcome :=
  roots (has_cycle depth graph) (dict_keys graph) (mk_dfs ∅ ∅).

Definition _has_circular_dependencies (depth : nat) (tasks : list Task) : option bool :=
  fst <$> search depth (build_graph tasks).

Definition _validate_dependencies (depth : nat) (tasks : option (list Task))
  : M (option unit) :=
  if negb (truthy_list tasks) then mret (Some tt)
  else
    let tasks := default [] tasks in
    let task_ids := task_id_set tasks in
    for_each tasks (check_references task_ids) ;;
    match _has_circular_dependencies depth tasks with
    | None => mret None
    | Some circular =>
        when circular (add_error circular_error) ;;
        mret (Some tt)
    end.

Definition validate_structure (depth : nat) (dag_spec : option Specification)
  : M (option ValidationResult) :=
  reset ;;
  if falsy_spec dag_spec then
    add_error root_error ;;
    result ← _build_result;
    mret (Some result)
  else
    let spec := default empty_spec dag_spec in
    _validate_required_fields spec ;;
    _validate_dag_id (get (dag_id spec)) ;;
    _validate_schedule (get (schedule spec)) ;;
    _validate_start_date (get (start_date spec)) ;;
    _validate_tasks (get_or (tasks spec) []) ;;
    _validate_connections (default [] (connections spec)) ;;
    _validate_variables (default [] (variables spec)) ;;
    returned ← _validate_dependencies depth (get_or (tasks spec) []);
    match returned with
    | None => mret None
    | Some _ =>
        result ← _build_result;
        mret (Some result)
    end.

(** [except Exception]; the text of the exception, which the handler puts
    under details, is left out. *)
Definition internal_error : App.Response :=
  App.mk_response (App.Failure "Internal validation error") 500.

(** The end of the handler, from the comment Combine results on. *)
Definition combine (syntax_validation structure_validation : option ValidationResult)
  : App.Response :=
  let all_errors :=
    App.errors_of syntax_validation ++ App.errors_of structure_validation in
  let all_warnings :=
    App.warnings_of syntax_validation ++ App.warnings_of structure_validation in
  let is_valid := bool_decide (length all_errors = 0) in
  App.mk_response
    (App.Verdict is_valid all_errors all_warnings
       (App.mk_details syntax_validation structure_validation))
    (if is_valid then 200 else 422).

Definition validate_dag (depth : nat) (ast_parse : string → parse_outcome)
    (data : option App.Request) : App.Response :=
  match data with
  | None => App.no_data
  | Some data =>
      if App.empty_body data then App.no_data
      else
        let dag_code := get (App.dag_code data) in
        let dag_spec := get (App.dag_spec data) in
        if negb (truthy_str dag_code) && falsy_spec dag_spec then
          App.mk_response
            (App.Failure "Either dag_code or dag_spec must be provided") 400
        else
          let validator := init in
          let '(syntax_validation, validator) :=
            if truthy_str dag_code then
              let '(syntax_result, validator) :=
                validate_syntax ast_parse (default EmptyString dag_code) validator in
              (Some syntax_result, validator)
            else (None, validator) in
          if negb (falsy_spec dag_spec) then
            match validate_structure depth dag_spec validator with
            | (Some structure_result, _) =>
                combine syntax_validation (Some structure_result)
            | (None, _) => internal_error
            end
          else combine syntax_validation None
  end.

End Recursion.

(* ================================================================== *)
(** * Properties *)

#[local] Set Warnings "-clear-no-such-hyp".

(** ** The depth-first search *)

Lemma tc_first {A} (R : relation A) x z : tc R x z → ∃ y, R x y ∧ rtc R y z.
Proof.
  destruct 1 as [x z H|x y z H Hyz]; [by exists z|].
  exists y. split; [done|]. by apply tc_rtc.
Qed.

Section Search.
Variable graph : Graph.

Lemma settled_rtc B x y : settled graph B → x ∈ B → rtc (edge graph) x y → y ∈ B.
Proof.
  intros HB Hx Hxy. induction Hxy as [|x y z Hxy _ IH]; [done|].
  apply IH. by apply (HB x).
Qed.

Lemma settled_add B u :
  settled graph B → u ∉ B → (∀ y, edge graph u y → y ∈ B) → settled graph ({[u]} ∪ B).
Proof.
  intros HB Hu Hsucc x Hx.
  destruct (decide (x = u)) as [->|Hne].
  - split; [set_solver|].
    intros Hcyc. apply Hu.
    destruct (tc_first _ _ _ Hcyc) as (y & Huy & Hyu).
    eapply settled_rtc; eauto.
  - assert (x ∈ B) as HxB by set_solver.
    destruct (HB x HxB) as [Hcl Hno]. split; [|done].
    intros y Hy. set_solver.
Qed.

Lemma scan_spec rec u : rec_ok graph rec →
  ∀ ns st r, scan rec ns st = Some r →
    u ∈ rec_stack st → rec_stack st ⊆ visited st →
    (∀ s, s ∈ rec_stack st → rtc (edge graph) s u) →
    (∀ n, n ∈ ns → edge graph u n) →
    settled graph (finished st) →
    if r.1 then has_cycle_in (edge graph)
    else rec_stack r.2 = rec_stack st ∧ visited st ⊆ visited r.2 ∧
         (∀ n, n ∈ ns → n ∈ finished r.2) ∧ settled graph (finished r.2).
Proof.
  intros Hrec ns. induction ns as [|n ns IH]; intros st r Hscan Hu Hsub Hpath Hedges Hset.
  - simpl in Hscan. injection Hscan as <-. simpl. split_and!; [done|done|set_solver|done].
  - simpl in Hscan. destruct (decide (n ∉ visited st)) as [Hfresh|Hseen].
    + destruct (rec n st) as [[[] st1]|] eqn:Hcall; [| |done].
      * injection Hscan as <-.
        apply (Hrec n st (true, st1) Hcall).
        split_and!; try done.
        intros s Hs. eapply rtc_r; [by apply Hpath|]. apply Hedges. set_solver.
      * assert (post graph n st (false, st1)) as (Hstk & Hvis & Hn & Hset1).
        { apply (Hrec n st _ Hcall). split_and!; try done.
          intros s Hs. eapply rtc_r; [by apply Hpath|]. apply Hedges. set_solver. }
        simpl in Hstk, Hvis, Hn, Hset1.
        specialize (IH st1 r Hscan).
        destruct r as [[] st2]; simpl in *.
        { apply IH; rewrite ?Hstk; try done; set_solver. }
        destruct IH as (Hstk2 & Hvis2 & Hfin2 & Hset2); rewrite ?Hstk; try done; [set_solver..|].
        split_and!; [congruence|set_solver| |done].
        intros m Hm. apply elem_of_cons in Hm as [->|Hm]; [|by apply Hfin2].
        unfold finished. rewrite Hstk2, Hstk. set_solver.
    + destruct (decide (n ∈ rec_stack st)) as [Hstack|Hdone].
      * injection Hscan as <-. exists n.
        eapply tc_rtc_l; [by apply Hpath|]. apply tc_once, Hedges. set_solver.
      * specialize (IH st r Hscan Hu Hsub Hpath).
        destruct r as [[] st2]; simpl in *; [apply IH; [set_solver|done]|].
        destruct IH as (Hstk2 & Hvis2 & Hfin2 & Hset2); [set_solver|done|].
        split_and!; try done.
        intros m Hm. apply elem_of_cons in Hm as [->|Hm]; [|by apply Hfin2].
        unfold finished. rewrite Hstk2. apply dec_stable in Hseen. set_solver.
Qed.

Lemma has_cycle_spec fuel : rec_ok graph (has_cycle fuel graph).
Proof.
  induction fuel as [|fuel IH]; intros node st r Hcall (Hfresh & Hsub & Hpath & Hset); [done|].
  simpl in Hcall.
  set (st1 := mk_dfs ({[node]} ∪ visited st) ({[node]} ∪ rec_stack st)) in *.
  destruct (scan _ _ st1) as [[b st2]|] eqn:Hscan; [|done].
  assert (finished st1 = finished st) as Hfin1.
  { unfold finished, st1. simpl. set_solver. }
  pose proof (scan_spec _ node IH _ _ _ Hscan) as Hspec.
  destruct b.
  - injection Hcall as <-. apply Hspec; simpl; [set_solver|set_solver| | |by rewrite Hfin1].
    + intros s Hs. apply elem_of_union in Hs as [Hs|Hs]; [|by apply Hpath].
      apply elem_of_singleton in Hs as ->. done.
    + done.
  - injection Hcall as <-.
    destruct Hspec as (Hstk & Hvis & Hsucc & Hset2); simpl; [set_solver|set_solver| | |by rewrite Hfin1|].
    + intros s Hs. apply elem_of_union in Hs as [Hs|Hs]; [|by apply Hpath].
      apply elem_of_singleton in Hs as ->. done.
    + done.
    + simpl in *. unfold post. simpl.
      assert (node ∉ rec_stack st) by set_solver.
      split; [rewrite Hstk; set_solver|]. split; [set_solver|]. split; [set_solver|].
      assert (finished (mk_dfs (visited st2) (rec_stack st2 ∖ {[node]}))
              = {[node]} ∪ finished st2) as ->.
      { unfold finished. simpl. rewrite Hstk. apply set_eq. intros x.
        destruct (decide (x = node)); set_solver. }
      apply settled_add; [done| |done].
      unfold finished. rewrite Hstk. set_solver.
Qed.

(** The top-level loop, started with an empty stack. *)
Lemma roots_spec rec : rec_ok graph rec →
  ∀ nodes st r, roots rec nodes st = Some r →
    rec_stack st = ∅ → settled graph (finished st) →
    if r.1 then has_cycle_in (edge graph)
    else rec_stack r.2 = ∅ ∧ visited st ⊆ visited r.2 ∧
         (∀ n, n ∈ nodes → n ∈ visited r.2) ∧ settled graph (finished r.2).
Proof.
  intros Hrec nodes. induction nodes as [|n nodes IH]; intros st r Hroots Hstk Hset.
  - injection Hroots as <-. simpl. split_and!; [done|done|set_solver|done].
  - simpl in Hroots. destruct (decide (n ∉ visited st)) as [Hfresh|Hseen].
    + destruct (rec n st) as [[[] st1]|] eqn:Hcall; [| |done].
      * injection Hroots as <-. apply (Hrec n st (true, st1) Hcall).
        split_and!; [done|set_solver|set_solver|done].
      * assert (post graph n st (false, st1)) as (Hstk1 & Hvis & Hn & Hset1).
        { apply (Hrec n st _ Hcall). split_and!; [done|set_solver|set_solver|done]. }
        simpl in Hstk1, Hvis, Hn, Hset1.
        specialize (IH st1 r Hroots).
        destruct r as [[] st2]; simpl in *; [apply IH; [congruence|done]|].
        destruct IH as (Hstk2 & Hvis2 & Hall & Hset2); [congruence|done|].
        split_and!; [done|set_solver| |done].
        intros m Hm. apply elem_of_cons in Hm as [->|Hm]; [set_solver|by apply Hall].
    + specialize (IH st r Hroots Hstk Hset).
      destruct r as [[] st2]; simpl in *; [done|].
      destruct IH as (Hstk2 & Hvis2 & Hall & Hset2).
      split_and!; [done..| |done].
      intros m Hm. apply elem_of_cons in Hm as [->|Hm]; [|by apply Hall].
      apply dec_stable in Hseen. set_solver.
Qed.

Lemma edge_source_is_key u v : edge graph u v → u ∈ dict_keys graph.
Proof.
  unfold edge, successors, dict_keys. induction graph as [|[k l] g IH]; simpl.
  - by intros ?%elem_of_nil.
  - destruct (decide (k = u)) as [->|]; [set_solver|]. intros H. set_solver.
Qed.

(** The search answers True exactly when its graph has a cycle. *)
Lemma search_correct r : search graph = Some r → r.1 = true ↔ has_cycle_in (edge graph).
Proof.
  intros Hsearch. unfold search in Hsearch.
  pose proof (roots_spec _ (has_cycle_spec _) _ _ _ Hsearch) as Hspec.
  simpl in Hspec. destruct r as [[] st]; simpl in *.
  - split; [intros _|done]. apply Hspec; [done|]. intros x Hx. set_solver.
  - split; [done|]. intros [u Hu].
    destruct Hspec as (Hstk & _ & Hall & Hset); [done|intros x Hx; set_solver|].
    destruct (tc_first _ _ _ Hu) as (y & Huy & _).
    apply edge_source_is_key, Hall in Huy.
    destruct (Hset u) as [_ Hno]; [|done].
    unfold finished. rewrite Hstk. set_solver.
Qed.

(** ** Enough fuel *)

Lemma scan_visited rec : visited_grows rec →
  ∀ ns st r, scan rec ns st = Some r → visited st ⊆ visited r.2.
Proof.
  intros Hrec ns. induction ns as [|n ns IH]; intros st r Hscan; simpl in Hscan.
  - by injection Hscan as <-.
  - destruct (decide (n ∉ visited st)).
    + destruct (rec n st) as [[[] st1]|] eqn:Hcall; [| |done].
      * injection Hscan as <-. apply Hrec in Hcall. set_solver.
      * apply Hrec in Hcall. apply IH in Hscan. set_solver.
    + destruct (decide (n ∈ rec_stack st)); [by injection Hscan as <-|by apply IH].
Qed.

Lemma has_cycle_visited fuel : visited_grows (has_cycle fuel graph).
Proof.
  induction fuel as [|fuel IH]; intros node st r Hcall; [done|].
  simpl in Hcall.
  destruct (scan _ _ _) as [[[] st2]|] eqn:Hscan; [| |done];
    injection Hcall as <-; apply (scan_visited _ IH) in Hscan; set_solver.
Qed.

Lemma roots_visited rec : visited_grows rec →
  ∀ ns st r, roots rec ns st = Some r → visited st ⊆ visited r.2.
Proof.
  intros Hrec ns. induction ns as [|n ns IH]; intros st r Hroots; simpl in Hroots.
  - by injection Hroots as <-.
  - destruct (decide (n ∉ visited st)); [|by apply IH].
    destruct (rec n st) as [[[] st1]|] eqn:Hcall; [| |done].
    + injection Hroots as <-. apply Hrec in Hcall. set_solver.
    + apply Hrec in Hcall. apply IH in Hroots. set_solver.
Qed.

Lemma edge_in_universe u v : edge graph u v → v ∈ universe graph.
Proof.
  unfold edge, successors, universe. intros H.
  apply elem_of_union_r, elem_of_list_to_set.
  induction graph as [|[k l] g IH]; simpl in *; [by apply elem_of_nil in H|].
  apply elem_of_app. destruct (decide (k = u)); [by left|right; by apply IH].
Qed.

Lemma pending_visit node st st' :
  node ∈ universe graph → node ∉ visited st → {[node]} ∪ visited st ⊆ visited st' →
  pending graph st' < pending graph st.
Proof.
  intros Hin Hfresh Hsub. unfold pending. apply subset_size. set_solver.
Qed.

Lemma pending_mono st st' : visited st ⊆ visited st' → pending graph st' ≤ pending graph st.
Proof. intros Hsub. unfold pending. apply subseteq_size. set_solver. Qed.

Lemma scan_total fuel rec : rec_total graph fuel rec → visited_grows rec →
  ∀ ns st, (∀ n, n ∈ ns → n ∈ universe graph) → pending graph st ≤ fuel →
           is_Some (scan rec ns st).
Proof.
  intros Htot Hgrow ns. induction ns as [|n ns IH]; intros st Hns Hfuel; simpl; [done|].
  destruct (decide (n ∉ visited st)) as [Hfresh|].
  - destruct (Htot n st) as [[[] st1] Hcall]; [set_solver|done|done| |]; rewrite Hcall; [done|].
    apply IH; [set_solver|]. apply Hgrow in Hcall.
    etrans; [apply pending_mono|done]. set_solver.
  - destruct (decide (n ∈ rec_stack st)); [done|]. apply IH; [set_solver|done].
Qed.

Lemma has_cycle_total fuel : rec_total graph fuel (has_cycle fuel graph).
Proof.
  induction fuel as [|fuel IH]; intros node st Hin Hfresh Hfuel.
  - exfalso.
    assert (pending graph (mk_dfs ({[node]} ∪ visited st) ∅) < pending graph st)
      by (by apply (pending_visit node)).
    lia.
  - simpl.
    set (st1 := mk_dfs ({[node]} ∪ visited st) ({[node]} ∪ rec_stack st)).
    destruct (scan_total fuel _ IH (has_cycle_visited fuel)
                (default [] (dict_get graph node)) st1) as [[[] st2] Hscan].
    + intros n Hn. by eapply edge_in_universe.
    + assert (pending graph st1 < pending graph st) by (by apply (pending_visit node)).
      lia.
    + by rewrite Hscan.
    + by rewrite Hscan.
Qed.

Lemma roots_total fuel rec : rec_total graph fuel rec → visited_grows rec →
  ∀ ns st, (∀ n, n ∈ ns → n ∈ universe graph) → pending graph st ≤ fuel →
           is_Some (roots rec ns st).
Proof.
  intros Htot Hgrow ns. induction ns as [|n ns IH]; intros st Hns Hfuel; simpl; [done|].
  destruct (decide (n ∉ visited st)) as [Hfresh|]; [|apply IH; [set_solver|done]].
  destruct (Htot n st) as [[[] st1] Hcall]; [set_solver|done|done| |]; rewrite Hcall; [done|].
  apply IH; [set_solver|]. apply Hgrow in Hcall.
  etrans; [apply pending_mono|done]. set_solver.
Qed.

(** The search never runs out of fuel. *)
Lemma search_total : is_Some (search graph).
Proof.
  unfold search. apply (roots_total (size (universe graph))).
  - apply has_cycle_total.
  - apply has_cycle_visited.
  - intros n Hn. unfold universe. set_solver.
  - unfold pending. apply subseteq_size. set_solver.
Qed.
End Search.

(** ** Checks only append *)

Lemma extend_init_l st : extend init st = st.
Proof. by destruct st. Qed.

Lemma extend_init_r st : extend st init = st.
Proof. destruct st. unfold extend. simpl. by rewrite !app_nil_r. Qed.

Lemma extend_assoc a b c : extend (extend a b) c = extend a (extend b c).
Proof. unfold extend. simpl. by rewrite !app_assoc. Qed.

(** A framed check followed by anything. *)
Lemma framed_then {A} (m : M unit) (k : M A) self :
  Framed m → (m ;; k) self = k (extend self (out m)).
Proof. intros Hm. unfold mbind, M_bind. by rewrite (framed (m := m)). Qed.

Lemma out_then (m k : M unit) :
  Framed m → Framed k → out (m ;; k) = extend (out m) (out k).
Proof.
  intros Hm Hk. unfold out at 1. rewrite framed_then by done.
  rewrite (framed (m := k)). simpl. by rewrite extend_init_l.
Qed.

Global Instance framed_ret : Framed (mret tt).
Proof. intros self. by rewrite extend_init_r. Qed.

Global Instance framed_add_error f : Framed (add_error f).
Proof. intros [es ws]. unfold add_error, extend, out. simpl. by rewrite app_nil_r. Qed.

Global Instance framed_add_warning f : Framed (add_warning f).
Proof. intros [es ws]. unfold add_warning, extend, out. simpl. by rewrite app_nil_r. Qed.

Global Instance framed_bind (m k : M unit) : Framed m → Framed k → Framed (m ;; k).
Proof.
  intros Hm Hk self. rewrite out_then, <-extend_assoc by done.
  rewrite framed_then by done. apply Hk.
Qed.

Global Instance framed_when b m : Framed m → Framed (when b m).
Proof. destruct b; simpl; apply _. Qed.

Global Instance framed_if (b : bool) (m1 m2 : M unit) :
  Framed m1 → Framed m2 → Framed (if b then m1 else m2).
Proof. by destruct b. Qed.

Global Instance framed_for_each {A} (l : list A) body :
  (∀ x, Framed (body x)) → Framed (for_each l body).
Proof. intros Hbody. induction l; simpl; apply _. Qed.

Global Instance framed_required_fields spec : Framed (_validate_required_fields spec).
Proof. unfold _validate_required_fields. apply framed_for_each. intros [fld missing]. apply _. Qed.

Global Instance framed_dag_id o : Framed (_validate_dag_id o).
Proof. unfold _validate_dag_id. apply _. Qed.

Global Instance framed_schedule o : Framed (_validate_schedule o).
Proof. unfold _validate_schedule. destruct o; apply _. Qed.

Global Instance framed_start_date o : Framed (_validate_start_date o).
Proof. unfold _validate_start_date. destruct (fromisoformat _); apply _. Qed.

Global Instance framed_tasks_loop i ts ids : Framed (tasks_loop i ts ids).
Proof.
  revert i ids. induction ts as [|t ts IH]; intros i ids; simpl; [apply _|].
  destruct (task_id t); apply _.
Qed.

Global Instance framed_tasks o : Framed (_validate_tasks o).
Proof. unfold _validate_tasks. apply _. Qed.

Global Instance framed_connections_loop i cs ids : Framed (connections_loop i cs ids).
Proof.
  revert i ids. induction cs as [|c cs IH]; intros i ids; simpl; [apply _|].
  destruct (conn_id c); apply _.
Qed.

Global Instance framed_connections cs : Framed (_validate_connections cs).
Proof. unfold _validate_connections. apply _. Qed.

Global Instance framed_variables_loop i vs ks : Framed (variables_loop i vs ks).
Proof.
  revert i ks. induction vs as [|v vs IH]; intros i ks; simpl; [apply _|].
  destruct (key v); apply _.
Qed.

Global Instance framed_variables vs : Framed (_validate_variables vs).
Proof. unfold _validate_variables. apply _. Qed.

Global Instance framed_check_references ids t : Framed (check_references ids t).
Proof. unfold check_references. destruct (task_id t); apply _. Qed.

Global Instance framed_dependencies o : Framed (_validate_dependencies o).
Proof. unfold _validate_dependencies. apply _. Qed.

(** ** The entry points *)

Lemma validate_structure_run dag_spec self :
  falsy_spec dag_spec = false →
  validate_structure dag_spec self =
  _build_result (foldl (λ st m, extend st (out m)) init
                   (structure_checks (default empty_spec dag_spec))).
Proof.
  intros Hfalsy. unfold validate_structure.
  change ((reset ;; ?k) self) with (k init). rewrite Hfalsy.
  by rewrite !framed_then by apply _.
Qed.

Lemma foldl_extend_errors st ms :
  self_errors (foldl (λ st m, extend st (out m)) st ms)
  = self_errors st ++ mjoin ((λ m, self_errors (out m)) <$> ms).
Proof.
  revert st. induction ms as [|m ms IH]; intros st; simpl; [by rewrite app_nil_r|].
  by rewrite IH, app_assoc.
Qed.

Lemma foldl_extend_warnings st ms :
  self_warnings (foldl (λ st m, extend st (out m)) st ms)
  = self_warnings st ++ mjoin ((λ m, self_warnings (out m)) <$> ms).
Proof.
  revert st. induction ms as [|m ms IH]; intros st; simpl; [by rewrite app_nil_r|].
  by rewrite IH, app_assoc.
Qed.

Lemma validate_structure_fresh dag_spec self :
  validate_structure dag_spec self = validate_structure dag_spec init.
Proof. reflexivity. Qed.

Lemma validate_syntax_fresh ast_parse dag_code self :
  validate_syntax ast_parse dag_code self = validate_syntax ast_parse dag_code init.
Proof. reflexivity. Qed.

Lemma whitespace_only_lstrip s : whitespace_only s = true → lstrip s = EmptyString.
Proof.
  induction s as [|c s IH]; simpl; [done|].
  destruct (is_space c); simpl; [done|discriminate].
Qed.

Lemma whitespace_only_strip s : whitespace_only s = true → strip s = EmptyString.
Proof. intros H. unfold strip. by rewrite whitespace_only_lstrip. Qed.

Lemma build_result_valid st :
  valid (_build_result st).1 = true ↔ errors (_build_result st).1 = [].
Proof.
  simpl. rewrite bool_decide_eq_true. apply length_zero_iff_nil.
Qed.

Lemma built_result : built _build_result.
Proof. intros self. by exists self. Qed.

Lemma built_then (m : M unit) (c : M ValidationResult) : built c → built (m ;; c).
Proof.
  intros Hc self. unfold mbind, M_bind. destruct (m self) as [[] st]. apply Hc.
Qed.

Lemma built_validate_structure dag_spec : built (validate_structure dag_spec).
Proof.
  unfold validate_structure. apply built_then.
  destruct (falsy_spec dag_spec); repeat apply built_then; apply built_result.
Qed.

Lemma built_validate_syntax ast_parse dag_code : built (validate_syntax ast_parse dag_code).
Proof.
  unfold validate_syntax. apply built_then.
  destruct (_ || _); [|destruct (ast_parse dag_code)];
    repeat apply built_then; apply built_result.
Qed.

(** C4.  Whatever [validate_syntax] and [validate_structure] are given, and
    whatever the instance held before, the flag [valid] of the result is
    true exactly when its list of errors is empty.  The warnings play no
    part: a result without errors is valid however many warnings it has. *)
Theorem valid_iff_no_errors :
  (∀ ast_parse dag_code self,
     let r := (validate_syntax ast_parse dag_code self).1 in
     valid r = true ↔ errors r = [])
  ∧ (∀ dag_spec self,
       let r := (validate_structure dag_spec self).1 in
       valid r = true ↔ errors r = []).
Proof.
  split.
  - intros ast_parse dag_code self.
    destruct (built_validate_syntax ast_parse dag_code self) as [st ->].
    apply build_result_valid.
  - intros dag_spec self.
    destruct (built_validate_structure dag_spec self) as [st ->].
    apply build_result_valid.
Qed.

(** C5.  On source text that is empty or holds white space only,
    [validate_syntax] returns an invalid result with the single error of
    kind syntax at line 0 and no warning, whatever the parser would have
    answered: neither the parser nor the scan of the tree runs. *)
Theorem empty_source_short_circuits ast_parse dag_code self :
  whitespace_only dag_code = true →
  (validate_syntax ast_parse dag_code self).1
  = mk_result false [line_finding "syntax" 0 "DAG code is empty"] [].
Proof.
  intros Hws. rewrite validate_syntax_fresh. unfold validate_syntax.
  change ((reset ;; ?k) init) with (k init).
  rewrite (whitespace_only_strip _ Hws). simpl.
  by rewrite orb_true_r.
Qed.

Lemma empty_source_short_circuits_witness :
  whitespace_only (String " " (String "010" (String "009" EmptyString))) = true
  ∧ (validate_syntax (λ _, Parsed [])
       (String " " (String "010" (String "009" EmptyString))) init).1
    = mk_result false [line_finding "syntax" 0 "DAG code is empty"] [].
Proof.
  split; [reflexivity|].
  apply (empty_source_short_circuits (λ _, Parsed [])
           (String " " (String "010" (String "009" EmptyString))) init).
  reflexivity.
Defined.

(** C6.  On None and on the empty dict [validate_structure] returns at
    once: the result is not valid and holds one error, of kind structure on
    the field root, and no warning. *)
Theorem empty_specification_root_error self :
  (validate_structure None self).1
  = mk_result false
      [mk_finding "structure" (Some "root") None "DAG specification is empty" None] []
  ∧ (validate_structure (Some empty_spec) self).1
    = mk_result false
        [mk_finding "structure" (Some "root") None "DAG specification is empty" None] [].
Proof. split; reflexivity. Qed.

(** C8.  Two calls of [validate_structure] on the same specification give
    the same result, whatever the instance held before the first call and
    whatever calls were made on it between the two: each call starts by
    emptying both lists. *)
Theorem validate_structure_stateless ast_parse dag_spec calls self :
  let '(r1, self1) := validate_structure dag_spec self in
  let self2 := run_calls ast_parse calls self1 in
  (validate_structure dag_spec self2).1 = r1.
Proof.
  destruct (validate_structure dag_spec self) as [r1 self1] eqn:Hfirst.
  simpl. rewrite validate_structure_fresh.
  rewrite validate_structure_fresh in Hfirst. by rewrite Hfirst.
Qed.

(** ** What a check can emit *)

Section Emits.
Context (Pe Pw : Finding → Prop).

Lemma emits_ret : emits_only Pe Pw (mret tt).
Proof. by split. Qed.

Lemma emits_add_error f : Pe f → emits_only Pe Pw (add_error f).
Proof. split; simpl; by repeat constructor. Qed.

Lemma emits_add_warning f : Pw f → emits_only Pe Pw (add_warning f).
Proof. split; simpl; by repeat constructor. Qed.

Lemma emits_bind (m k : M unit) :
  Framed m → Framed k →
  emits_only Pe Pw m → emits_only Pe Pw k → emits_only Pe Pw (m ;; k).
Proof.
  intros ?? [] []. unfold emits_only. rewrite out_then by done.
  simpl. by rewrite !Forall_app.
Qed.

Lemma emits_when b m : (b = true → emits_only Pe Pw m) → emits_only Pe Pw (when b m).
Proof. destruct b; simpl; [by auto|intros; apply emits_ret]. Qed.

Lemma emits_for_each {A} (l : list A) body :
  (∀ x, Framed (body x)) → (∀ x, x ∈ l → emits_only Pe Pw (body x)) →
  emits_only Pe Pw (for_each l body).
Proof.
  intros Hfr. induction l as [|x l IH]; intros Hbody; simpl; [apply emits_ret|].
  apply emits_bind; [apply _..| |].
  - apply Hbody. by left.
  - apply IH. intros y Hy. apply Hbody. by right.
Qed.
End Emits.

(** Break a check into its appends; what is left are the findings. *)
Ltac emits :=
  repeat first
    [ apply emits_ret
    | apply emits_bind; [apply _|apply _| |]
    | apply emits_when; intros ?
    | apply emits_add_error
    | apply emits_add_warning
    | match goal with
      | |- emits_only _ _ (if ?b then _ else _) => destruct b eqn:?
      | |- emits_only _ _ (match ?x with _ => _ end) => destruct x eqn:?
      end ].

(** Findings told apart by their kind or by the start of their field. *)
Ltac distinct :=
  intros;
  repeat match goal with
         | H : _ ∈ [] |- _ => by apply elem_of_nil in H
         | H : _ ∈ _ :: _ |- _ => apply elem_of_cons in H as [->|H]
         end;
  hnf; cbn; unfold indexed; cbn;
  first [done | by intros; simplify_eq/= | by intros []; simplify_eq/=].

Section Loops.
Context (Pe Pw : Finding → Prop).

Hypothesis Pe_field : ∀ coll i name msg, coll ∈ ["tasks"; "connections"; "variables"] →
  Pe (field_finding "field" (indexed coll i name) msg).
Hypothesis Pe_format : ∀ i name msg, Pe (field_finding "format" (indexed "tasks" i name) msg).
Hypothesis Pe_duplicate : ∀ name msg, name ∈ ["task_id"; "conn_id"] →
  Pe (field_finding "duplicate" name msg).
Hypothesis Pw_operator : ∀ i name msg, Pw (field_finding "operator" (indexed "tasks" i name) msg).
Hypothesis Pw_params : ∀ i name msg, Pw (field_finding "params" (indexed "tasks" i name) msg).
Hypothesis Pw_duplicate : ∀ msg, Pw (field_finding "duplicate" "variable_key" msg).

Lemma tasks_loop_emits i ts ids : emits_only Pe Pw (tasks_loop i ts ids).
Proof using Pe_field Pe_format Pe_duplicate Pw_operator Pw_params.
  clear Pw_duplicate. revert i ids. induction ts as [|t ts IH]; intros i ids; simpl; emits; auto;
    try (apply Pe_field || apply Pe_duplicate); set_solver.
Qed.

Lemma connections_loop_emits i cs ids : emits_only Pe Pw (connections_loop i cs ids).
Proof using Pe_field Pe_duplicate.
  clear Pe_format Pw_operator Pw_params Pw_duplicate. revert i ids. induction cs as [|c cs IH]; intros i ids; simpl; emits; auto;
    try (apply Pe_field || apply Pe_duplicate); set_solver.
Qed.

Lemma variables_loop_emits i vs ks : emits_only Pe Pw (variables_loop i vs ks).
Proof using Pe_field Pw_duplicate.
  clear Pe_format Pe_duplicate Pw_operator Pw_params. revert i ks. induction vs as [|v vs IH]; intros i ks; simpl; emits; auto;
    try (apply Pe_field || apply Pe_duplicate); set_solver.
Qed.
End Loops.

(** ** The findings of a whole run *)

Lemma run_errors dag_spec self :
  falsy_spec dag_spec = false →
  errors (validate_structure dag_spec self).1
  = mjoin ((λ m, self_errors (out m)) <$> structure_checks (default empty_spec dag_spec)).
Proof.
  intros H. rewrite (validate_structure_run _ _ H).
  unfold _build_result. cbn [fst errors]. by rewrite foldl_extend_errors.
Qed.

Lemma run_warnings dag_spec self :
  falsy_spec dag_spec = false →
  warnings (validate_structure dag_spec self).1
  = mjoin ((λ m, self_warnings (out m)) <$> structure_checks (default empty_spec dag_spec)).
Proof.
  intros H. rewrite (validate_structure_run _ _ H).
  unfold _build_result. cbn [fst warnings]. by rewrite foldl_extend_warnings.
Qed.

Lemma run_emits Pe Pw dag_spec self :
  falsy_spec dag_spec = false →
  Forall (emits_only Pe Pw) (structure_checks (default empty_spec dag_spec)) →
  Forall Pe (errors (validate_structure dag_spec self).1)
  ∧ Forall Pw (warnings (validate_structure dag_spec self).1).
Proof.
  intros H Hall. rewrite run_errors, run_warnings by done.
  induction Hall as [|m ms [He Hw] _ [IHe IHw]]; simpl; [done|].
  by rewrite !Forall_app.
Qed.

Lemma dependencies_emits Pe Pw o :
  (∀ msg, Pe (field_finding "dependency" "dependencies" msg)) →
  emits_only Pe Pw (_validate_dependencies o).
Proof.
  intros HPe. unfold _validate_dependencies. emits; [|apply HPe].
  apply emits_for_each; [apply _|].
  intros t _. unfold check_references. destruct (task_id t); [|apply emits_ret].
  apply emits_for_each; [apply _|]. intros dep _. emits; apply HPe.
Qed.

(** ** The dag id *)

(** C10.  When the dag id is the empty string, no error and no warning of
    [validate_structure] is about the field dag_id: the key is present and
    not None, and the format check returns on a falsy id. *)
Theorem empty_dag_id_is_silent spec self :
  dag_id spec = Present EmptyString →
  let r := (validate_structure (Some spec) self).1 in
  ∀ f, f ∈ errors r ++ warnings r → field f ≠ Some "dag_id".
Proof.
  intros Hid r f Hf.
  assert (falsy_spec (Some spec) = false) as Hfalsy.
  { simpl. unfold is_empty_dict. by rewrite Hid. }
  destruct (run_emits not_about_dag_id not_about_dag_id (Some spec) self Hfalsy) as [He Hw].
  - simpl. unfold not_about_dag_id. repeat apply Forall_cons_2; [..|done].
    + unfold _validate_required_fields, for_each. rewrite Hid. emits; distinct.
    + rewrite Hid. simpl. apply emits_ret.
    + unfold _validate_schedule. emits; distinct.
    + unfold _validate_start_date. emits; distinct.
    + unfold _validate_tasks. emits; [distinct|].
      apply tasks_loop_emits; distinct.
    + apply connections_loop_emits; distinct.
    + apply variables_loop_emits; distinct.
    + apply dependencies_emits; distinct.
  - rewrite Forall_forall in He, Hw.
    apply elem_of_app in Hf as [Hf|Hf]; [by apply He|by apply Hw].
Qed.

Lemma empty_dag_id_is_silent_witness :
  dag_id empty_id_spec = Present EmptyString
  ∧ Forall not_about_dag_id
      (errors (validate_structure (Some empty_id_spec) init).1
       ++ warnings (validate_structure (Some empty_id_spec) init).1).
Proof.
  split; [reflexivity|]. apply Forall_forall.
  apply (empty_dag_id_is_silent empty_id_spec init). reflexivity.
Defined.

(** ** From the task list to the graph of the search *)

Lemma dict_get_set graph k v k' :
  dict_get (dict_set graph k v) k' = if decide (k = k') then Some v else dict_get graph k'.
Proof.
  induction graph as [|[k0 v0] graph IH]; simpl.
  - by destruct (decide (k = k')).
  - destruct (decide (k0 = k)) as [->|Hne]; simpl.
    + by destruct (decide (k = k')).
    + rewrite IH. destruct (decide (k0 = k')) as [->|]; [|done].
      by destruct (decide (k = k')).
Qed.

Lemma dict_get_fold tasks : ∀ graph u,
  dict_get (foldl (λ graph task,
                     match task_id task with
                     | None => graph
                     | Some tid => dict_set graph tid (get_dependencies task)
                     end) graph tasks) u
  = match declaration tasks u with
    | Some task => Some (get_dependencies task)
    | None => dict_get graph u
    end.
Proof.
  induction tasks as [|t tasks IH]; intros graph u; simpl; [done|].
  rewrite IH. destruct (declaration tasks u); [done|].
  destruct (task_id t) as [tid|] eqn:Hid.
  - rewrite dict_get_set.
    destruct (decide (tid = u)) as [->|Hne].
    + by rewrite decide_True.
    + by rewrite decide_False by congruence.
  - by rewrite decide_False.
Qed.

Lemma build_graph_get tasks u :
  dict_get (build_graph tasks) u = get_dependencies <$> declaration tasks u.
Proof. unfold build_graph. rewrite dict_get_fold. by destruct (declaration tasks u). Qed.

(** The search runs on the effective edges. *)
Lemma build_graph_edge tasks u v :
  edge (build_graph tasks) u v ↔ effective_edge tasks u v.
Proof.
  unfold edge, successors, effective_edge. rewrite build_graph_get.
  destruct (declaration tasks u) as [t|]; simpl.
  - split; [by exists t|by intros (? & [= <-] & ?)].
  - split; [by intros ?%elem_of_nil|by intros (? & ? & ?)].
Qed.

Lemma declaration_Some tasks u t :
  declaration tasks u = Some t → t ∈ tasks ∧ task_id t = Some u.
Proof.
  induction tasks as [|t0 tasks IH]; simpl; [done|].
  destruct (declaration tasks u) as [t'|].
  - intros [= <-]. destruct IH as [? ?]; [done|]. split; [by right|done].
  - destruct (decide (task_id t0 = Some u)); [|done].
    intros [= <-]. split; [by left|done].
Qed.

Lemma effective_declared tasks u v : effective_edge tasks u v → declared_edge tasks u v.
Proof.
  intros (t & Hdecl & Hv). apply declaration_Some in Hdecl as [? ?]. by exists t.
Qed.

Lemma has_cycle_in_mono (R R' : relation string) :
  (∀ u v, R u v → R' u v) → has_cycle_in R → has_cycle_in R'.
Proof.
  intros Hsub [u Hu]. exists u. by apply (tc_congruence id R' u u Hsub).
Qed.

Lemma has_cycle_in_ext (R R' : relation string) :
  (∀ u v, R u v ↔ R' u v) → has_cycle_in R ↔ has_cycle_in R'.
Proof. intros H. split; apply has_cycle_in_mono; intros u v; by apply H. Qed.

(** [_has_circular_dependencies] answers, and answers True exactly on a
    cycle of the effective edges. *)
Lemma has_circular_dependencies_correct tasks :
  _has_circular_dependencies tasks = true ↔ has_cycle_in (effective_edge tasks).
Proof.
  unfold _has_circular_dependencies.
  destruct (search_total (build_graph tasks)) as [[b st] Hsearch]. rewrite Hsearch.
  rewrite <-(has_cycle_in_ext _ _ (build_graph_edge tasks)).
  apply (search_correct _ _ Hsearch).
Qed.

Lemma declaration_None tasks u : u ∉ omap task_id tasks → declaration tasks u = None.
Proof.
  induction tasks as [|t tasks IH]; [done|].
  intros Hu. cbn [declaration]. simpl in Hu.
  destruct (task_id t) as [tid|] eqn:Hid.
  - rewrite IH by set_solver.
    destruct (decide (Some tid = Some u)) as [[= ->]|]; [set_solver|done].
  - rewrite IH by done. by destruct (decide (None = Some u)).
Qed.

(** An id that no task declares is a node without successors: the search
    marks it and comes back. *)
Lemma undeclared_has_no_successors tasks u :
  u ∉ omap task_id tasks → successors (build_graph tasks) u = [].
Proof.
  intros Hu. unfold successors. by rewrite build_graph_get, declaration_None.
Qed.

(** A relation that strictly lowers a rank has no cycle. *)
Lemma ranked_acyclic (R : relation string) (rank : string → nat) :
  (∀ u v, R u v → rank v < rank u) → ¬ has_cycle_in R.
Proof.
  intros Hrank [u Hu].
  assert (∀ x y, tc R x y → rank y < rank x) as Htc.
  { induction 1 as [x y H|x y z H _ IH]; [by apply Hrank|]. apply Hrank in H. lia. }
  apply Htc in Hu. lia.
Qed.

(** ** The circular-dependency error *)

Lemma count_app P `{∀ f, Decision (P f)} l1 l2 : count P (l1 ++ l2) = count P l1 + count P l2.
Proof. unfold count. by rewrite filter_app, length_app. Qed.

Lemma count_none P `{∀ f, Decision (P f)} l : Forall (λ f, ¬ P f) l → count P l = 0.
Proof.
  unfold count. induction 1 as [|f l Hf _ IH]; [done|].
  by rewrite filter_cons_False.
Qed.

Lemma not_dependency_circular f : not_dependency f → ¬ is_circular_error f.
Proof. by intros Hf [? _]. Qed.

(** The seven checks before the dependencies report no error of kind
    dependency. *)
Lemma earlier_checks_not_dependency spec :
  Forall (emits_only not_dependency (λ _, True))
    (take 7 (structure_checks spec)).
Proof.
  simpl. repeat apply Forall_cons_2; [..|done].
  - unfold _validate_required_fields, for_each. emits; distinct.
  - unfold _validate_dag_id. emits; distinct.
  - unfold _validate_schedule. emits; distinct.
  - unfold _validate_start_date. emits; distinct.
  - unfold _validate_tasks. emits; [distinct|]. apply tasks_loop_emits; distinct.
  - apply connections_loop_emits; distinct.
  - apply variables_loop_emits; distinct.
Qed.

Lemma references_not_circular ids ts :
  emits_only not_circular (λ _, True) (for_each ts (check_references ids)).
Proof.
  apply emits_for_each; [apply _|]. intros t _. unfold check_references.
  destruct (task_id t); [|apply emits_ret].
  apply emits_for_each; [apply _|]. intros dep _.
  emits; intros [_ Hmsg]; simpl in Hmsg; discriminate.
Qed.

Lemma dependencies_circular_count o :
  count is_circular_error (self_errors (out (_validate_dependencies o)))
  = if _has_circular_dependencies (default [] o) then 1 else 0.
Proof.
  unfold _validate_dependencies. destruct (truthy_list o) eqn:Ho; simpl.
  - rewrite out_then by apply _. simpl. rewrite count_app.
    rewrite count_none by apply references_not_circular.
    by destruct (_has_circular_dependencies _).
  - destruct o as [[|]|]; by try discriminate.
Qed.

Lemma tasks_of_get_or spec : default [] (get_or (tasks spec) []) = tasks_of spec.
Proof. unfold tasks_of. by destruct (tasks spec). Qed.

Lemma emits_only_impl (Pe Pe' Pw Pw' : Finding → Prop) m :
  (∀ f, Pe f → Pe' f) → (∀ f, Pw f → Pw' f) →
  emits_only Pe Pw m → emits_only Pe' Pw' m.
Proof. intros HPe HPw [He Hw]. split; eapply Forall_impl; eauto. Qed.

Lemma count_errors_none P `{∀ f, Decision (P f)} ms :
  Forall (emits_only (λ f, ¬ P f) (λ _, True)) ms →
  count P (mjoin ((λ m, self_errors (out m)) <$> ms)) = 0.
Proof.
  induction 1 as [|m ms [Hm _] _ IH]; [done|].
  simpl. rewrite count_app, count_none by done. apply IH.
Qed.

Lemma count_warnings_none P `{∀ f, Decision (P f)} ms :
  Forall (emits_only (λ _, True) (λ f, ¬ P f)) ms →
  count P (mjoin ((λ m, self_warnings (out m)) <$> ms)) = 0.
Proof.
  induction 1 as [|m ms [_ Hm] _ IH]; [done|].
  simpl. rewrite count_app, count_none by done. apply IH.
Qed.

Lemma empty_dict_tasks spec : is_empty_dict spec = true → tasks_of spec = [].
Proof.
  unfold is_empty_dict, tasks_of. destruct (tasks spec); simpl; try done.
  by rewrite !andb_false_r.
Qed.

Lemma validate_structure_empty spec self :
  is_empty_dict spec = true →
  (validate_structure (Some spec) self).1 = mk_result false [root_error] [].
Proof.
  intros Hempty. unfold validate_structure.
  change ((reset ;; ?k) self) with (k init). simpl. by rewrite Hempty.
Qed.

Lemma circular_count spec self :
  count is_circular_error (errors (validate_structure (Some spec) self).1)
  = if _has_circular_dependencies (tasks_of spec) then 1 else 0.
Proof.
  destruct (is_empty_dict spec) eqn:Hempty.
  - by rewrite validate_structure_empty, empty_dict_tasks.
  - rewrite run_errors by done. simpl default.
    change (structure_checks spec)
      with (take 7 (structure_checks spec) ++ [_validate_dependencies (get_or (tasks spec) [])]).
    rewrite fmap_app, join_app, count_app. simpl mjoin at 2. rewrite app_nil_r.
    rewrite dependencies_circular_count, tasks_of_get_or.
    rewrite count_errors_none; [done|].
    eapply Forall_impl; [apply earlier_checks_not_dependency|].
    intros m. apply emits_only_impl; [apply not_dependency_circular|done].
Qed.

(** ** Cycles *)

(** C2.  When the declared dependency lists form no directed cycle, the
    result of [validate_structure] holds no circular-dependency error,
    whether or not some entries name ids that no task declares. *)
Theorem acyclic_never_reported spec self :
  ¬ has_cycle_in (declared_edge (tasks_of spec)) →
  count is_circular_error (errors (validate_structure (Some spec) self).1) = 0.
Proof.
  intros Hacyc. rewrite circular_count.
  destruct (_has_circular_dependencies (tasks_of spec)) eqn:Hc; [|done].
  destruct Hacyc. apply has_circular_dependencies_correct in Hc.
  eapply has_cycle_in_mono; [|done]. apply effective_declared.
Qed.

Lemma dangling_acyclic : ¬ has_cycle_in (declared_edge dangling).
Proof.
  apply (ranked_acyclic _ (λ u, if decide (u = "load") then 1 else 0)).
  intros u v (t & Ht & Hid & Hv).
  unfold dangling in Ht.
  apply elem_of_cons in Ht as [Ht|Ht]; [|apply list_elem_of_singleton in Ht];
    subst t; simpl in *; simplify_eq.
  - apply elem_of_cons in Hv as [->|Hv]; [vm_compute; lia|].
    apply list_elem_of_singleton in Hv as ->. vm_compute; lia.
  - by apply elem_of_nil in Hv.
Qed.

Lemma acyclic_never_reported_witness :
  ¬ has_cycle_in (declared_edge (tasks_of (example_spec dangling)))
  ∧ count is_circular_error
      (errors (validate_structure (Some (example_spec dangling)) init).1) = 0.
Proof.
  split; [exact dangling_acyclic|].
  apply (acyclic_never_reported (example_spec dangling) init). exact dangling_acyclic.
Defined.

(** ** Dangling references *)

Lemma sieve_app {A} (P : A → Prop) l1 l1' l2 l2' :
  sieve P l1 l1' → sieve P l2 l2' → sieve P (l1 ++ l2) (l1' ++ l2').
Proof. induction 1; simpl; intros; [done|constructor; auto..]. Qed.

Lemma sieve_none {A} (P : A → Prop) l : Forall (λ x, ¬ P x) l → sieve P l [].
Proof. induction 1; by constructor. Qed.

Lemma sieve_unique {A} (P : A → Prop) l l1 l2 : sieve P l l1 → sieve P l l2 → l1 = l2.
Proof.
  intros H1. revert l2.
  induction H1 as [|x l l' Hx _ IH|x l l' Hx _ IH]; inversion 1; subst; try done.
  - f_equal. by apply IH.
  - by apply IH.
Qed.

Lemma append_nonempty a b : b ≠ EmptyString → a +:+ b ≠ EmptyString.
Proof. destruct a; [done|]. by intros _. Qed.

Lemma last_char_app a b : b ≠ EmptyString → last_char (a +:+ b) = last_char b.
Proof.
  intros Hb. induction a as [|x a IH]; [done|].
  change (String x a +:+ b) with (String x (a +:+ b)).
  cbn [last_char]. rewrite IH.
  pose proof (append_nonempty a b Hb). by destruct (a +:+ b).
Qed.

(** The last character of a message that ends in a literal or a quoted name. *)
Ltac last_char :=
  repeat (rewrite last_char_app by (repeat (apply append_nonempty); done)).

Lemma nonexistent_not_self tid : ¬ is_nonexistent_error (self_error tid).
Proof.
  intros (tid' & dep & Heq). apply (f_equal message) in Heq.
  apply (f_equal last_char) in Heq. revert Heq.
  unfold self_error, nonexistent_error, quoted. cbn [message field_finding].
  by last_char.
Qed.

Lemma nonexistent_not_circular : ¬ is_nonexistent_error circular_error.
Proof. by intros (tid' & dep & Heq). Qed.

Lemma not_dependency_nonexistent f : not_dependency f → ¬ is_nonexistent_error f.
Proof. intros Hf (tid & dep & ->). by apply Hf. Qed.

Lemma check_references_sieve ts t :
  sieve is_nonexistent_error
    (self_errors (out (check_references (task_id_set ts) t)))
    (reference_errors (omap task_id ts) t).
Proof.
  unfold check_references, reference_errors. destruct (task_id t) as [tid|]; [|constructor].
  induction (get_dependencies t) as [|dep deps IH]; [constructor|].
  cbn [for_each]. rewrite !out_then by apply _. cbn [self_errors extend].
  rewrite <-app_assoc.
  destruct (decide (dep ∈ omap task_id ts)) as [Hin|Hout].
  - rewrite filter_cons_False by auto.
    rewrite bool_decide_eq_false_2 by (unfold task_id_set; set_solver).
    apply (sieve_app _ _ [] _ _ (sieve_nil _)), (sieve_app _ _ []); [|done].
    destruct (bool_decide (dep = tid)); repeat constructor.
    apply nonexistent_not_self.
  - rewrite filter_cons_True by done.
    rewrite bool_decide_eq_true_2 by (unfold task_id_set; set_solver).
    rewrite fmap_cons.
    apply (sieve_app _ [_] [_]); [constructor; [by eexists _, _|constructor]|].
    apply (sieve_app _ _ []); [|done].
    destruct (bool_decide (dep = tid)); repeat constructor.
    apply nonexistent_not_self.
Qed.

Lemma references_sieve ids ts :
  (∀ t, sieve is_nonexistent_error (self_errors (out (check_references ids t)))
          (reference_errors (omap task_id ts) t)) →
  ∀ l, sieve is_nonexistent_error
         (self_errors (out (for_each l (check_references ids))))
         (l ≫= reference_errors (omap task_id ts)).
Proof.
  intros Hbody l. induction l as [|t l IH]; [constructor|].
  cbn [for_each]. rewrite out_then by apply _. by apply sieve_app.
Qed.

Lemma dangling_references_errors ts :
  (λ p, nonexistent_error p.1 p.2) <$> dangling_references ts
  = ts ≫= reference_errors (omap task_id ts).
Proof.
  unfold dangling_references. generalize (omap task_id ts). intros ids.
  induction ts as [|t ts IH]; [done|].
  cbn [mbind list_bind]. rewrite fmap_app, IH. f_equal.
  unfold reference_errors. destruct (task_id t); [|done].
  by rewrite <-list_fmap_compose.
Qed.

Lemma dependencies_sieve o :
  sieve is_nonexistent_error (self_errors (out (_validate_dependencies o)))
    ((λ p, nonexistent_error p.1 p.2) <$> dangling_references (default [] o)).
Proof.
  unfold _validate_dependencies. destruct (truthy_list o) eqn:Ho; simpl negb; cbv iota.
  - rewrite out_then by apply _. cbn [self_errors extend].
    rewrite dangling_references_errors, <-(app_nil_r (_ ≫= _)).
    apply sieve_app.
    + apply references_sieve. intros t. apply check_references_sieve.
    + destruct (_has_circular_dependencies _); repeat constructor.
      apply nonexistent_not_circular.
  - destruct o as [[|]|]; try discriminate; constructor.
Qed.

Lemma errors_sieve_none P ms :
  Forall (emits_only (λ f, ¬ P f) (λ _, True)) ms →
  sieve P (mjoin ((λ m, self_errors (out m)) <$> ms)) [].
Proof.
  induction 1 as [|m ms [Hm _] _ IH]; [constructor|].
  simpl. apply (sieve_app _ _ [] _ []); [by apply sieve_none|apply IH].
Qed.

Lemma sieve_ext {A} (P Q : A → Prop) l l' :
  Forall (λ x, P x ↔ Q x) l → sieve P l l' → sieve Q l l'.
Proof.
  intros Hall Hsieve. induction Hsieve as [|x l l' Hx _ IH|x l l' Hx _ IH];
    [constructor|apply Forall_cons in Hall as [Hx' Hall]..].
  - apply sieve_keep; [by apply Hx'|by apply IH].
  - apply sieve_skip; [by rewrite <-Hx'|by apply IH].
Qed.

Lemma dangling_occurrences_references ts : dangling_occurrences ts = dangling_references ts.
Proof.
  unfold dangling_occurrences, dangling_references. generalize (omap task_id ts).
  intros ids. induction ts as [|t ts IH]; [done|].
  cbn [mbind list_bind]. rewrite IH. f_equal.
  unfold get_dependencies. by destruct (task_id t), (dependencies t).
Qed.

(** An error of kind dependency is on the field dependencies and has
    nothing but its message. *)
Lemma dependency_errors_shape spec self :
  Forall (λ f, type f = "dependency"
               → f = field_finding "dependency" "dependencies" (message f))
    (errors (validate_structure (Some spec) self).1).
Proof.
  destruct (is_empty_dict spec) eqn:Hempty.
  - rewrite validate_structure_empty by done. by repeat constructor.
  - apply (run_emits _ (λ _, True) (Some spec) self Hempty).
    change (structure_checks (default empty_spec (Some spec)))
      with (take 7 (structure_checks spec)
            ++ [_validate_dependencies (get_or (tasks spec) [])]).
    apply Forall_app. split.
    + eapply Forall_impl; [apply earlier_checks_not_dependency|].
      intros m. apply emits_only_impl; [|done]. by intros f Hf Hty.
    + apply Forall_singleton. by apply dependencies_emits.
Qed.

Lemma nonexistent_errors_sieve spec self :
  sieve is_nonexistent_error
    (errors (validate_structure (Some spec) self).1)
    ((λ p, nonexistent_error p.1 p.2) <$> dangling_references (tasks_of spec)).
Proof.
  destruct (is_empty_dict spec) eqn:Hempty.
  - rewrite validate_structure_empty, empty_dict_tasks by done.
    repeat constructor. by intros (? & ? & ?).
  - rewrite run_errors by done. simpl default.
    change (structure_checks spec)
      with (take 7 (structure_checks spec) ++ [_validate_dependencies (get_or (tasks spec) [])]).
    rewrite fmap_app, join_app. simpl mjoin at 2. rewrite app_nil_r.
    apply (sieve_app _ _ []).
    + apply errors_sieve_none.
      eapply Forall_impl; [apply earlier_checks_not_dependency|].
      intros m. apply emits_only_impl; [apply not_dependency_nonexistent|done].
    + rewrite <-tasks_of_get_or. apply dependencies_sieve.
Qed.

(** C3.  The errors of [validate_structure] that are of kind dependency and
    say a task depends on a non-existent task are, in order, one for each
    occurrence of a dangling reference: an entry, in the list under the key
    dependencies of a task that has an id, that is the id of no task.  Each
    is the finding of kind dependency on the field dependencies whose
    message names the task and the entry. *)
Theorem one_error_per_dangling_reference spec self :
  sieve is_dangling_error
    (errors (validate_structure (Some spec) self).1)
    ((λ p, dangling_error p.1 p.2) <$> dangling_occurrences (tasks_of spec)).
Proof.
  rewrite dangling_occurrences_references.
  eapply sieve_ext; [|apply nonexistent_errors_sieve].
  eapply Forall_impl; [apply dependency_errors_shape|].
  intros f Hshape. split.
  - by intros (tid & dep & ->); split; [|exists tid, dep].
  - intros [Hty (tid & dep & Hmsg)]. exists tid, dep.
    rewrite (Hshape Hty), Hmsg. reflexivity.
Qed.

(** The specification of test 6, with a second reference to the missing
    task: two occurrences, two errors. *)
Example dangling_twice :
  let ts := [example_task "load" ["ghost"; "extract"; "ghost"]; example_task "extract" []] in
  dangling_occurrences ts = [("load", "ghost"); ("load", "ghost")]
  ∧ filter (λ f, type f = "dependency") (errors (check_structure (Some (example_spec ts))))
    = [dangling_error "load" "ghost"; dangling_error "load" "ghost"].
Proof. by vm_compute. Qed.

(** ** The start date *)














Lemma byte_at_cons c l i : byte_at (c :: l) (S i) = byte_at l i.
Proof. done. Qed.

Lemma byte_at_0 c l : byte_at (c :: l) 0 = c.
Proof. done. Qed.



Section Calendar.
Context (a1 a2 a3 a4 b1 b2 c1 c2 : nat).
Context (Ha1 : 48 ≤ a1 ≤ 57) (Ha2 : 48 ≤ a2 ≤ 57) (Ha3 : 48 ≤ a3 ≤ 57) (Ha4 : 48 ≤ a4 ≤ 57).
Context (Hb1 : 48 ≤ b1 ≤ 57) (Hb2 : 48 ≤ b2 ≤ 57) (Hc1 : 48 ≤ c1 ≤ 57) (Hc2 : 48 ≤ c2 ≤ 57).

Let dtstr : list nat := [a1; a2; a3; a4; 45; b1; b2; 45; c1; c2].
Let y : Z := (((Z.of_nat (a1 - 48) * 10 + Z.of_nat (a2 - 48)) * 10 + Z.of_nat (a3 - 48)) * 10
              + Z.of_nat (a4 - 48))%Z.
Let m : Z := (Z.of_nat (b1 - 48) * 10 + Z.of_nat (b2 - 48))%Z.
Let d : Z := (Z.of_nat (c1 - 48) * 10 + Z.of_nat (c2 - 48))%Z.



End Calendar.








(** ** Warnings about missing parameters *)

Lemma string_length_app a b : String.length (a +:+ b) = String.length a + String.length b.
Proof. induction a as [|x a IH]; simpl; [done|]. by rewrite IH. Qed.

Lemma string_app_inj_l a b c : a +:+ c = b +:+ c → a = b.
Proof.
  revert b. induction a as [|x a IH]; intros [|y b] Heq.
  - done.
  - apply (f_equal String.length) in Heq.
    rewrite !string_length_app in Heq. simpl in Heq. lia.
  - apply (f_equal String.length) in Heq.
    rewrite !string_length_app in Heq. simpl in Heq. lia.
  - injection Heq as -> Heq. f_equal. by apply IH.
Qed.

Lemma indexed_inj coll i j name : indexed coll i name = indexed coll j name → i = j.
Proof.
  unfold indexed. intros Heq.
  apply (inj (String.app coll)), (inj (String.app "[")) in Heq.
  apply string_app_inj_l in Heq. by apply (inj pretty) in Heq.
Qed.

Lemma not_params_warning i f : not_params f → ¬ is_params_warning i f.
Proof. by intros Hf [? _]. Qed.

Lemma other_checks_not_params spec :
  Forall (emits_only (λ _, True) not_params)
    (take 4 (structure_checks spec) ++ drop 5 (structure_checks spec)).
Proof.
  simpl. repeat apply Forall_cons_2; [..|done].
  - unfold _validate_required_fields, for_each. emits; distinct.
  - unfold _validate_dag_id. emits; distinct.
  - unfold _validate_schedule. emits; distinct.
  - unfold _validate_start_date. emits; distinct.
  - apply connections_loop_emits; distinct.
  - apply variables_loop_emits; distinct.
  - apply dependencies_emits; distinct.
Qed.

Lemma count_cons P `{∀ f, Decision (P f)} f l :
  count P (f :: l) = (if decide (P f) then 1 else 0) + count P l.
Proof.
  unfold count. destruct (decide (P f)).
  - by rewrite filter_cons_True.
  - by rewrite filter_cons_False.
Qed.

Lemma count_quiet i m :
  emits_only (λ _, True) not_params m →
  count (is_params_warning i) (self_warnings (out m)) = 0.
Proof.
  intros [_ Hw]. apply count_none. eapply Forall_impl; [done|].
  intros f. apply not_params_warning.
Qed.

Lemma tasks_loop_params i : ∀ ts j ids,
  count (is_params_warning i) (self_warnings (out (tasks_loop j ts ids)))
  = match (if decide (j ≤ i) then ts !! (i - j) else None) with
    | Some t => if lacks_params t then 1 else 0
    | None => 0
    end.
Proof.
  induction ts as [|t ts IH]; intros j ids.
  - simpl. by destruct (decide (j ≤ i)).
  - assert ((if decide (S j ≤ i) then ts !! (i - S j) else None)
            = if decide (j = i) then None
              else if decide (j ≤ i) then (t :: ts) !! (i - j) else None) as Hrest.
    { destruct (decide (j = i)) as [->|Hne].
      - by rewrite decide_False by lia.
      - destruct (decide (j ≤ i)).
        + rewrite decide_True by lia. by replace (i - j) with (S (i - S j)) by lia.
        + by rewrite decide_False by lia. }
    cbn [tasks_loop].
    destruct (task_id t) as [tid|] eqn:Hid.
    + rewrite !out_then by apply _. cbn [self_warnings extend].
      rewrite !count_app, IH, Hrest.
      repeat match goal with
             | |- context [count _ (self_warnings (out ?m))] =>
                 rewrite (count_quiet i m) by (emits; distinct)
             end.
      assert (lacks_params t
              = truthy_str (get (operator_type t))
                && negb (truthy_mapping (get_or (params t) []))) as Hlacks.
      { unfold lacks_params. by rewrite Hid. }
      destruct (decide (j = i)) as [->|Hne].
      * rewrite decide_True, Nat.sub_diag by lia.
        change ((t :: ts) !! 0) with (Some t). cbv iota. rewrite Hlacks.
        destruct (_ && _); [|done].
        simpl. rewrite count_cons, decide_True; done.
      * destruct (_ && _); [|done].
        simpl. rewrite count_cons, decide_False; [done|].
        intros [_ Hfld]. cbn [field field_finding] in Hfld.
        by apply (inj Some), indexed_inj in Hfld.
    + rewrite out_then by apply _. cbn [self_warnings extend].
      rewrite count_app, IH, Hrest. simpl.
      destruct (decide (j = i)) as [->|]; [|done].
      rewrite decide_True by lia. rewrite Nat.sub_diag. simpl.
      unfold lacks_params. by rewrite Hid.
Qed.

Lemma tasks_params i ts :
  count (is_params_warning i) (self_warnings (out (_validate_tasks (Some ts))))
  = match ts !! i with
    | Some t => if lacks_params t then 1 else 0
    | None => 0
    end.
Proof.
  unfold _validate_tasks. destruct ts as [|t ts]; [done|].
  simpl negb. cbv iota. simpl default.
  rewrite tasks_loop_params, decide_True by lia. by rewrite Nat.sub_0_r.
Qed.

(** C9, as amended.  For the task at index [i], the result of
    [validate_structure] holds exactly one warning of kind params on the
    field tasks[i].params when the task has an id, a non-empty operator
    type and no or an empty mapping under the key params, and none
    otherwise.  The key parameters is not consulted. *)
Theorem params_warning_iff_lacks_params spec ts i t self :
  tasks spec = Present ts → ts !! i = Some t →
  count (is_params_warning i) (warnings (validate_structure (Some spec) self).1)
  = if lacks_params t then 1 else 0.
Proof.
  intros Hts Hi.
  assert (falsy_spec (Some spec) = false) as Hfalsy.
  { simpl. unfold is_empty_dict. rewrite Hts. simpl. by rewrite !andb_false_r. }
  rewrite run_warnings by done. simpl default.
  change (structure_checks spec)
    with (take 4 (structure_checks spec)
          ++ [_validate_tasks (get_or (tasks spec) [])]
          ++ drop 5 (structure_checks spec)).
  pose proof (other_checks_not_params spec) as Hother.
  apply Forall_app in Hother as [Hbefore Hafter].
  rewrite !fmap_app, !join_app, !count_app.
  rewrite (count_warnings_none _ (take 4 _)), (count_warnings_none _ (drop 5 _)).
  - simpl mjoin. rewrite app_nil_r, Hts. simpl get_or.
    rewrite tasks_params, Hi. lia.
  - eapply Forall_impl; [done|]. intros m.
    apply emits_only_impl; [done|apply not_params_warning].
  - eapply Forall_impl; [done|]. intros m.
    apply emits_only_impl; [done|apply not_params_warning].
Qed.

Lemma params_warning_iff_lacks_params_witness :
  count (is_params_warning 0)
    (warnings (validate_structure (Some (example_spec [parameters_task])) init).1)
  = if lacks_params parameters_task then 1 else 0.
Proof.
  apply (params_warning_iff_lacks_params
           (example_spec [parameters_task]) [parameters_task] 0 parameters_task init);
    reflexivity.
Defined.

(** C9 as stated fails for a task that supplies a non-empty mapping under
    the key parameters: it is warned all the same. *)
Lemma parameters_key_ignored :
  parameters parameters_task = Present [("bash_command", "ls")]
  ∧ operator_type parameters_task = Present "BashOperator"
  ∧ count (is_params_warning 0)
      (warnings (validate_structure (Some (example_spec [parameters_task])) init).1) = 1.
Proof. split_and!; [done|done|by vm_compute]. Qed.

(** ** The cases of test_validator.py *)

(** Test 5 of the structure tests: two tasks that depend on each other. *)
Example test_circular_dependencies :
  check_structure (Some (example_spec two_cycle))
  = mk_result false [circular_error]
      (warnings (check_structure (Some (example_spec two_cycle)))).
Proof. by vm_compute. Qed.

(** Test 6 of the structure tests: a reference to a task that is not there. *)
Example test_invalid_dependency :
  errors (check_structure
            (Some (example_spec [example_task "task1" ["nonexistent_task"]])))
  = [nonexistent_error "task1" "nonexistent_task"].
Proof. by vm_compute. Qed.

(** Test 4 of the edge cases: a task that depends on itself is reported
    twice, as a self-dependency and as a cycle. *)
Example test_self_dependency :
  errors (check_structure (Some (example_spec [example_task "task1" ["task1"]])))
  = [self_error "task1"; circular_error].
Proof. by vm_compute. Qed.

(** Test 3 of the structure tests: an id with spaces and no task. *)
Example test_invalid_dag_id :
  type <$> errors (check_structure
                     (Some (mk_spec (Present "Invalid DAG ID!") (Present "Test")
                              (Present "@daily") Absent (Present []) None None [])))
  = ["format"; "structure"].
Proof. by vm_compute. Qed.

(** Test 7 of the structure tests: the schedule and the date of the complex
    pipeline pass. *)
Example test_schedule_and_date :
  re_match cron_pattern "0 2 * * *" = true
  ∧ is_Some (fromisoformat "2024-01-01").
Proof. split; [by vm_compute|by eexists]. Qed.

(** ** The matcher and the date parser on examples *)

(** The id pattern wants one or more of its characters up to the end of the
    text; as in Python, [$] also holds before a final newline. *)
Example id_pattern_examples :
  re_match id_pattern "extract_data-2" = true
  ∧ re_match id_pattern "Invalid DAG ID!" = false
  ∧ re_match id_pattern EmptyString = false
  ∧ re_match id_pattern (String "a" (String "010" EmptyString)) = true.
Proof. by vm_compute. Qed.

Example cron_pattern_examples :
  re_match cron_pattern "@every 5m" = true
  ∧ re_match cron_pattern "@reboot" = true
  ∧ re_match cron_pattern "1,15 0-6 1/2 * *" = true
  ∧ re_match cron_pattern "* * * *" = false
  ∧ re_match cron_pattern "every day" = false.
Proof. by vm_compute. Qed.

(** Dates, dates with a time, and the texts CPython accepts from 3.11 on:
    a date without hyphens, the letter Z for UTC, a week and a day of the
    week. *)
Example fromisoformat_examples :
  is_Some (fromisoformat "2024-02-29")
  ∧ fromisoformat "2023-02-29" = None
  ∧ fromisoformat "2024-01-01T12:00:00"
    = Some (mk_datetime 738886 12 0 0 0 None)
  ∧ fromisoformat "2024-01-01 12:30:15.250+05:30"
    = Some (mk_datetime 738886 12 30 15 250000 (Some 19800000000%Z))
  ∧ is_Some (fromisoformat "20240101")
  ∧ is_Some (fromisoformat "2024-01-01T12:00:00Z")
  ∧ is_Some (fromisoformat "2024-W01-1")
  ∧ fromisoformat "2024-01-01T24:00" = None
  ∧ fromisoformat "01/02/2024" = None
  ∧ fromisoformat "2024-1-1" = None.
Proof. vm_compute. split_and!; try done; by eexists. Qed.

(* ================================================================== *)
(** * Further properties *)

(** ** The matcher against the meaning of the patterns *)

Lemma string_app_nil_l a : EmptyString +:+ a = a.
Proof. reflexivity. Qed.

Lemma string_app_cons x a b : String x a +:+ b = String x (a +:+ b).
Proof. reflexivity. Qed.

Lemma string_app_assoc a b c : (a +:+ b) +:+ c = a +:+ (b +:+ c).
Proof.
  induction a as [|x a IH]; [done|]. by rewrite !string_app_cons, IH.
Qed.

Lemma string_app_nil_r a : a +:+ EmptyString = a.
Proof. induction a as [|x a IH]; [done|]. by rewrite string_app_cons, IH. Qed.

Lemma string_app_eq_nil a b : a +:+ b = EmptyString → a = EmptyString ∧ b = EmptyString.
Proof. by destruct a. Qed.

Lemma nullable_matches rest r : nullable rest r = true ↔ matches r EmptyString rest.
Proof.
  split.
  - induction r as [| |p|r1 IH1 r2 IH2|r1 IH1 r2 IH2|r IH|]; simpl; intros H; try done.
    + constructor.
    + apply andb_prop in H as [H1 H2].
      apply (matches_seq r1 r2 EmptyString EmptyString); auto.
    + apply orb_prop in H as [H|H]; [apply matches_alt_l|apply matches_alt_r]; auto.
    + constructor.
    + by constructor.
  - intros H. remember EmptyString as w eqn:Hw.
    induction H as [| | r1 r2 w1 w2 rest H1 IH1 H2 IH2| | | | |]; simpl; try done.
    + apply string_app_eq_nil in Hw as [-> ->]. rewrite string_app_nil_l in IH1.
      by rewrite IH1, IH2.
    + by rewrite IHmatches.
    + rewrite IHmatches by done. apply orb_true_r.
Qed.

Lemma deriv_matches r : ∀ c w rest,
  matches (deriv (String c (w +:+ rest)) c r) w rest ↔ matches r (String c w) rest.
Proof.
  intros c w rest. split.
  - revert w rest.
    induction r as [| |p|r1 IH1 r2 IH2|r1 IH1 r2 IH2|r IH|]; simpl; intros w rest H.
    + inversion H.
    + inversion H.
    + destruct (p c) eqn:Hp; inversion H; subst. by constructor.
    + assert (∀ w1 w2, w = w1 +:+ w2 →
                matches (deriv (String c (w +:+ rest)) c r1) w1 (w2 +:+ rest) →
                matches r2 w2 rest → matches (Seq r1 r2) (String c w) rest) as Hleft.
      { intros w1 w2 -> Hd H2. rewrite string_app_assoc in Hd. apply IH1 in Hd.
        by apply (matches_seq r1 r2 (String c w1) w2). }
      destruct (nullable _ r1) eqn:Hn.
      * inversion H as [| | | ? ? ? ? H'| ? ? ? ? H'| | |]; subst.
        -- inversion H'; subst. by eapply Hleft.
        -- apply nullable_matches in Hn. apply IH2 in H'.
           by apply (matches_seq r1 r2 EmptyString (String c w)).
      * inversion H; subst. by eapply Hleft.
    + inversion H; subst; [apply matches_alt_l|apply matches_alt_r]; auto.
    + inversion H as [| |? ? w1 w2 ? Hd Hs| | | | |]; subst.
      rewrite string_app_assoc in Hd. apply IH in Hd.
      by apply (matches_star_cons r (String c w1) w2).
    + inversion H.
  - intros H. remember (String c w) as v eqn:Hv. revert c w Hv.
    induction H as [|p c' rest Hp|r1 r2 w1 w2 rest H1 IH1 H2 IH2|r1 r2 v rest H IH
                    |r1 r2 v rest H IH| |r w1 w2 rest H1 IH1 H2 IH2|];
      intros c w Hv; simpl; try done.
    + injection Hv as -> <-. rewrite Hp. constructor.
    + destruct w1 as [|c1 w1].
      * rewrite string_app_nil_l in Hv. subst w2. apply nullable_matches in H1.
        rewrite string_app_cons in H1.
        rewrite H1. apply matches_alt_r. by apply IH2.
      * rewrite string_app_cons in Hv. injection Hv as -> <-.
        assert (matches (Seq (deriv (String c ((w1 +:+ w2) +:+ rest)) c r1) r2)
                  (w1 +:+ w2) rest) as Hs.
        { apply matches_seq; [|done]. rewrite string_app_assoc. by apply IH1. }
        destruct (nullable _ r1); [by apply matches_alt_l|done].
    + apply matches_alt_l. by apply IH.
    + apply matches_alt_r. by apply IH.
    + destruct w1 as [|c1 w1].
      * rewrite string_app_nil_l in Hv. by apply IH2.
      * rewrite string_app_cons in Hv. injection Hv as -> <-. apply matches_seq; [|done].
        rewrite string_app_assoc. by apply IH1.
Qed.

Lemma re_match_prefix r s : re_match r s = true ↔ prefix_matches r s.
Proof.
  revert r. induction s as [|c s IH]; intros r; simpl.
  - rewrite orb_false_r, nullable_matches. split.
    + intros H. by exists EmptyString, EmptyString.
    + intros (w & rest & Hs & H). symmetry in Hs.
      by apply string_app_eq_nil in Hs as [-> ->].
  - rewrite orb_true_iff, nullable_matches, IH. split.
    + intros [H|(w & rest & -> & H)].
      * by exists EmptyString, (String c s).
      * exists (String c w), rest. split; [done|]. by apply deriv_matches.
    + intros (w & rest & Hs & H). destruct w as [|c' w].
      * left. rewrite string_app_nil_l in Hs. by subst rest.
      * rewrite string_app_cons in Hs. injection Hs as <- ->. right. exists w, rest. split; [done|].
        by apply deriv_matches.
Qed.

(** ** Identifiers *)

Lemma star_chr_matches p w rest :
  matches (Star (Chr p)) w rest ↔ all_chars p w = true.
Proof.
  split.
  - intros H. remember (Star (Chr p)) as r eqn:Hr.
    induction H as [| | | | | |r w1 w2 rest H1 _ H2 IH2|]; try done.
    injection Hr as ->. inversion H1; subst.
    rewrite string_app_cons, string_app_nil_l. simpl.
    apply andb_true_intro. auto.
  - revert rest. induction w as [|c w IH]; intros rest H; [constructor|].
    simpl in H. apply andb_prop in H as [Hc Hw].
    apply (matches_star_cons (Chr p) (String c EmptyString) w); [by constructor|auto].
Qed.

Lemma matches_seq_inv r1 r2 w rest :
  matches (Seq r1 r2) w rest →
  ∃ w1 w2, w = w1 +:+ w2 ∧ matches r1 w1 (w2 +:+ rest) ∧ matches r2 w2 rest.
Proof. inversion 1; subst. eauto. Qed.

Lemma matches_eps_inv w rest : matches Eps w rest → w = EmptyString.
Proof. by inversion 1. Qed.

Lemma matches_chr_inv p w rest :
  matches (Chr p) w rest → ∃ c, w = String c EmptyString ∧ p c = true.
Proof. inversion 1; subst. eauto. Qed.

Lemma matches_dollar_inv w rest :
  matches Dollar w rest → w = EmptyString ∧ at_dollar rest = true.
Proof. by inversion 1. Qed.

Lemma id_pattern_matches w rest :
  matches id_pattern w rest
  ↔ w ≠ EmptyString ∧ all_chars id_char w = true ∧ at_dollar rest = true.
Proof.
  unfold id_pattern, plus. split.
  - intros (w0 & w1 & -> & ->%matches_eps_inv & H1)%matches_seq_inv.
    apply matches_seq_inv in H1 as (w2 & w3 & -> & H2 & (-> & Hd)%matches_dollar_inv).
    apply matches_seq_inv in H2 as (w4 & w5 & -> & (c & -> & Hc)%matches_chr_inv & H5).
    apply star_chr_matches in H5.
    rewrite string_app_nil_l, string_app_nil_r, string_app_cons, string_app_nil_l.
    split_and!; [done| |done]. simpl. apply andb_true_intro. auto.
  - intros (Hw & Hall & Hd). destruct w as [|c w]; [done|].
    simpl in Hall. apply andb_prop in Hall as [Hc Hall].
    apply (matches_seq Eps _ EmptyString (String c w)); [constructor|].
    rewrite <-(string_app_nil_r (String c w)).
    apply matches_seq; [|by constructor].
    apply (matches_seq (Chr id_char) _ (String c EmptyString) w); [by constructor|].
    by apply star_chr_matches.
Qed.

Lemma id_char_not_newline c : id_char c = true → code c ≠ 10.
Proof. intros H Hc. unfold id_char, in_range in H. rewrite Hc in H. done. Qed.

Lemma chomp_id w : all_chars id_char w = true → chomp w = w.
Proof.
  induction w as [|c w IH]; [done|]. simpl. intros [Hc Hw]%andb_prop.
  rewrite IH by done. destruct w; [|done].
  by rewrite bool_decide_eq_false_2 by by apply id_char_not_newline.
Qed.

Lemma chomp_newline w c : code c = 10 → chomp (w +:+ String c EmptyString) = w.
Proof.
  intros Hc. induction w as [|x w IH].
  - rewrite string_app_nil_l. simpl. by rewrite bool_decide_eq_true_2.
  - rewrite string_app_cons. simpl. rewrite IH. by destruct w.
Qed.

Lemma chomp_rest s : ∃ rest, s = chomp s +:+ rest ∧ at_dollar rest = true.
Proof.
  induction s as [|c s (rest & Hs & Hrest)]; [by exists EmptyString|].
  destruct s as [|c' s].
  - simpl. destruct (bool_decide (code c = 10)) eqn:Hc.
    + exists (String c EmptyString). split; [done|]. done.
    + by exists EmptyString.
  - exists rest. split; [|done]. change (chomp (String c (String c' s)))
      with (String c (chomp (String c' s))). by rewrite string_app_cons, <-Hs.
Qed.

(** The id pattern accepts exactly the identifiers. *)
Lemma id_pattern_is_identifier s : re_match id_pattern s = is_identifier s.
Proof.
  apply eq_true_iff_eq. rewrite re_match_prefix. unfold prefix_matches, is_identifier.
  setoid_rewrite id_pattern_matches. split.
  - intros (w & rest & -> & Hw & Hall & Hd).
    assert (chomp (w +:+ rest) = w) as ->.
    { destruct rest as [|c [|]]; try done.
      - rewrite string_app_nil_r. by apply chomp_id.
      - apply chomp_newline. simpl in Hd. by apply bool_decide_eq_true in Hd. }
    by destruct w.
  - intros H. destruct (chomp_rest s) as (rest & Hs & Hrest).
    exists (chomp s), rest. destruct (chomp s); [done|]. by split_and!.
Qed.

Lemma chomp_cases s :
  s = chomp s ∨ ∃ c, code c = 10 ∧ s = chomp s +:+ String c EmptyString.
Proof.
  induction s as [|x s IH]; [by left|].
  destruct s as [|y s].
  - simpl. case_bool_decide as Hx; [right; by exists x|by left].
  - change (chomp (String x (String y s))) with (String x (chomp (String y s))).
    destruct IH as [IH|(c & Hc & IH)].
    + left. by rewrite <-IH.
    + right. exists c. split; [done|]. by rewrite string_app_cons, <-IH.
Qed.

(** X6.  The pattern of the ids, [^[a-zA-Z0-9_-]+$], accepts the non-empty
    words of letters, digits, underscores and hyphens, and these words
    followed by one newline, and nothing else: [$] also matches before a
    newline that ends the text. *)
Theorem id_pattern_language s :
  re_match id_pattern s = true
  ↔ ∃ w, w ≠ EmptyString ∧ all_chars id_char w = true
         ∧ (s = w ∨ ∃ c, code c = 10 ∧ s = w +:+ String c EmptyString).
Proof.
  rewrite id_pattern_is_identifier. unfold is_identifier. split.
  - intros H. exists (chomp s). split_and!.
    + by destruct (chomp s).
    + by destruct (chomp s).
    + apply chomp_cases.
  - intros (w & Hw & Hall & [->|(c & Hc & ->)]).
    + rewrite chomp_id by done. by destruct w.
    + rewrite chomp_newline by done. by destruct w.
Qed.

(** ** When a check appends no error *)

Lemma quiet_ret : quiet (mret tt).
Proof. done. Qed.

Lemma quiet_add_warning f : quiet (add_warning f).
Proof. done. Qed.

Lemma quiet_add_error f : ¬ quiet (add_error f).
Proof. done. Qed.

Lemma quiet_then (m k : M unit) :
  Framed m → Framed k → quiet (m ;; k) ↔ quiet m ∧ quiet k.
Proof.
  intros ??. unfold quiet. rewrite out_then by done. simpl.
  split; [by intros ?%app_eq_nil|by intros [-> ->]].
Qed.

Lemma quiet_when_error b f : quiet (when b (add_error f)) ↔ b = false.
Proof. by destruct b. Qed.

Lemma quiet_when_warning b f : quiet (when b (add_warning f)).
Proof. by destruct b. Qed.

Lemma quiet_required_fields spec :
  quiet (_validate_required_fields spec)
  ↔ missing_or_none (dag_id spec) = false
    ∧ missing_or_none (description spec) = false
    ∧ missing_or_none (tasks spec) = false.
Proof.
  unfold _validate_required_fields.
  destruct (missing_or_none (dag_id spec)), (missing_or_none (description spec)),
    (missing_or_none (schedule spec)), (missing_or_none (tasks spec));
    unfold quiet; simpl; split; (done || by intros (? & ? & ?)).
Qed.

Lemma quiet_dag_id o :
  quiet (_validate_dag_id o)
  ↔ ∀ s, o = Some s → s = EmptyString
                      ∨ (is_identifier s = true ∧ String.length s ≤ 100).
Proof.
  unfold _validate_dag_id. destruct o as [[|c s]|]; cbn [truthy_str negb default from_option id].
  - split; [intros _ ? [= <-]; by left|done].
  - rewrite !quiet_then by apply _. rewrite !quiet_when_error.
    rewrite negb_false_iff, bool_decide_eq_false, id_pattern_is_identifier.
    split.
    + intros (Hid & Hlen & _) ? [= <-]. right. split; [done|lia].
    + intros H. destruct (H _ eq_refl) as [|[Hid Hlen]]; [done|].
      split_and!; [done|lia|apply quiet_when_warning].
  - split; [by intros _ ? [=]|done].
Qed.

Lemma quiet_schedule o : quiet (_validate_schedule o).
Proof.
  unfold _validate_schedule. destruct o as [s|]; [|done].
  repeat case_match; try done. apply quiet_when_warning.
Qed.

Lemma quiet_start_date o :
  quiet (_validate_start_date o)
  ↔ ∀ s, o = Some s → s = EmptyString ∨ is_Some (fromisoformat s).
Proof.
  unfold _validate_start_date. destruct o as [[|c s]|]; cbn [truthy_str negb default from_option id].
  - split; [intros _ ? [= <-]; by left|done].
  - destruct (fromisoformat (String c s)) eqn:Hparse.
    + split; [intros _ ? [= <-]; right; by rewrite Hparse|done].
    + split; [done|]. intros H. destruct (H _ eq_refl) as [|[? Hs]]; [done|].
      by rewrite Hparse in Hs.
  - split; [by intros _ ? [=]|done].
Qed.

Lemma quiet_tasks_loop ts : ∀ i ids,
  quiet (tasks_loop i ts ids)
  ↔ Forall task_fields_ok ts ∧ NoDup (omap task_id ts)
    ∧ (∀ tid, tid ∈ omap task_id ts → tid ∉ ids).
Proof.
  induction ts as [|t ts IH]; intros i ids.
  - split; [intros _|done]. split_and!; [constructor|constructor|].
    by intros ? ?%elem_of_nil.
  - cbn [tasks_loop]. rewrite Forall_cons. unfold task_fields_ok at 1.
    cbn [omap list_omap]. destruct (task_id t) as [tid|] eqn:Hid.
    + rewrite !quiet_then by apply _. rewrite !quiet_when_error, IH.
      rewrite bool_decide_eq_false, negb_false_iff, id_pattern_is_identifier.
      rewrite NoDup_cons.
      assert (quiet (if negb (truthy_str (get (operator_type t)))
                     then add_error (field_finding "field" (indexed "tasks" i "operator_type")
                            ("Task " +:+ quoted tid +:+ " is missing operator_type"))
                     else when (bool_decide (default EmptyString (get (operator_type t))
                                             ∉ VALID_OPERATORS))
                            (add_warning (field_finding "operator"
                               (indexed "tasks" i "operator_type")
                               ("Unknown operator type: " +:+
                                quoted (default EmptyString (get (operator_type t))) +:+
                                ". May not be supported."))))
              ↔ truthy_str (get (operator_type t)) = true) as ->.
      { destruct (truthy_str _); simpl; [|done].
        split; [done|intros _; apply quiet_when_warning]. }
      split.
      * intros (Hdup & Hfmt & Hop & _ & Hall & Hnd & Hfresh).
        split_and!; [by eauto|done|done| |done|].
        -- intros Hin. apply Hfresh in Hin. set_solver.
        -- intros x [->|Hx]%elem_of_cons; [done|]. apply Hfresh in Hx. set_solver.
      * intros ((((tid' & [= <-] & Hfmt) & Hop) & Hall) & [Hnew Hnd] & Hfresh).
        split_and!; [|done|done|apply quiet_when_warning|done|done|].
        -- apply Hfresh. by left.
        -- intros x Hx. assert (x ≠ tid) by (by intros ->).
           assert (x ∉ ids) by (apply Hfresh; by right). set_solver.
    + rewrite quiet_then by apply _. split.
      * by intros [? _].
      * by intros ((((? & ? & _) & _) & _) & _).
Qed.

Lemma quiet_tasks o :
  quiet (_validate_tasks o)
  ↔ ∃ ts, o = Some ts ∧ ts ≠ [] ∧ Forall task_fields_ok ts ∧ NoDup (omap task_id ts).
Proof.
  unfold _validate_tasks. destruct o as [[|t ts]|]; cbn [truthy_list negb default from_option id].
  - split; [done|]. by intros (? & [= <-] & ? & _).
  - rewrite quiet_tasks_loop. split.
    + intros (? & ? & _). by exists (t :: ts).
    + intros (? & [= <-] & _ & ? & ?). split_and!; [done..|]. set_solver.
  - split; [done|]. by intros (? & ? & _).
Qed.

Lemma quiet_connections_loop cs : ∀ i ids,
  quiet (connections_loop i cs ids)
  ↔ Forall sound_connection cs ∧ NoDup (omap conn_id cs)
    ∧ (∀ cid, cid ∈ omap conn_id cs → cid ∉ ids).
Proof.
  induction cs as [|c cs IH]; intros i ids.
  - split; [intros _|done]. split_and!; [constructor|constructor|].
    by intros ? ?%elem_of_nil.
  - cbn [connections_loop]. rewrite Forall_cons. unfold sound_connection at 1.
    cbn [omap list_omap]. destruct (conn_id c) as [cid|] eqn:Hid.
    + rewrite !quiet_then by apply _. rewrite !quiet_when_error, IH.
      rewrite bool_decide_eq_false, bool_decide_eq_false, NoDup_cons.
      split.
      * intros (Hdup & Hty & Hall & Hnd & Hfresh).
        split_and!; [by eauto|by apply not_eq_None_Some|done| |done|].
        -- intros Hin. apply Hfresh in Hin. set_solver.
        -- intros x [->|Hx]%elem_of_cons; [done|]. apply Hfresh in Hx. set_solver.
      * intros (((_ & Hty) & Hall) & [Hnew Hnd] & Hfresh).
        split_and!; [|by apply not_eq_None_Some|done|done|].
        -- apply Hfresh. by left.
        -- intros x Hx. assert (x ≠ cid) by (by intros ->).
           assert (x ∉ ids) by (apply Hfresh; by right). set_solver.
    + rewrite quiet_then by apply _. split.
      * by intros [? _].
      * by intros (([[? ?] _] & _) & _).
Qed.

Lemma quiet_connections cs :
  quiet (_validate_connections cs)
  ↔ Forall sound_connection cs ∧ NoDup (omap conn_id cs).
Proof.
  unfold _validate_connections. rewrite quiet_connections_loop.
  split; [by intros (? & ? & _)|]. intros [? ?]. split_and!; [done..|]. set_solver.
Qed.

Lemma quiet_variables_loop vs : ∀ i ks,
  quiet (variables_loop i vs ks) ↔ Forall (λ v, is_Some (key v)) vs.
Proof.
  induction vs as [|v vs IH]; intros i ks; [done|].
  cbn [variables_loop]. rewrite Forall_cons. destruct (key v) as [k|] eqn:Hk.
  - rewrite !quiet_then by apply _. rewrite IH.
    split; [by intros [_ ?]|]. intros [_ ?]. split; [apply quiet_when_warning|done].
  - rewrite quiet_then by apply _. split; [by intros [? _]|by intros [[? ?] _]].
Qed.

Lemma quiet_variables vs :
  quiet (_validate_variables vs) ↔ Forall (λ v, is_Some (key v)) vs.
Proof. apply quiet_variables_loop. Qed.

Lemma quiet_for_each {A} (l : list A) (body : A → M unit) :
  (∀ x, Framed (body x)) → quiet (for_each l body) ↔ Forall (λ x, quiet (body x)) l.
Proof.
  intros Hfr. induction l as [|x l IH]; [done|].
  cbn [for_each]. rewrite quiet_then, Forall_cons, IH by apply _. done.
Qed.

Lemma quiet_check_references ids t :
  quiet (check_references ids t)
  ↔ ∀ tid, task_id t = Some tid →
           Forall (λ dep, dep ∈ ids ∧ dep ≠ tid) (get_dependencies t).
Proof.
  unfold check_references. destruct (task_id t) as [tid|].
  - rewrite quiet_for_each by apply _. split.
    + intros H ? [= <-]. eapply Forall_impl; [done|]. intros dep. simpl.
      rewrite quiet_then by apply _. rewrite !quiet_when_error.
      rewrite !bool_decide_eq_false. intros [Hin Hne]. split; [|done].
      by apply dec_stable.
    + intros H. eapply Forall_impl; [by apply H|]. intros dep [Hin Hne]. simpl.
      rewrite quiet_then by apply _. rewrite !quiet_when_error.
      rewrite !bool_decide_eq_false. auto.
  - split; [by intros _ ? [=]|done].
Qed.

Lemma quiet_dependencies ts :
  ts ≠ [] →
  quiet (_validate_dependencies (Some ts))
  ↔ Forall (λ t, ∀ tid, task_id t = Some tid →
                   Forall (λ dep, dep ∈ omap task_id ts ∧ dep ≠ tid) (get_dependencies t)) ts
    ∧ _has_circular_dependencies ts = false.
Proof.
  intros Hts. unfold _validate_dependencies. destruct ts as [|t0 ts0]; [done|].
  cbn [truthy_list negb default from_option id].
  rewrite quiet_then, quiet_when_error, quiet_for_each by apply _.
  apply and_iff_compat_r, Forall_proper; [|done]. intros t.
  rewrite quiet_check_references. unfold task_id_set.
  split; intros H tid Htid; (eapply Forall_impl; [by apply H|]); intros dep; set_solver.
Qed.

(** ** With ids that are all different every declared edge is effective *)

Lemma declaration_unique ts t u :
  NoDup (omap task_id ts) → t ∈ ts → task_id t = Some u → declaration ts u = Some t.
Proof.
  induction ts as [|t0 ts IH]; intros Hnd Hin Hid; [by apply elem_of_nil in Hin|].
  cbn [declaration]. simpl in Hnd.
  apply elem_of_cons in Hin as [->|Hin].
  - rewrite Hid in Hnd. apply NoDup_cons in Hnd as [Hnew _].
    rewrite declaration_None by done. by rewrite decide_True.
  - rewrite IH; [done| |done|done].
    destruct (task_id t0); [by apply NoDup_cons in Hnd as [_ ?]|done].
Qed.

Lemma declared_effective ts u v :
  NoDup (omap task_id ts) → declared_edge ts u v → effective_edge ts u v.
Proof.
  intros Hnd (t & Hin & Hid & Hv). exists t. split; [|done].
  by apply declaration_unique.
Qed.

Lemma circular_iff_declared_cycle ts :
  NoDup (omap task_id ts) →
  _has_circular_dependencies ts = true ↔ has_cycle_in (declared_edge ts).
Proof.
  intros Hnd. rewrite has_circular_dependencies_correct.
  apply has_cycle_in_ext. intros u v. split.
  - apply effective_declared.
  - by apply declared_effective.
Qed.

(** ** Validity *)

Lemma errors_nil_quiet ms :
  mjoin ((λ m, self_errors (out m)) <$> ms) = [] ↔ Forall quiet ms.
Proof.
  induction ms as [|m ms IH]; [done|].
  rewrite Forall_cons, <-IH. unfold quiet. apply app_nil.
Qed.

Lemma valid_iff_quiet spec self :
  valid (validate_structure (Some spec) self).1 = true
  ↔ is_empty_dict spec = false ∧ Forall quiet (structure_checks spec).
Proof.
  destruct (is_empty_dict spec) eqn:Hempty.
  - rewrite validate_structure_empty by done. simpl. split; [done|by intros [? _]].
  - rewrite <-errors_nil_quiet.
    change (structure_checks spec) with (structure_checks (default empty_spec (Some spec))).
    rewrite <-(run_errors (Some spec) self) by done.
    destruct (built_validate_structure (Some spec) self) as [st ->].
    rewrite build_result_valid. split; [done|by intros [_ ?]].
Qed.

Lemma sound_tasks_iff ts :
  ts ≠ [] →
  sound_tasks ts
  ↔ (Forall task_fields_ok ts ∧ NoDup (omap task_id ts))
    ∧ quiet (_validate_dependencies (Some ts)).
Proof.
  intros Hts. rewrite quiet_dependencies by done. unfold sound_tasks. split.
  - intros (_ & Hall & Hnd & Hacyc). split_and!; [|done| |].
    + eapply Forall_impl; [done|]. by intros t (? & ? & _).
    + apply Forall_forall. intros t Ht tid Htid.
      rewrite Forall_forall in Hall. destruct (Hall t Ht) as (_ & _ & Hdeps).
      apply Forall_forall. intros dep Hdep. split.
      * rewrite Forall_forall in Hdeps. by apply Hdeps.
      * intros ->. apply Hacyc. exists tid. apply tc_once. by exists t.
    + apply not_true_is_false. by rewrite circular_iff_declared_cycle.
  - intros ((Hfields & Hnd) & Hdeps & Hcirc). split_and!; [done| |done|].
    + apply Forall_forall. intros t Ht.
      rewrite Forall_forall in Hfields, Hdeps.
      destruct (Hfields t Ht) as [(tid & Htid & Hid) Hop].
      split_and!; [by eauto|done|].
      eapply Forall_impl; [by apply (Hdeps t Ht tid)|]. by intros dep [? _].
    + rewrite <-circular_iff_declared_cycle by done. by rewrite Hcirc.
Qed.

Lemma structure_verdict spec self :
  valid (validate_structure (Some spec) self).1 = true ↔ well_formed spec.
Proof.
  rewrite valid_iff_quiet. unfold structure_checks.
  rewrite !Forall_cons, Forall_nil.
  rewrite quiet_required_fields, quiet_dag_id, quiet_start_date, quiet_tasks,
    quiet_connections, quiet_variables.
  split.
  - intros (Hne & (Hid & Hdesc & Hts) & Hfmt & _ & Hdate & (ts & Hget & Hnil & Hfields)
            & Hconn & Hvars & Hdeps & _).
    rewrite Hget in Hdeps.
    destruct (dag_id spec) as [| |s] eqn:Hs; try done.
    destruct (description spec) as [| |d] eqn:Hd; try done.
    destruct (tasks spec) as [| |ts'] eqn:Hts'; try done. injection Hget as ->.
    constructor; [|by eauto| |exists ts; split; [done|]|done|done].
    + exists s. split; [done|]. by apply Hfmt.
    + intros s' Hs'. apply Hdate. by rewrite Hs'.
    + by apply sound_tasks_iff.
  - intros [(s & Hs & Hfmt) [d Hd] Hdate (ts & Hts & Hsound) Hconn Hvars].
    assert (ts ≠ []) as Hnil by apply Hsound.
    apply sound_tasks_iff in Hsound as [Hfields Hdeps]; [|done].
    rewrite Hs, Hd, Hts. simpl.
    split_and!; try done.
    + unfold is_empty_dict. by rewrite Hs.
    + by intros ? [= <-].
    + apply quiet_schedule.
    + intros s' Hs'. apply Hdate. by destruct (start_date spec); simplify_eq/=.
    + by exists ts.
    + apply Hconn.
    + apply Hconn.
Qed.

(** ** The syntax check beyond the empty source *)

Lemma rstrip_cons_nonspace c s : is_space c = false → rstrip (String c s) ≠ EmptyString.
Proof. intros Hc. simpl. rewrite Hc. by destruct (rstrip s). Qed.

Lemma strip_nonempty s : whitespace_only s = false → strip s ≠ EmptyString.
Proof.
  unfold strip. induction s as [|c s IH]; [done|]. simpl.
  destruct (is_space c) eqn:Hc; simpl; [done|].
  intros _. change (rstrip (String c s) ≠ EmptyString). by apply rstrip_cons_nonspace.
Qed.

Lemma nonblank_runs_parser dag_code :
  whitespace_only dag_code = false →
  negb (truthy_str (Some dag_code)) || negb (truthy_str (Some (strip dag_code))) = false.
Proof.
  intros Hws. pose proof (strip_nonempty _ Hws) as Hstrip.
  destruct dag_code; [done|]. by destruct (strip _).
Qed.

Lemma visit_flags walk : ∀ fl,
  foldl visit fl walk
  = mk_flags (has_dag_import fl || existsb imports_airflow walk)
      (has_dag_definition fl || existsb brings_dag walk)
      (has_tasks fl || existsb uses_operator walk).
Proof.
  induction walk as [|node walk IH]; intros [i d t]; simpl.
  - by rewrite !orb_false_r.
  - rewrite IH. destruct node as [[module|] names|[id|]|]; simpl;
      rewrite ?orb_false_l; try done.
    + destruct (contains "airflow" module); simpl; [|done].
      by rewrite orb_true_r, orb_assoc.
    + by rewrite !orb_assoc.
Qed.

Lemma check_dag_structure_out walk :
  out (_check_dag_structure walk) = mk_validator [] (scan_warnings walk).
Proof.
  unfold _check_dag_structure, scan_warnings. rewrite visit_flags. simpl.
  by destruct (existsb imports_airflow walk), (existsb brings_dag walk),
    (existsb uses_operator walk).
Qed.

Global Instance framed_check_dag_structure walk : Framed (_check_dag_structure walk).
Proof. unfold _check_dag_structure. apply _. Qed.

(** X3.  A source the parser accepts is valid; its warnings are those of
    the signals that no node of the tree gives, in the order import, DAG,
    operator, wherever the nodes stand in the tree. *)
Theorem parsed_source_is_valid ast_parse dag_code walk self :
  whitespace_only dag_code = false →
  ast_parse dag_code = Parsed walk →
  (validate_syntax ast_parse dag_code self).1 = mk_result true [] (scan_warnings walk).
Proof.
  intros Hws Hparse. rewrite validate_syntax_fresh. unfold validate_syntax.
  change ((reset ;; ?k) init) with (k init).
  rewrite nonblank_runs_parser, Hparse by done.
  rewrite framed_then by apply _. by rewrite check_dag_structure_out.
Qed.

Lemma parsed_source_is_valid_witness :
  whitespace_only "x" = false
  ∧ (validate_syntax (λ _, Parsed [ImportFrom (Some "airflow.operators.bash") ["BashOperator"];
                                   Call (Some "DAG"); Call (Some "BashOperator")])
       "x" init).1
    = mk_result true []
        (scan_warnings [ImportFrom (Some "airflow.operators.bash") ["BashOperator"];
                        Call (Some "DAG"); Call (Some "BashOperator")]).
Proof.
  split; [reflexivity|].
  apply (parsed_source_is_valid _ "x" _ init); reflexivity.
Defined.

Lemma syntax_verdict ast_parse dag_code self :
  let r := (validate_syntax ast_parse dag_code self).1 in
  (valid r = true ↔ whitespace_only dag_code = false
                    ∧ ∃ walk, ast_parse dag_code = Parsed walk)
  ∧ (valid r = false → length (errors r) = 1 ∧ warnings r = []).
Proof.
  intros r. subst r. rewrite validate_syntax_fresh. unfold validate_syntax.
  change ((reset ;; ?k) init) with (k init).
  destruct (whitespace_only dag_code) eqn:Hws.
  - rewrite (whitespace_only_strip _ Hws), orb_true_r. simpl.
    split; [|done]. split; [done|by intros [? _]].
  - rewrite nonblank_runs_parser by done.
    destruct (ast_parse dag_code) as [walk|lineno msg text|str_e]; simpl.
    + rewrite framed_then, check_dag_structure_out by apply _. simpl.
      split; [|done]. split; [by eauto|done].
    + split; [|done]. split; [done|by intros [_ [? ?]]].
    + split; [|done]. split; [done|by intros [_ [? ?]]].
Qed.

(** X2.  The result of the syntax check is valid exactly when the source is
    not blank and the parser accepts it; otherwise it holds one error and
    no warning. *)
Theorem syntax_valid_iff_parsed ast_parse dag_code self :
  let r := (validate_syntax ast_parse dag_code self).1 in
  (valid r = true ↔ whitespace_only dag_code = false
                    ∧ ∃ walk, ast_parse dag_code = Parsed walk)
  ∧ (valid r = false → length (errors r) = 1 ∧ warnings r = []).
Proof. apply syntax_verdict. Qed.

(** ** The findings of one check among those of a run *)

Lemma count_errors_of_check k m P `{∀ f, Decision (P f)} spec self :
  is_empty_dict spec = false →
  structure_checks spec !! k = Some m →
  Forall (emits_only (λ f, ¬ P f) (λ _, True))
    (take k (structure_checks spec) ++ drop (S k) (structure_checks spec)) →
  count P (errors (validate_structure (Some spec) self).1)
  = count P (self_errors (out m)).
Proof.
  intros Hne Hk [Hbefore Hafter]%Forall_app.
  rewrite (run_errors (Some spec) self) by done. simpl default.
  rewrite <-(take_drop_middle _ _ _ Hk) at 1.
  rewrite !fmap_app, !join_app, !count_app, fmap_cons. simpl mjoin.
  rewrite count_app, !count_errors_none by done. lia.
Qed.

Lemma count_warnings_of_check k m P `{∀ f, Decision (P f)} spec self :
  is_empty_dict spec = false →
  structure_checks spec !! k = Some m →
  Forall (emits_only (λ _, True) (λ f, ¬ P f))
    (take k (structure_checks spec) ++ drop (S k) (structure_checks spec)) →
  count P (warnings (validate_structure (Some spec) self).1)
  = count P (self_warnings (out m)).
Proof.
  intros Hne Hk [Hbefore Hafter]%Forall_app.
  rewrite (run_warnings (Some spec) self) by done. simpl default.
  rewrite <-(take_drop_middle _ _ _ Hk) at 1.
  rewrite !fmap_app, !join_app, !count_app, fmap_cons. simpl mjoin.
  rewrite count_app, !count_warnings_none by done. lia.
Qed.

(** What the three loops can emit, field by field. *)
Section LoopFindings.
Context (Pe Pw : Finding → Prop).

Lemma tasks_loop_findings i ts ids :
  (∀ j name msg, name ∈ ["task_id"; "operator_type"] →
     Pe (field_finding "field" (indexed "tasks" j name) msg)) →
  (∀ msg, Pe (field_finding "duplicate" "task_id" msg)) →
  (∀ j msg, Pe (field_finding "format" (indexed "tasks" j "task_id") msg)) →
  (∀ j msg, Pw (field_finding "operator" (indexed "tasks" j "operator_type") msg)) →
  (∀ j msg, Pw (field_finding "params" (indexed "tasks" j "params") msg)) →
  emits_only Pe Pw (tasks_loop i ts ids).
Proof.
  intros Hfield Hdup Hfmt Hop Hparams. revert i ids.
  induction ts as [|t ts IH]; intros i ids; simpl; emits; auto;
    apply Hfield; set_solver.
Qed.

Lemma connections_loop_findings i cs ids :
  (∀ j name msg, name ∈ ["conn_id"; "conn_type"] →
     Pe (field_finding "field" (indexed "connections" j name) msg)) →
  (∀ msg, Pe (field_finding "duplicate" "conn_id" msg)) →
  emits_only Pe Pw (connections_loop i cs ids).
Proof.
  intros Hfield Hdup. revert i ids.
  induction cs as [|c cs IH]; intros i ids; simpl; emits; auto;
    apply Hfield; set_solver.
Qed.

Lemma variables_loop_findings i vs ks :
  (∀ j msg, Pe (field_finding "field" (indexed "variables" j "key") msg)) →
  (∀ msg, Pw (field_finding "duplicate" "variable_key" msg)) →
  emits_only Pe Pw (variables_loop i vs ks).
Proof.
  intros Hfield Hdup. revert i ks.
  induction vs as [|v vs IH]; intros i ks; simpl; emits; auto.
Qed.
End LoopFindings.

(** Findings told apart by kind and field, for the kinds of this section. *)
Ltac apart := unfold is_finding, has_type, about_field; distinct.

(** ** The dag id *)

Lemma out_when_error b f :
  out (when b (add_error f)) = mk_validator (if b then [f] else []) [].
Proof. by destruct b. Qed.

Lemma out_when_warning b f :
  out (when b (add_warning f)) = mk_validator [] (if b then [f] else []).
Proof. by destruct b. Qed.

(** X5.  For a dag id that is a non-empty string, the errors of kind format
    on dag_id are one when the id is no identifier plus one when it is
    longer than 100 characters, and there is one warning when it has an
    upper-case letter. *)
Theorem dag_id_findings spec s self :
  dag_id spec = Present s → s ≠ EmptyString →
  let r := (validate_structure (Some spec) self).1 in
  count (is_finding "format" "dag_id") (errors r)
  = (if is_identifier s then 0 else 1) + (if bool_decide (100 < String.length s) then 1 else 0)
  ∧ count (is_finding "format" "dag_id") (warnings r)
    = (if bool_decide (s = lower s) then 0 else 1).
Proof.
  intros Hid Hs r. subst r.
  assert (is_empty_dict spec = false) as Hne.
  { unfold is_empty_dict. by rewrite Hid. }
  assert (structure_checks spec !! 1 = Some (_validate_dag_id (Some s))) as Hk.
  { simpl. by rewrite Hid. }
  split.
  - rewrite (count_errors_of_check 1 _ _ spec self Hne Hk).
    + unfold _validate_dag_id. destruct s as [|c s]; [done|].
      cbn [truthy_str negb default from_option id].
      rewrite !out_then by apply _. rewrite !out_when_error, out_when_warning.
      rewrite id_pattern_is_identifier. unfold extend. cbn [self_errors].
      rewrite app_nil_r, count_app.
      destruct (is_identifier _), (bool_decide (100 < _)); by vm_compute.
    + simpl. repeat apply Forall_cons_2; [..|done].
      * unfold _validate_required_fields, for_each. emits; apart.
      * unfold _validate_schedule. emits; apart.
      * unfold _validate_start_date. emits; apart.
      * unfold _validate_tasks. emits; [apart|]. apply tasks_loop_findings; apart.
      * apply connections_loop_findings; apart.
      * apply variables_loop_findings; apart.
      * apply dependencies_emits; apart.
  - rewrite (count_warnings_of_check 1 _ _ spec self Hne Hk).
    + unfold _validate_dag_id. destruct s as [|c s]; [done|].
      cbn [truthy_str negb default from_option id].
      rewrite !out_then by apply _. rewrite !out_when_error, out_when_warning.
      unfold extend. cbn [self_warnings app].
      destruct (decide (String c s = lower (String c s))) as [Heq|Hneq].
      * by rewrite (bool_decide_eq_true_2 _ Heq), bool_decide_eq_false_2 by auto.
      * rewrite (bool_decide_eq_false_2 _ Hneq), bool_decide_eq_true_2 by auto.
        by rewrite count_cons, decide_True.
    + simpl. repeat apply Forall_cons_2; [..|done].
      * unfold _validate_required_fields, for_each. emits; apart.
      * unfold _validate_schedule. emits; apart.
      * unfold _validate_start_date. emits; apart.
      * unfold _validate_tasks. emits; [apart|]. apply tasks_loop_findings; apart.
      * apply connections_loop_findings; apart.
      * apply variables_loop_findings; apart.
      * apply dependencies_emits; apart.
Qed.

Lemma dag_id_findings_witness :
  let spec := mk_spec (Present "My Dag") (Present "Test") (Present "@daily") Absent
                (Present [example_task "task1" []]) None None [] in
  let r := (validate_structure (Some spec) init).1 in
  count (is_finding "format" "dag_id") (errors r) = 1
  ∧ count (is_finding "format" "dag_id") (warnings r) = 1.
Proof.
  exact (dag_id_findings
           (mk_spec (Present "My Dag") (Present "Test") (Present "@daily") Absent
              (Present [example_task "task1" []]) None None [])
           "My Dag" init eq_refl ltac:(done)).
Defined.

Lemma count_errors_quiet P `{∀ f, Decision (P f)} m :
  emits_only (λ f, ¬ P f) (λ _, True) m → count P (self_errors (out m)) = 0.
Proof. intros [He _]. by apply count_none. Qed.

Lemma count_warnings_quiet P `{∀ f, Decision (P f)} m :
  emits_only (λ _, True) (λ f, ¬ P f) m → count P (self_warnings (out m)) = 0.
Proof. intros [_ Hw]. by apply count_none. Qed.

(** ** Ids used twice *)

Lemma tasks_loop_duplicates ts : ∀ i ids,
  count (is_finding "duplicate" "task_id") (self_errors (out (tasks_loop i ts ids)))
  + size (list_to_set (omap task_id ts) ∖ ids)
  = length (omap task_id ts).
Proof.
  induction ts as [|t ts IH]; intros i ids.
  - simpl. rewrite difference_disjoint_L by set_solver. by rewrite size_empty.
  - cbn [tasks_loop omap list_omap]. destruct (task_id t) as [tid|] eqn:Hid.
    + rewrite !out_then by apply _. rewrite out_when_error.
      unfold extend. cbn [self_errors]. rewrite !count_app.
      repeat match goal with
             | |- context [count _ (self_errors (out (when ?b ?m)))] =>
                 rewrite (count_errors_quiet _ (when b m)) by (emits; apart)
             | |- context [count _ (self_errors (out (if ?b then ?m else ?k)))] =>
                 rewrite (count_errors_quiet _ (if b then m else k)) by (emits; apart)
             end.
      specialize (IH (S i) ({[tid]} ∪ ids)).
      simpl length. rewrite list_to_set_cons.
      destruct (decide (tid ∈ ids)) as [Hin|Hout].
      * rewrite bool_decide_eq_true_2 by done.
        rewrite count_cons, decide_True by done. unfold count at 1. simpl filter.
        replace (({[tid]} ∪ list_to_set (omap task_id ts)) ∖ ids)
          with (list_to_set (omap task_id ts) ∖ ({[tid]} ∪ ids) : gset string)
          by set_solver.
        simpl. lia.
      * rewrite bool_decide_eq_false_2 by done. unfold count at 1. simpl filter.
        replace (({[tid]} ∪ list_to_set (omap task_id ts)) ∖ ids)
          with ({[tid]} ∪ list_to_set (omap task_id ts) ∖ ({[tid]} ∪ ids) : gset string)
          by (apply set_eq; intros x; destruct (decide (x = tid)); set_solver).
        rewrite size_union, size_singleton by set_solver. simpl. lia.
    + rewrite out_then by apply _. unfold extend. cbn [self_errors].
      rewrite count_app, (count_none _ (self_errors (out (add_error _)))).
      * apply IH.
      * repeat constructor. by intros [? _].
Qed.

(** X11.  The errors about a task id used again and the different ids add
    up to the tasks that have an id: every occurrence of an id after its
    first gets one error. *)
Theorem duplicate_task_ids_counted spec self :
  count (is_finding "duplicate" "task_id")
    (errors (validate_structure (Some spec) self).1)
  + size (task_id_set (tasks_of spec))
  = length (omap task_id (tasks_of spec)).
Proof.
  destruct (is_empty_dict spec) eqn:Hne.
  - rewrite validate_structure_empty, empty_dict_tasks by done. by vm_compute.
  - rewrite (count_errors_of_check 4 (_validate_tasks (get_or (tasks spec) [])) _ spec self Hne);
      [|done|].
    + unfold tasks_of, _validate_tasks, task_id_set.
      destruct (tasks spec) as [| |[|t ts]]; [by vm_compute..|].
      cbn [get get_or truthy_list negb default from_option id].
      rewrite <-(tasks_loop_duplicates (t :: ts) 0 ∅). f_equal. f_equal. set_solver.
    + simpl. repeat apply Forall_cons_2; [..|done].
      * unfold _validate_required_fields, for_each. emits; apart.
      * unfold _validate_dag_id. emits; apart.
      * unfold _validate_schedule. emits; apart.
      * unfold _validate_start_date. emits; apart.
      * apply connections_loop_findings; apart.
      * apply variables_loop_findings; apart.
      * apply dependencies_emits; apart.
Qed.

(** ** No task *)

Lemma dependencies_out_no_task o :
  truthy_list o = false → out (_validate_dependencies o) = init.
Proof. intros H. unfold _validate_dependencies. by rewrite H. Qed.

(** X9.  The result holds exactly one error of kind structure when the
    specification has no task, and none otherwise; without a task no error
    of kind dependency is reported. *)
Theorem no_task_one_structure_error spec self :
  let r := (validate_structure (Some spec) self).1 in
  count (has_type "structure") (errors r)
  = (if truthy_list (get_or (tasks spec) []) then 0 else 1)
  ∧ (truthy_list (get_or (tasks spec) []) = false →
     count (has_type "dependency") (errors r) = 0).
Proof.
  intros r. subst r. destruct (is_empty_dict spec) eqn:Hne.
  - rewrite validate_structure_empty by done.
    assert (tasks spec = Absent) as ->; [|by split].
    revert Hne. unfold is_empty_dict. destruct (tasks spec); simpl; [done|..];
      by rewrite !andb_false_r.
  - split.
    + rewrite (count_errors_of_check 4 (_validate_tasks (get_or (tasks spec) [])) _ spec self Hne);
        [|done|].
      * unfold _validate_tasks. destruct (truthy_list _); cbn [negb]; [|done].
        apply count_errors_quiet. apply tasks_loop_findings; apart.
      * simpl. repeat apply Forall_cons_2; [..|done].
        -- unfold _validate_required_fields, for_each. emits; apart.
        -- unfold _validate_dag_id. emits; apart.
        -- unfold _validate_schedule. emits; apart.
        -- unfold _validate_start_date. emits; apart.
        -- apply connections_loop_findings; apart.
        -- apply variables_loop_findings; apart.
        -- apply dependencies_emits; apart.
    + intros Hno.
      rewrite (count_errors_of_check 7 (_validate_dependencies (get_or (tasks spec) []))
                 _ spec self Hne); [|done|].
      * by rewrite dependencies_out_no_task.
      * simpl. repeat apply Forall_cons_2; [..|done].
        -- unfold _validate_required_fields, for_each. emits; apart.
        -- unfold _validate_dag_id. emits; apart.
        -- unfold _validate_schedule. emits; apart.
        -- unfold _validate_start_date. emits; apart.
        -- unfold _validate_tasks. emits; [apart|]. apply tasks_loop_findings; apart.
        -- apply connections_loop_findings; apart.
        -- apply variables_loop_findings; apart.
Qed.

Lemma no_task_one_structure_error_witness :
  let r := (validate_structure (Some (example_spec [])) init).1 in
  count (has_type "structure") (errors r) = 1
  ∧ count (has_type "dependency") (errors r) = 0.
Proof.
  destruct (no_task_one_structure_error (example_spec []) init) as [Hone Hnone].
  split; [exact Hone|exact (Hnone eq_refl)].
Defined.

(** ** Check by check *)

Lemma count_errors_run P `{∀ f, Decision (P f)} spec self :
  is_empty_dict spec = false →
  count P (errors (validate_structure (Some spec) self).1)
  = sum_list ((λ m, count P (self_errors (out m))) <$> structure_checks spec).
Proof.
  intros Hne. rewrite (run_errors (Some spec) self) by done. simpl default.
  induction (structure_checks spec) as [|m ms IH]; [done|].
  rewrite !fmap_cons. cbn [mjoin list_join sum_list sum_list_with]. rewrite count_app.
  unfold id. f_equal. apply IH.
Qed.

Lemma count_warnings_run P `{∀ f, Decision (P f)} spec self :
  is_empty_dict spec = false →
  count P (warnings (validate_structure (Some spec) self).1)
  = sum_list ((λ m, count P (self_warnings (out m))) <$> structure_checks spec).
Proof.
  intros Hne. rewrite (run_warnings (Some spec) self) by done. simpl default.
  induction (structure_checks spec) as [|m ms IH]; [done|].
  rewrite !fmap_cons. cbn [mjoin list_join sum_list sum_list_with]. rewrite count_app.
  unfold id. f_equal. apply IH.
Qed.

(** The checks that cannot emit a finding of the sort counted count zero. *)
Ltac silent :=
  first
    [ unfold _validate_required_fields, for_each; by (emits; apart)
    | unfold _validate_dag_id; by (emits; apart)
    | unfold _validate_schedule; by (emits; apart)
    | unfold _validate_start_date; by (emits; apart)
    | unfold _validate_tasks; emits; [by apart|]; by (apply tasks_loop_findings; apart)
    | unfold _validate_tasks; emits; by apart
    | by (apply tasks_loop_findings; apart)
    | by (apply connections_loop_findings; apart)
    | by (apply variables_loop_findings; apart)
    | by (apply dependencies_emits; apart) ].

Ltac others :=
  repeat match goal with
         | |- context [count ?P (self_errors (out ?m))] =>
             rewrite (count_errors_quiet P m) by silent
         | |- context [count ?P (self_warnings (out ?m))] =>
             rewrite (count_warnings_quiet P m) by silent
         end.

Lemma required_fields_out spec :
  out (_validate_required_fields spec)
  = mk_validator
      ((if missing_or_none (dag_id spec)
        then [field_finding "field" "dag_id"
                ("Required field " +:+ quoted "dag_id" +:+ " is missing or null")]
        else [])
       ++ (if missing_or_none (description spec)
           then [field_finding "field" "description"
                   ("Required field " +:+ quoted "description" +:+ " is missing or null")]
           else [])
       ++ (if missing_or_none (tasks spec)
           then [field_finding "field" "tasks"
                   ("Required field " +:+ quoted "tasks" +:+ " is missing or null")]
           else []))
      (if missing_or_none (schedule spec)
       then [field_finding "field" "schedule"
               "Schedule is None - DAG will not run automatically"] else []).
Proof.
  unfold _validate_required_fields, for_each.
  destruct (missing_or_none (dag_id spec)), (missing_or_none (description spec)),
    (missing_or_none (schedule spec)), (missing_or_none (tasks spec)); by vm_compute.
Qed.

(** X4.  For a specification that is not empty, each of the keys dag_id,
    description and tasks that is missing or None gets exactly one error of
    kind field and a key that is there gets none; a missing schedule gets
    one warning of kind field. *)
Theorem required_fields_findings spec self :
  is_empty_dict spec = false →
  let r := (validate_structure (Some spec) self).1 in
  count (is_finding "field" "dag_id") (errors r)
  = (if missing_or_none (dag_id spec) then 1 else 0)
  ∧ count (is_finding "field" "description") (errors r)
    = (if missing_or_none (description spec) then 1 else 0)
  ∧ count (is_finding "field" "tasks") (errors r)
    = (if missing_or_none (tasks spec) then 1 else 0)
  ∧ count (is_finding "field" "schedule") (warnings r)
    = (if missing_or_none (schedule spec) then 1 else 0).
Proof.
  intros Hne r. subst r.
  rewrite !count_errors_run, count_warnings_run by done.
  cbn [structure_checks fmap list_fmap sum_list sum_list_with].
  rewrite required_fields_out. cbn [self_errors self_warnings].
  others. rewrite !count_app.
  by destruct (missing_or_none (dag_id spec)), (missing_or_none (description spec)),
    (missing_or_none (schedule spec)), (missing_or_none (tasks spec)).
Qed.

Lemma required_fields_findings_witness :
  let spec := mk_spec (Present "etl") Null Absent Absent (Present []) None None [] in
  let r := (validate_structure (Some spec) init).1 in
  count (is_finding "field" "dag_id") (errors r) = 0
  ∧ count (is_finding "field" "description") (errors r) = 1
  ∧ count (is_finding "field" "tasks") (errors r) = 0
  ∧ count (is_finding "field" "schedule") (warnings r) = 1.
Proof.
  exact (required_fields_findings
           (mk_spec (Present "etl") Null Absent Absent (Present []) None None [])
           init eq_refl).
Defined.

(** X7.  No error is ever reported on the field schedule, and at most one
    warning: for a schedule that is missing or None, or for one that is
    neither a preset nor matched by the cron pattern. *)
Theorem schedule_only_warns spec self :
  let r := (validate_structure (Some spec) self).1 in
  count (about_field "schedule") (errors r) = 0
  ∧ count (about_field "schedule") (warnings r) ≤ 1.
Proof.
  intros r. subst r. destruct (is_empty_dict spec) eqn:Hne.
  { rewrite validate_structure_empty by done. vm_compute. split; lia. }
  rewrite count_errors_run, count_warnings_run by done.
  cbn [structure_checks fmap list_fmap sum_list sum_list_with].
  rewrite required_fields_out. cbn [self_errors self_warnings].
  others. split.
  - rewrite !count_app.
    by destruct (missing_or_none (dag_id spec)), (missing_or_none (description spec)),
      (missing_or_none (tasks spec)).
  - unfold _validate_schedule.
    destruct (schedule spec) as [| |s]; [vm_compute; lia..|].
    cbn [missing_or_none get]. repeat case_bool_decide; [vm_compute; lia..|].
    rewrite out_when_warning. cbn [self_warnings].
    destruct (negb _); vm_compute; lia.
Qed.

(** X8.  For a specification that is not empty, a start date that is
    missing, None or the empty string gets exactly one warning and no
    error; a start date that is there gets no warning. *)
Theorem start_date_default_warned spec self :
  is_empty_dict spec = false →
  let r := (validate_structure (Some spec) self).1 in
  count (about_field "start_date") (warnings r)
  = (if truthy_str (get (start_date spec)) then 0 else 1)
  ∧ (truthy_str (get (start_date spec)) = false →
     count (about_field "start_date") (errors r) = 0).
Proof.
  intros Hne r. subst r.
  rewrite count_errors_run, count_warnings_run by done.
  cbn [structure_checks fmap list_fmap sum_list sum_list_with].
  rewrite required_fields_out. cbn [self_errors self_warnings].
  others. unfold _validate_start_date. split.
  - destruct (truthy_str _) eqn:Ht; cbn [negb].
    + destruct (missing_or_none (schedule spec)), (fromisoformat _); by vm_compute.
    + by destruct (missing_or_none (schedule spec)).
  - intros ->. cbn [negb]. rewrite !count_app.
    by destruct (missing_or_none (dag_id spec)), (missing_or_none (description spec)),
      (missing_or_none (tasks spec)).
Qed.

Lemma start_date_default_warned_witness :
  let r := (validate_structure (Some empty_id_spec) init).1 in
  count (about_field "start_date") (warnings r) = 1
  ∧ count (about_field "start_date") (errors r) = 0.
Proof.
  destruct (start_date_default_warned empty_id_spec init eq_refl) as [Hwarn Herr].
  split; [exact Hwarn|exact (Herr eq_refl)].
Defined.

(** ** The findings of one task *)

Lemma count_when_error P `{∀ f, Decision (P f)} b f :
  count P (self_errors (out (when b (add_error f))))
  = if b then (if decide (P f) then 1 else 0) else 0.
Proof. rewrite out_when_error. destruct b; [|done]. cbn [self_errors]. by rewrite count_cons. Qed.

Lemma count_when_warning P `{∀ f, Decision (P f)} b f :
  count P (self_warnings (out (when b (add_warning f))))
  = if b then (if decide (P f) then 1 else 0) else 0.
Proof. rewrite out_when_warning. destruct b; [|done]. cbn [self_warnings]. by rewrite count_cons. Qed.

Lemma tasks_field_last i name :
  name ≠ EmptyString → last_char (indexed "tasks" i name) = last_char name.
Proof. intros Hname. unfold indexed. by last_char. Qed.

Lemma tasks_field_inj i j n1 n2 :
  n1 ∈ ["task_id"; "operator_type"; "params"] →
  n2 ∈ ["task_id"; "operator_type"; "params"] →
  indexed "tasks" i n1 = indexed "tasks" j n2 → i = j.
Proof.
  intros H1 H2 Heq.
  assert (last_char n1 = last_char n2) as Hlast.
  { rewrite <-(tasks_field_last i n1), <-(tasks_field_last j n2), Heq; [done|..].
    - intros ->. set_solver.
    - intros ->. set_solver. }
  assert (n1 = n2) as ->.
  { repeat match goal with
           | H : _ ∈ [] |- _ => by apply elem_of_nil in H
           | H : _ ∈ _ :: _ |- _ => apply elem_of_cons in H as [->|H]
           end; done. }
  by apply indexed_inj in Heq.
Qed.

Lemma about_task_at i j ty name msg :
  name ∈ ["task_id"; "operator_type"; "params"] →
  about_task i (field_finding ty (indexed "tasks" j name) msg) ↔ i = j.
Proof.
  intros Hname. unfold about_task. cbn [field field_finding]. split.
  - rewrite !elem_of_cons, elem_of_nil.
    intros [H|[H|[H|[]]]]; apply (inj Some) in H; symmetry;
      refine (tasks_field_inj _ _ _ _ Hname _ H); set_solver.
  - intros ->. set_solver.
Qed.

Lemma decide_about_task i j ty name msg :
  name ∈ ["task_id"; "operator_type"; "params"] →
  (if decide (about_task i (field_finding ty (indexed "tasks" j name) msg)) then 1 else 0)
  = if decide (i = j) then 1 else 0.
Proof.
  intros Hname. pose proof (about_task_at i j ty name msg Hname).
  destruct (decide (about_task _ _)), (decide (i = j)); tauto.
Qed.

Lemma not_about_task_duplicate i msg :
  ¬ about_task i (field_finding "duplicate" "task_id" msg).
Proof.
  unfold about_task. cbn [field field_finding]. unfold indexed.
  rewrite !elem_of_cons, elem_of_nil. by intros [H|[H|[H|[]]]].
Qed.

Lemma count_add_error P `{∀ f, Decision (P f)} f :
  count P (self_errors (out (add_error f))) = if decide (P f) then 1 else 0.
Proof. change (out (add_error f)) with (mk_validator [f] []). cbn [self_errors]. by rewrite count_cons. Qed.

Lemma count_errors_when_warning P `{∀ f, Decision (P f)} b f :
  count P (self_errors (out (when b (add_warning f)))) = 0.
Proof. by destruct b. Qed.

Lemma loop_rest {A} (i j : nat) (t : A) ts :
  (if decide (S j ≤ i) then ts !! (i - S j) else None)
  = if decide (j = i) then None
    else if decide (j ≤ i) then (t :: ts) !! (i - j) else None.
Proof.
  destruct (decide (j = i)) as [->|Hne].
  - by rewrite decide_False by lia.
  - destruct (decide (j ≤ i)).
    + rewrite decide_True by lia. by replace (i - j) with (S (i - S j)) by lia.
    + by rewrite decide_False by lia.
Qed.

Lemma tasks_loop_task_errors i : ∀ ts j ids,
  count (about_task i) (self_errors (out (tasks_loop j ts ids)))
  = match (if decide (j ≤ i) then ts !! (i - j) else None) with
    | Some t => task_error_count t
    | None => 0
    end.
Proof.
  induction ts as [|t ts IH]; intros j ids.
  - simpl. by destruct (decide (j ≤ i)).
  - cbn [tasks_loop]. unfold task_error_count.
    destruct (task_id t) as [tid|] eqn:Hid.
    + rewrite !out_then by apply _. cbn [self_errors extend].
      rewrite !count_app, IH, (loop_rest i j t ts).
      rewrite !count_when_error, count_errors_when_warning, id_pattern_is_identifier.
      rewrite decide_about_task by set_solver.
      rewrite (decide_False (P := about_task i (field_finding "duplicate" _ _)))
        by apply not_about_task_duplicate.
      destruct (truthy_str (get (operator_type t))) eqn:Hop; cbn [negb].
      * rewrite count_errors_when_warning.
        destruct (decide (j = i)) as [->|Hne].
        -- rewrite decide_True, decide_True, Nat.sub_diag by lia.
           change ((t :: ts) !! 0) with (Some t). cbv iota. rewrite Hid, Hop.
           by destruct (bool_decide (tid ∈ ids)), (is_identifier tid).
        -- rewrite (decide_False (P := i = j)) by done.
           by destruct (bool_decide (tid ∈ ids)), (is_identifier tid).
      * rewrite count_add_error, decide_about_task by set_solver.
        destruct (decide (j = i)) as [->|Hne].
        -- rewrite decide_True, decide_True, Nat.sub_diag by lia.
           change ((t :: ts) !! 0) with (Some t). cbv iota. rewrite Hid, Hop.
           by destruct (bool_decide (tid ∈ ids)), (is_identifier tid).
        -- rewrite (decide_False (P := i = j)) by done.
           by destruct (bool_decide (tid ∈ ids)), (is_identifier tid).
    + rewrite out_then by apply _. cbn [self_errors extend].
      rewrite count_app, IH, (loop_rest i j t ts), count_add_error.
      rewrite decide_about_task by set_solver.
      destruct (decide (j = i)) as [->|Hne].
      * rewrite decide_True, decide_True, Nat.sub_diag by lia.
        change ((t :: ts) !! 0) with (Some t). cbv iota. by rewrite Hid.
      * by rewrite (decide_False (P := i = j)) by done.
Qed.

Lemma count_add_warning P `{∀ f, Decision (P f)} f :
  count P (self_warnings (out (add_warning f))) = if decide (P f) then 1 else 0.
Proof.
  change (out (add_warning f)) with (mk_validator [] [f]). cbn [self_warnings].
  by rewrite count_cons.
Qed.

Lemma count_warnings_when_error P `{∀ f, Decision (P f)} b f :
  count P (self_warnings (out (when b (add_error f)))) = 0.
Proof. by destruct b. Qed.

Lemma count_warnings_add_error P `{∀ f, Decision (P f)} f :
  count P (self_warnings (out (add_error f))) = 0.
Proof. done. Qed.

Lemma tasks_loop_task_warnings i : ∀ ts j ids,
  count (about_task i) (self_warnings (out (tasks_loop j ts ids)))
  = match (if decide (j ≤ i) then ts !! (i - j) else None) with
    | Some t => task_warning_count t
    | None => 0
    end.
Proof.
  induction ts as [|t ts IH]; intros j ids.
  - simpl. by destruct (decide (j ≤ i)).
  - cbn [tasks_loop]. unfold task_warning_count, lacks_params.
    destruct (task_id t) as [tid|] eqn:Hid.
    + rewrite !out_then by apply _. cbn [self_warnings extend].
      rewrite !count_app, IH, (loop_rest i j t ts).
      rewrite !count_warnings_when_error, count_when_warning.
      rewrite decide_about_task by set_solver.
      destruct (truthy_str (get (operator_type t))) eqn:Hop; cbn [negb andb].
      * rewrite count_when_warning, decide_about_task by set_solver.
        destruct (decide (j = i)) as [->|Hne].
        -- rewrite decide_True, decide_True, Nat.sub_diag by lia.
           change ((t :: ts) !! 0) with (Some t). cbv iota. rewrite Hid, Hop.
           rewrite (bool_decide_eq_true_2 (is_Some (Some tid))) by done. cbn [andb].
           by destruct (bool_decide _), (negb _).
        -- rewrite (decide_False (P := i = j)) by done.
           by destruct (bool_decide _), (negb _).
      * rewrite count_warnings_add_error.
        destruct (decide (j = i)) as [->|Hne]; [|done].
        rewrite decide_True, Nat.sub_diag by lia.
        change ((t :: ts) !! 0) with (Some t). cbv iota. rewrite Hid, Hop.
        by rewrite andb_false_r.
    + rewrite out_then by apply _. cbn [self_warnings extend].
      rewrite count_app, IH, (loop_rest i j t ts), count_warnings_add_error.
      destruct (decide (j = i)) as [->|Hne]; [|done].
      rewrite decide_True, Nat.sub_diag by lia.
      change ((t :: ts) !! 0) with (Some t). cbv iota. by rewrite Hid.
Qed.

(** The findings of other checks are not about a task. *)
Ltac aloof :=
  intros; unfold about_task; cbn [field field_finding]; unfold indexed;
  rewrite !elem_of_cons, elem_of_nil; by intros [?|[?|[?|[]]]].

Lemma other_checks_not_about_task i spec :
  Forall (emits_only (λ f, ¬ about_task i f) (λ f, ¬ about_task i f))
    (take 4 (structure_checks spec) ++ drop 5 (structure_checks spec)).
Proof.
  simpl. repeat apply Forall_cons_2; [..|done].
  - unfold _validate_required_fields, for_each. emits; aloof.
  - unfold _validate_dag_id. emits; aloof.
  - unfold _validate_schedule. emits; aloof.
  - unfold _validate_start_date. emits; aloof.
  - apply connections_loop_findings; aloof.
  - apply variables_loop_findings; aloof.
  - apply dependencies_emits; aloof.
Qed.

(** X10.  What is reported on the fields of the task at index [i] depends
    on that task alone.  A task without task_id gets one error and nothing
    else: its operator type and parameters are not looked at.  A task with
    an id gets an error when the id is no identifier, an error when the
    operator type is missing or empty, a warning when the operator type is
    not in the list, and a warning when it has no parameters. *)
Theorem task_findings spec ts i t self :
  tasks spec = Present ts → ts !! i = Some t →
  let r := (validate_structure (Some spec) self).1 in
  count (about_task i) (errors r) = task_error_count t
  ∧ count (about_task i) (warnings r) = task_warning_count t.
Proof.
  intros Hts Hi r. subst r.
  assert (is_empty_dict spec = false) as Hne.
  { unfold is_empty_dict. rewrite Hts. simpl. by rewrite !andb_false_r. }
  assert (structure_checks spec !! 4 = Some (_validate_tasks (Some ts))) as Hk.
  { simpl. by rewrite Hts. }
  assert (ts ≠ []) as Hts' by (by intros ->).
  pose proof (other_checks_not_about_task i spec) as Hother.
  split.
  - rewrite (count_errors_of_check 4 _ _ spec self Hne Hk).
    + unfold _validate_tasks. destruct ts as [|t0 ts]; [done|].
      cbn [truthy_list negb default from_option id].
      rewrite tasks_loop_task_errors, decide_True by lia. by rewrite Nat.sub_0_r, Hi.
    + eapply Forall_impl; [done|]. intros m. by apply emits_only_impl.
  - rewrite (count_warnings_of_check 4 _ _ spec self Hne Hk).
    + unfold _validate_tasks. destruct ts as [|t0 ts]; [done|].
      cbn [truthy_list negb default from_option id].
      rewrite tasks_loop_task_warnings, decide_True by lia. by rewrite Nat.sub_0_r, Hi.
    + eapply Forall_impl; [done|]. intros m. by apply emits_only_impl.
Qed.

Lemma task_findings_witness :
  let t := mk_task None Absent Absent Absent (Some ["ghost"]) in
  let r := (validate_structure (Some (example_spec [t])) init).1 in
  count (about_task 0) (errors r) = 1 ∧ count (about_task 0) (warnings r) = 0.
Proof.
  exact (task_findings (example_spec [mk_task None Absent Absent Absent (Some ["ghost"])])
           [mk_task None Absent Absent Absent (Some ["ghost"])] 0
           (mk_task None Absent Absent Absent (Some ["ghost"])) init eq_refl eq_refl).
Defined.

(** ** Connections and variables named twice *)

Lemma size_seen (x : string) (xs ids : gset string) :
  size (({[x]} ∪ xs) ∖ ids)
  = if decide (x ∈ ids) then size (xs ∖ ({[x]} ∪ ids))
    else S (size (xs ∖ ({[x]} ∪ ids))).
Proof.
  destruct (decide (x ∈ ids)) as [Hin|Hout].
  - f_equal. set_solver.
  - replace (({[x]} ∪ xs) ∖ ids) with ({[x]} ∪ xs ∖ ({[x]} ∪ ids) : gset string)
      by (apply set_eq; intros y; destruct (decide (y = x)); set_solver).
    by rewrite size_union, size_singleton by set_solver.
Qed.

Lemma connections_loop_duplicates cs : ∀ i ids,
  count (is_finding "duplicate" "conn_id") (self_errors (out (connections_loop i cs ids)))
  + size (list_to_set (omap conn_id cs) ∖ ids)
  = length (omap conn_id cs).
Proof.
  induction cs as [|c cs IH]; intros i ids.
  - simpl. rewrite difference_disjoint_L by set_solver. by rewrite size_empty.
  - cbn [connections_loop omap list_omap]. destruct (conn_id c) as [cid|] eqn:Hid.
    + rewrite !out_then by apply _. cbn [self_errors extend].
      rewrite !count_app, !count_when_error.
      rewrite decide_True by done.
      rewrite (decide_False (P := is_finding _ _ (field_finding "field" _ _))) by apart.
      specialize (IH (S i) ({[cid]} ∪ ids)).
      simpl length. rewrite list_to_set_cons, size_seen.
      destruct (decide (cid ∈ ids)).
      * rewrite bool_decide_eq_true_2 by done. destruct (bool_decide (conn_type c = None)); lia.
      * rewrite bool_decide_eq_false_2 by done. destruct (bool_decide (conn_type c = None)); lia.
    + rewrite out_then by apply _. cbn [self_errors extend].
      rewrite count_app, count_add_error, decide_False by apart. apply IH.
Qed.

(** X12.  The errors about a connection id used again and the different
    ids add up to the connections that have an id. *)
Theorem duplicate_conn_ids_counted spec self :
  let cs := default [] (connections spec) in
  count (is_finding "duplicate" "conn_id")
    (errors (validate_structure (Some spec) self).1)
  + size (list_to_set (omap conn_id cs) : gset string)
  = length (omap conn_id cs).
Proof.
  intros cs. subst cs. destruct (is_empty_dict spec) eqn:Hne.
  - rewrite validate_structure_empty by done.
    assert (connections spec = None) as ->; [|by vm_compute].
    revert Hne. unfold is_empty_dict. destruct (connections spec); simpl; [|done].
    by rewrite !andb_false_r.
  - rewrite (count_errors_of_check 5 (_validate_connections (default [] (connections spec)))
               _ spec self Hne); [|done|].
    + unfold _validate_connections.
      rewrite <-(connections_loop_duplicates (default [] (connections spec)) 0 ∅).
      f_equal. f_equal. set_solver.
    + simpl. repeat apply Forall_cons_2; [..|done].
      * unfold _validate_required_fields, for_each. emits; apart.
      * unfold _validate_dag_id. emits; apart.
      * unfold _validate_schedule. emits; apart.
      * unfold _validate_start_date. emits; apart.
      * unfold _validate_tasks. emits; [apart|]. apply tasks_loop_findings; apart.
      * apply variables_loop_findings; apart.
      * apply dependencies_emits; apart.
Qed.

Lemma variables_loop_duplicates vs : ∀ i ks,
  count (is_finding "duplicate" "variable_key")
    (self_warnings (out (variables_loop i vs ks)))
  + size (list_to_set (omap key vs) ∖ ks)
  = length (omap key vs).
Proof.
  induction vs as [|v vs IH]; intros i ks.
  - simpl. rewrite difference_disjoint_L by set_solver. by rewrite size_empty.
  - cbn [variables_loop omap list_omap]. destruct (key v) as [k|] eqn:Hk.
    + rewrite !out_then by apply _. cbn [self_warnings extend].
      rewrite !count_app, !count_when_warning.
      rewrite decide_True by done.
      specialize (IH (S i) ({[k]} ∪ ks)).
      simpl length. rewrite list_to_set_cons, size_seen.
      destruct (decide (k ∈ ks)).
      * rewrite bool_decide_eq_true_2 by done. lia.
      * rewrite bool_decide_eq_false_2 by done. lia.
    + rewrite out_then by apply _. cbn [self_warnings extend].
      rewrite count_app, count_warnings_add_error. apply IH.
Qed.

(** X13.  A variable key used again is warned about and never an error:
    the warnings about it and the different keys add up to the variables
    that have a key, and no error is of kind duplicate on variable_key. *)
Theorem duplicate_variable_keys_warned spec self :
  let vs := default [] (variables spec) in
  let r := (validate_structure (Some spec) self).1 in
  count (is_finding "duplicate" "variable_key") (warnings r)
  + size (list_to_set (omap key vs) : gset string)
  = length (omap key vs)
  ∧ count (is_finding "duplicate" "variable_key") (errors r) = 0.
Proof.
  intros vs r. subst vs r. destruct (is_empty_dict spec) eqn:Hne.
  - rewrite validate_structure_empty by done.
    assert (variables spec = None) as ->; [|by vm_compute].
    revert Hne. unfold is_empty_dict. destruct (variables spec); simpl; [|done].
    by rewrite !andb_false_r.
  - split.
    + rewrite (count_warnings_of_check 6 (_validate_variables (default [] (variables spec)))
                 _ spec self Hne); [|done|].
      * unfold _validate_variables.
        rewrite <-(variables_loop_duplicates (default [] (variables spec)) 0 ∅).
        f_equal. f_equal. set_solver.
      * simpl. repeat apply Forall_cons_2; [..|done].
        -- unfold _validate_required_fields, for_each. emits; apart.
        -- unfold _validate_dag_id. emits; apart.
        -- unfold _validate_schedule. emits; apart.
        -- unfold _validate_start_date. emits; apart.
        -- unfold _validate_tasks. emits; [apart|]. apply tasks_loop_findings; apart.
        -- apply connections_loop_findings; apart.
        -- apply dependencies_emits; apart.
    + rewrite count_errors_run by done.
      cbn [structure_checks fmap list_fmap sum_list sum_list_with].
      by others.
Qed.

(** ** Tasks that depend on themselves *)





(** ** The endpoint *)

Section Endpoint.
Import App.
Context (ast_parse : string → parse_outcome).

(** The two results of a request, each as a validator of its own gives it. *)
Lemma validate_dag_run data :
  submitted_code data ≠ None ∨ submitted_spec data ≠ None →
  let syntax := (λ c, (validate_syntax ast_parse c init).1) <$> submitted_code data in
  let structure := (λ s, (validate_structure (Some s) init).1) <$> submitted_spec data in
  let all_errors := errors_of syntax ++ errors_of structure in
  validate_dag ast_parse (Some data)
  = mk_response
      (Verdict (bool_decide (length all_errors = 0)) all_errors
         (warnings_of syntax ++ warnings_of structure) (mk_details syntax structure))
      (if bool_decide (length all_errors = 0) then 200 else 422).
Proof.
  unfold validate_dag, submitted_code, submitted_spec, empty_body.
  destruct data as [code spec more]. cbn [App.dag_code App.dag_spec App.more_keys].
  intros Hsome.
  destruct code as [| |[|c s]], spec as [| |spec]; cbn [get absent andb truthy_str negb falsy_spec default from_option id];
    try (destruct (is_empty_dict spec) eqn:Hempty);
    try (by destruct Hsome);
    cbn [negb andb fmap option_fmap option_map];
    rewrite ?andb_false_r;
    repeat match goal with
           | |- context [validate_syntax ?p ?c ?v] =>
               destruct (validate_syntax p c v) as [? ?] eqn:?
           | |- context [validate_structure ?s ?v] =>
               lazymatch v with
               | init => fail
               | _ => rewrite (validate_structure_fresh s v)
               end
           | |- context [validate_structure ?s init] =>
               destruct (validate_structure s init) as [? ?] eqn:?
           end; reflexivity.
Qed.

Lemma validate_dag_rejected data :
  submitted_code data = None → submitted_spec data = None →
  status_code (validate_dag ast_parse (Some data)) = 400
  ∧ response_errors (validate_dag ast_parse (Some data)) = []
  ∧ response_warnings (validate_dag ast_parse (Some data)) = [].
Proof.
  unfold validate_dag, submitted_code, submitted_spec.
  destruct data as [code spec more]. cbn [App.dag_code App.dag_spec App.more_keys].
  intros Hcode Hspec. destruct (empty_body _); [done|].
  destruct code as [| |[|c s]], spec as [| |spec]; try done;
    cbn [get truthy_str negb andb falsy_spec];
    destruct (is_empty_dict spec); done.
Qed.

Lemma syntax_errors_nil dag_code :
  errors (validate_syntax ast_parse dag_code init).1 = []
  ↔ whitespace_only dag_code = false ∧ ∃ walk, ast_parse dag_code = Parsed walk.
Proof.
  rewrite <-(proj1 (syntax_verdict ast_parse dag_code init)).
  destruct (built_validate_syntax ast_parse dag_code init) as [st ->].
  symmetry. apply build_result_valid.
Qed.

Lemma structure_errors_nil spec :
  errors (validate_structure (Some spec) init).1 = [] ↔ well_formed spec.
Proof.
  rewrite <-(structure_verdict spec init).
  destruct (built_validate_structure (Some spec) init) as [st ->].
  symmetry. apply build_result_valid.
Qed.

Lemma syntax_errors_no_field dag_code :
  Forall (λ f, field f = None) (errors (validate_syntax ast_parse dag_code init).1).
Proof.
  unfold validate_syntax. change ((reset ;; ?k) init) with (k init).
  destruct (_ || _); [by repeat constructor|].
  destruct (ast_parse dag_code) as [walk|lineno msg text|str_e]; simpl.
  - rewrite framed_then, check_dag_structure_out by apply _. by simpl.
  - by repeat constructor.
  - by repeat constructor.
Qed.

Lemma structure_errors_not_root spec :
  is_empty_dict spec = false →
  Forall (λ f, ¬ about_field "root" f) (errors (validate_structure (Some spec) init).1).
Proof.
  intros Hne.
  apply (run_emits (λ f, ¬ about_field "root" f) (λ _, True) (Some spec) init Hne).
  simpl. repeat apply Forall_cons_2; [..|done].
  - unfold _validate_required_fields, for_each. emits; apart.
  - unfold _validate_dag_id. emits; apart.
  - unfold _validate_schedule. emits; apart.
  - unfold _validate_start_date. emits; apart.
  - unfold _validate_tasks. emits; [apart|]. apply tasks_loop_findings; apart.
  - apply connections_loop_findings; apart.
  - apply variables_loop_findings; apart.
  - apply dependencies_emits; apart.
Qed.

Lemma submitted_spec_not_empty data spec :
  submitted_spec data = Some spec → is_empty_dict spec = false.
Proof.
  unfold submitted_spec. destruct (App.dag_spec data) as [| |s]; try done.
  destruct (is_empty_dict s) eqn:Hs; [done|]. by intros [= <-].
Qed.
End Endpoint.

(** What the handler answers when the structure check returns: 400 when
    the request brings neither code nor a specification, 200 when what it
    brings is accepted, and 422 otherwise. *)
Lemma validate_dag_status ast_parse data :
  let r := App.validate_dag ast_parse data in
  (App.status_code r = 400
   ↔ ∀ d, data = Some d → App.submitted_code d = None ∧ App.submitted_spec d = None)
  ∧ (App.status_code r = 200
     ↔ ∃ d, data = Some d
            ∧ (App.submitted_code d ≠ None ∨ App.submitted_spec d ≠ None)
            ∧ (∀ c, App.submitted_code d = Some c →
                 whitespace_only c = false ∧ ∃ walk, ast_parse c = Parsed walk)
            ∧ (∀ s, App.submitted_spec d = Some s → well_formed s))
  ∧ App.status_code r ∈ [200; 400; 422].
Proof.
  intros r. subst r. destruct data as [d|].
  2:{ simpl. split_and!; [|split; [done|by intros (? & ? & _)]|set_solver].
      split; [by intros _ ? ?|done]. }
  destruct (App.submitted_code d) as [c|] eqn:Hc, (App.submitted_spec d) as [s|] eqn:Hs.
  4:{ destruct (validate_dag_rejected ast_parse d Hc Hs) as (-> & _).
      split_and!; [|split; [done|]|set_solver].
      - split; [|done]. intros _ d' [= <-]. by rewrite Hc, Hs.
      - intros (d' & [= <-] & [Hsome|Hsome] & _); [by rewrite Hc in Hsome|by rewrite Hs in Hsome]. }
  all: rewrite validate_dag_run by (rewrite ?Hc, ?Hs; auto);
    rewrite Hc, Hs; cbn [fmap option_fmap option_map App.errors_of App.status_code];
    rewrite ?app_nil_r; cbn [app].
  - split_and!.
    + split; [by case_bool_decide|]. intros H. destruct (H d eq_refl); congruence.
    + case_bool_decide as Hlen.
      * apply length_zero_iff_nil, app_nil in Hlen as [Hsyn Hstr]. split; [|done].
        intros _. exists d. rewrite Hc, Hs. split_and!; [done|by left| |].
        -- intros ? [= <-]. by apply syntax_errors_nil.
        -- intros ? [= <-]. by apply structure_errors_nil.
      * split; [done|]. intros (d' & [= <-] & _ & Hcode & Hspec). destruct Hlen.
        rewrite Hc in Hcode. rewrite Hs in Hspec.
        apply length_zero_iff_nil, app_nil. split.
        -- by apply syntax_errors_nil, Hcode.
        -- by apply structure_errors_nil, Hspec.
    + case_bool_decide; set_solver.
  - split_and!.
    + split; [by case_bool_decide|]. intros H. destruct (H d eq_refl); congruence.
    + case_bool_decide as Hlen.
      * apply length_zero_iff_nil in Hlen. split; [|done].
        intros _. exists d. rewrite Hc, Hs. split_and!; [done|by left| |done].
        intros ? [= <-]. by apply syntax_errors_nil.
      * split; [done|]. intros (d' & [= <-] & _ & Hcode & _). destruct Hlen.
        rewrite Hc in Hcode. by apply length_zero_iff_nil, syntax_errors_nil, Hcode.
    + case_bool_decide; set_solver.
  - split_and!.
    + split; [by case_bool_decide|]. intros H. destruct (H d eq_refl); congruence.
    + case_bool_decide as Hlen.
      * apply length_zero_iff_nil in Hlen. split; [|done].
        intros _. exists d. rewrite Hc, Hs. split_and!; [done|by right|done|].
        intros ? [= <-]. by apply structure_errors_nil.
      * split; [done|]. intros (d' & [= <-] & _ & _ & Hspec). destruct Hlen.
        rewrite Hs in Hspec. by apply length_zero_iff_nil, structure_errors_nil, Hspec.
    + case_bool_decide; set_solver.
Qed.


(** X18.  No response holds the error on the field root that
    [validate_structure] reports on an empty specification: the handler
    does not pass an empty specification on. *)
Theorem root_error_unreachable ast_parse data :
  Forall (λ f, ¬ about_field "root" f)
    (App.response_errors (App.validate_dag ast_parse data)).
Proof.
  destruct data as [d|]; [|done].
  destruct (App.submitted_code d) as [c|] eqn:Hc;
    [|destruct (App.submitted_spec d) as [s|] eqn:Hs].
  3:{ by destruct (validate_dag_rejected ast_parse d Hc Hs) as (_ & -> & _). }
  all: rewrite validate_dag_run by (rewrite ?Hc, ?Hs; auto);
    rewrite ?Hc, ?Hs; cbn [App.response_errors App.body]; apply Forall_app; split.
  - cbn [fmap option_fmap option_map App.errors_of].
    eapply Forall_impl; [apply syntax_errors_no_field|].
    unfold about_field. by intros f ->.
  - destruct (App.submitted_spec d) as [s|] eqn:Hs; [|done].
    by apply structure_errors_not_root, (submitted_spec_not_empty d).
  - done.
  - by apply structure_errors_not_root, (submitted_spec_not_empty d).
Qed.

(* ================================================================== *)
(** * Within the recursion limit *)

(** ** The search within the recursion limit *)

(** Whatever the depth, an answer of the search is right. *)
Lemma search_within_correct depth graph r :
  Recursion.search depth graph = Some r → r.1 = true ↔ has_cycle_in (edge graph).
Proof.
  intros Hsearch. unfold Recursion.search in Hsearch.
  pose proof (roots_spec graph _ (has_cycle_spec graph depth) _ _ _ Hsearch) as Hspec.
  simpl in Hspec. destruct r as [[] st]; simpl in *.
  - split; [intros _|done]. apply Hspec; [done|]. intros x Hx. set_solver.
  - split; [done|]. intros [u Hu].
    destruct Hspec as (Hstk & _ & Hall & Hset); [done|intros x Hx; set_solver|].
    destruct (tc_first _ _ _ Hu) as (y & Huy & _).
    apply edge_source_is_key, Hall in Huy.
    destruct (Hset u) as [_ Hno]; [|done].
    unfold finished. rewrite Hstk. set_solver.
Qed.

(** One call for every node is enough. *)
Lemma search_within_total depth graph :
  size (universe graph) ≤ depth → is_Some (Recursion.search depth graph).
Proof.
  intros Hdepth. unfold Recursion.search. apply (roots_total graph depth).
  - apply has_cycle_total.
  - apply has_cycle_visited.
  - intros n Hn. unfold universe. set_solver.
  - unfold pending. etrans; [|done]. apply subseteq_size. set_solver.
Qed.

Lemma dict_set_elem graph k v k' v' :
  (k', v') ∈ dict_set graph k v → (k', v') = (k, v) ∨ (k', v') ∈ graph.
Proof.
  induction graph as [|[k0 v0] graph IH]; simpl.
  - intros ?%list_elem_of_singleton. by left.
  - destruct (decide (k0 = k)) as [->|Hne].
    + intros [?|?]%elem_of_cons; [by left|right; by right].
    + intros [->|Hin]%elem_of_cons; [right; by left|].
      destruct (IH Hin); [by left|right; by right].
Qed.

Lemma build_graph_elem tasks k v :
  (k, v) ∈ build_graph tasks →
  ∃ task, task ∈ tasks ∧ task_id task = Some k ∧ v = get_dependencies task.
Proof.
  unfold build_graph.
  assert (∀ graph,
    (k, v) ∈ foldl (λ graph task,
                      match task_id task with
                      | None => graph
                      | Some tid => dict_set graph tid (get_dependencies task)
                      end) graph tasks →
    (k, v) ∈ graph
    ∨ ∃ task, task ∈ tasks ∧ task_id task = Some k ∧ v = get_dependencies task) as H.
  { induction tasks as [|t tasks IH]; intros graph; simpl; [by left|].
    intros [Hin|(task & ? & ? & ?)]%IH; [|right; exists task; split; [by right|done]].
    destruct (task_id t) as [tid|] eqn:Hid; [|by left].
    apply dict_set_elem in Hin as [[= -> ->]|?]; [|by left].
    right. exists t. split; [by left|done]. }
  intros [?%elem_of_nil|?]%H; done.
Qed.

Lemma universe_names tasks : universe (build_graph tasks) ⊆ names tasks.
Proof.
  intros x. unfold universe, names, dict_keys.
  rewrite !elem_of_union, !elem_of_list_to_set.
  intros [Hkey|Hval].
  - apply list_elem_of_fmap in Hkey as ([k v] & -> & Hin).
    apply build_graph_elem in Hin as (task & Hin & Hid & _).
    left. apply list_elem_of_omap. by exists task.
  - apply list_elem_of_join in Hval as (l & Hx & Hl).
    apply list_elem_of_fmap in Hl as ([k v] & -> & Hin).
    apply build_graph_elem in Hin as (task & Hin & _ & ->).
    right. apply list_elem_of_bind. by exists task.
Qed.

Lemma has_circular_within depth tasks :
  size (names tasks) ≤ depth →
  is_Some (Recursion._has_circular_dependencies depth tasks).
Proof.
  intros Hdepth. unfold Recursion._has_circular_dependencies.
  destruct (search_within_total depth (build_graph tasks)) as [r ->]; [|by eexists].
  etrans; [|done]. apply subseteq_size, universe_names.
Qed.

Lemma has_circular_within_correct depth tasks b :
  Recursion._has_circular_dependencies depth tasks = Some b →
  b = true ↔ has_cycle_in (effective_edge tasks).
Proof.
  unfold Recursion._has_circular_dependencies.
  destruct (Recursion.search depth (build_graph tasks)) as [[b' st]|] eqn:Hsearch; [|done].
  intros [= <-]. rewrite <-(has_cycle_in_ext _ _ (build_graph_edge tasks)).
  apply (search_within_correct _ _ _ Hsearch).
Qed.

(** An answer within the limit is the answer without it. *)
Lemma has_circular_within_agrees depth tasks b :
  Recursion._has_circular_dependencies depth tasks = Some b →
  b = _has_circular_dependencies tasks.
Proof.
  intros Hb%has_circular_within_correct.
  pose proof (has_circular_dependencies_correct tasks) as Htot.
  destruct b, (_has_circular_dependencies tasks); try done.
  - symmetry. apply Htot. by apply Hb.
  - apply Hb. by apply Htot.
Qed.

Lemma depends_on_declared tasks u v : depends_on tasks u v ↔ declared_edge tasks u v.
Proof.
  unfold depends_on, declared_edge, get_dependencies. split.
  - intros (task & deps & ? & ? & Hdeps & ?). exists task. by rewrite Hdeps.
  - intros (task & ? & ? & Hv). exists task.
    destruct (dependencies task) as [deps|]; [by exists deps|by apply elem_of_nil in Hv].
Qed.

(** ** The methods within the recursion limit *)

Lemma validate_dependencies_within depth o self :
  Recursion._validate_dependencies depth o self
  = match (if truthy_list o
           then Recursion._has_circular_dependencies depth (default [] o)
           else Some false) with
    | Some _ => (Some tt, (_validate_dependencies o self).2)
    | None => (None, (for_each (default [] o)
                        (check_references (task_id_set (default [] o))) self).2)
    end.
Proof.
  unfold Recursion._validate_dependencies, _validate_dependencies.
  destruct (truthy_list o); cbn [negb]; [|done].
  unfold mbind, M_bind.
  destruct (for_each _ _ self) as [[] st].
  destruct (Recursion._has_circular_dependencies depth _) as [b|] eqn:Hb; [|done].
  rewrite <-(has_circular_within_agrees _ _ _ Hb). by destruct b.
Qed.

Lemma validate_structure_within depth spec self :
  match (Recursion.validate_structure depth (Some spec) self).1 with
  | Some r => r = (validate_structure (Some spec) self).1
  | None => True
  end
  ∧ (is_Some (Recursion.validate_structure depth (Some spec) self).1
     ↔ truthy_list (get_or (tasks spec) []) = false
       ∨ is_Some (Recursion._has_circular_dependencies depth (tasks_of spec))).
Proof.
  unfold Recursion.validate_structure, validate_structure.
  change ((reset ;; ?k) self) with (k init).
  destruct (falsy_spec (Some spec)) eqn:Hfalsy.
  { split; [done|]. split; [intros _|by eexists]. left.
    simpl in Hfalsy. apply empty_dict_tasks in Hfalsy. unfold tasks_of in Hfalsy.
    destruct (tasks spec) as [| |[|]]; simpl in *; done. }
  cbn [default from_option id].
  unfold mbind, M_bind.
  destruct (_validate_required_fields spec init) as [[] s1].
  destruct (_validate_dag_id _ s1) as [[] s2].
  destruct (_validate_schedule _ s2) as [[] s3].
  destruct (_validate_start_date _ s3) as [[] s4].
  destruct (_validate_tasks _ s4) as [[] s5].
  destruct (_validate_connections _ s5) as [[] s6].
  destruct (_validate_variables _ s6) as [[] s7].
  rewrite validate_dependencies_within, tasks_of_get_or.
  destruct (_validate_dependencies _ s7) as [[] s8].
  destruct (truthy_list _).
  - destruct (Recursion._has_circular_dependencies depth _) as [b|]; cbn.
    + split; [done|]. split; [intros _; right; by eexists|by eexists].
    + split; [done|]. split; [by intros [? ?]|]. intros [?|[? ?]]; done.
  - cbn. split; [done|]. split; [by left|by eexists].
Qed.

Lemma has_circular_empty depth : Recursion._has_circular_dependencies depth [] = Some false.
Proof. done. Qed.

(** [validate_structure] returns when the search does. *)
Lemma validate_structure_returns depth spec self :
  is_Some (Recursion.validate_structure depth (Some spec) self).1
  ↔ is_Some (Recursion._has_circular_dependencies depth (tasks_of spec)).
Proof.
  rewrite (proj2 (validate_structure_within depth spec self)).
  split; [|by right]. intros [Hfalse|?]; [|done].
  assert (tasks_of spec = []) as ->; [|by eexists].
  unfold tasks_of. by destruct (tasks spec) as [| |[|]].
Qed.

Lemma validate_structure_within_limit depth spec self :
  size (names (tasks_of spec)) ≤ depth →
  is_Some (Recursion.validate_structure depth (Some spec) self).1.
Proof. intros. by apply validate_structure_returns, has_circular_within. Qed.

Lemma validate_structure_returned depth spec self r :
  (Recursion.validate_structure depth (Some spec) self).1 = Some r →
  r = (validate_structure (Some spec) self).1.
Proof.
  intros Hr. pose proof (proj1 (validate_structure_within depth spec self)) as H.
  by rewrite Hr in H.
Qed.

(** A search that does not return went deeper than the limit. *)
Lemma validate_structure_raised depth spec self :
  (Recursion.validate_structure depth (Some spec) self).1 = None →
  depth < size (names (tasks_of spec)).
Proof.
  intros Hnone. destruct (decide (size (names (tasks_of spec)) ≤ depth)) as [Hle|]; [|lia].
  apply (validate_structure_within_limit _ _ self) in Hle as [r Hr]. congruence.
Qed.

Lemma has_cycle_in_depends_on tasks :
  has_cycle_in (depends_on tasks) ↔ has_cycle_in (declared_edge tasks).
Proof. apply has_cycle_in_ext. intros u v. apply depends_on_declared. Qed.

(** ** Cycles within the recursion limit *)

Lemma two_cycle_depends_on : has_cycle_in (depends_on two_cycle).
Proof.
  exists "task1". apply tc_l with "task2"; [|apply tc_once].
  - exists (example_task "task1" ["task2"]), ["task2"]. split_and!; [set_solver|done|done|set_solver].
  - exists (example_task "task2" ["task1"]), ["task1"]. split_and!; [set_solver|done|done|set_solver].
Qed.

Lemma two_cycle_distinct : NoDup (omap task_id two_cycle).
Proof. vm_compute. repeat constructor; set_solver. Qed.

Lemma two_cycle_names : size (names two_cycle) ≤ 2.
Proof. by vm_compute. Qed.

(** C1, as amended.  Let no task id be used twice, and let the declared
    dependency lists form a directed cycle, of any length from a self-loop
    on.  Then every result [validate_structure] returns holds the
    circular-dependency error exactly once, however many cycles there are;
    and it does return a result when the recursion limit allows one call of
    [has_cycle] for every name of the task list. *)
Theorem cycle_reported_once depth spec self :
  NoDup (omap task_id (tasks_of spec)) →
  has_cycle_in (depends_on (tasks_of spec)) →
  let returned := (Recursion.validate_structure depth (Some spec) self).1 in
  (size (names (tasks_of spec)) ≤ depth → is_Some returned)
  ∧ (∀ r, returned = Some r → count is_circular_error (errors r) = 1).
Proof.
  intros Hnd Hcyc returned. subst returned. split.
  - apply validate_structure_within_limit.
  - intros r ->%validate_structure_returned. rewrite circular_count.
    apply has_cycle_in_depends_on, (circular_iff_declared_cycle _ Hnd) in Hcyc.
    by rewrite Hcyc.
Qed.

Lemma cycle_reported_once_witness :
  ∃ r, (Recursion.validate_structure 2 (Some (example_spec two_cycle)) init).1 = Some r
       ∧ count is_circular_error (errors r) = 1.
Proof.
  destruct (cycle_reported_once 2 (example_spec two_cycle) init
              two_cycle_distinct two_cycle_depends_on) as [Hreturns Hcount].
  destruct (Hreturns two_cycle_names) as [r Hr].
  exists r. split; [exact Hr|exact (Hcount r Hr)].
Defined.

(** C1 as stated fails when a task id is declared twice: the declared
    lists a -> b and b -> a form a cycle, the later declaration of a
    replaces the first in the graph of the search, and the result, which is
    returned well within the recursion limit, holds no circular-dependency
    error. *)
Lemma redeclared_cycle_unreported :
  has_cycle_in (depends_on (tasks_of (example_spec redeclared)))
  ∧ ∃ r, (Recursion.validate_structure 1000 (Some (example_spec redeclared)) init).1 = Some r
         ∧ count is_circular_error (errors r) = 0.
Proof.
  split.
  - exists "a". apply tc_l with "b"; [|apply tc_once].
    + exists (example_task "a" ["b"]), ["b"]. split_and!; [set_solver|done|done|set_solver].
    + exists (example_task "b" ["a"]), ["a"]. split_and!; [set_solver|done|done|set_solver].
  - eexists. split; [by vm_compute|by vm_compute].
Qed.

(** A chain of three tasks needs three nested calls: with room for two the
    search does not return, and neither does [validate_structure]. *)
Example chain_beyond_the_limit :
  Recursion._has_circular_dependencies 2 chain = None
  ∧ (Recursion.validate_structure 2 (Some (example_spec chain)) init).1 = None
  ∧ Recursion._has_circular_dependencies 3 chain = Some false.
Proof. by vm_compute. Qed.

(** X15.  [_has_circular_dependencies] returns when the recursion limit
    allows one call of [has_cycle] for every name of the task list.  When
    it returns, it answers True exactly when the graph it builds, in which
    an id has the dependencies of the last task that carries it, has a
    cycle; when no id is used twice this is the graph of all declared
    dependencies. *)
Theorem circular_search_decides depth ts :
  (size (names ts) ≤ depth → is_Some (Recursion._has_circular_dependencies depth ts))
  ∧ (∀ b, Recursion._has_circular_dependencies depth ts = Some b →
       (b = true ↔ has_cycle_in (effective_edge ts))
       ∧ (NoDup (omap task_id ts) → b = true ↔ has_cycle_in (depends_on ts))).
Proof.
  split; [apply has_circular_within|].
  intros b Hb. split; [by apply (has_circular_within_correct depth)|].
  intros Hnd. rewrite has_cycle_in_depends_on, <-(circular_iff_declared_cycle _ Hnd).
  by rewrite (has_circular_within_agrees _ _ _ Hb).
Qed.

Lemma circular_search_decides_witness :
  Recursion._has_circular_dependencies 2 two_cycle = Some true
  ∧ has_cycle_in (depends_on two_cycle).
Proof.
  destruct (circular_search_decides 2 two_cycle) as [Hreturns Hanswer].
  destruct (Hreturns two_cycle_names) as [b Hb].
  destruct (Hanswer b Hb) as [_ Hdeclared].
  split; [reflexivity|].
  apply (proj1 (Hdeclared two_cycle_distinct)).
  apply (inj Some). rewrite <-Hb. reflexivity.
Defined.

(** X1.  [validate_structure] returns a result when the recursion limit
    allows one call of [has_cycle] for every name of the task list, and a
    result it returns is valid exactly when the specification is well
    formed: the dag id is there and empty or an identifier of at most 100
    characters, the description is there, the start date, when it is a
    non-empty string, is accepted by [fromisoformat], there is at least one
    task, every task has an id that is an identifier and a non-empty
    operator type, no task id is used twice, every dependency names a task,
    the declared dependencies have no cycle, every connection has an id and
    a type, no connection id is used twice, and every variable has a key.
    The schedule plays no part. *)
Theorem valid_iff_well_formed depth spec self :
  let returned := (Recursion.validate_structure depth (Some spec) self).1 in
  (size (names (tasks_of spec)) ≤ depth → is_Some returned)
  ∧ (∀ r, returned = Some r → valid r = true ↔ well_formed spec).
Proof.
  intros returned. subst returned. split.
  - apply validate_structure_within_limit.
  - intros r ->%validate_structure_returned. apply structure_verdict.
Qed.

Lemma valid_iff_well_formed_witness :
  well_formed (example_spec chain) ∧ ¬ well_formed (example_spec two_cycle).
Proof.
  destruct (valid_iff_well_formed 3 (example_spec chain) init) as [_ Hchain].
  destruct (valid_iff_well_formed 2 (example_spec two_cycle) init) as [_ Hcycle].
  split.
  - apply (proj1 (Hchain _ eq_refl)). reflexivity.
  - intros Hwf. apply (proj2 (Hcycle _ eq_refl)) in Hwf. discriminate Hwf.
Defined.

(** ** The endpoint within the recursion limit *)

Section Limit.
Import App.
Context (depth : nat) (ast_parse : string → parse_outcome).

(** The handler answers as it does without the limit, or 500 when the
    structure check does not return. *)
Lemma validate_dag_within data :
  Recursion.validate_dag depth ast_parse (Some data)
  = match submitted_spec data with
    | Some spec =>
        if (Recursion.validate_structure depth (Some spec) init).1
        then validate_dag ast_parse (Some data)
        else Recursion.internal_error
    | None => validate_dag ast_parse (Some data)
    end.
Proof.
  unfold Recursion.validate_dag, validate_dag, submitted_spec, empty_body.
  destruct data as [code spec more]. cbn [App.dag_code App.dag_spec App.more_keys].
  destruct spec as [| |spec]; cbn [get falsy_spec negb absent].
  1,2: destruct (_ && _); [done|];
       rewrite ?andb_true_r; destruct (negb (truthy_str (get code))) eqn:Hcode; [done|];
       cbn [andb]; apply negb_false_iff in Hcode; rewrite Hcode;
       by destruct (validate_syntax _ _ _).
  rewrite andb_false_r. cbn [andb].
  destruct (is_empty_dict spec) eqn:Hempty; cbn [negb].
  - rewrite ?andb_true_r. destruct (negb (truthy_str (get code))) eqn:Hcode; [done|].
    cbn [andb]. apply negb_false_iff in Hcode. rewrite Hcode.
    by destruct (validate_syntax _ _ _).
  - rewrite ?andb_false_r.
    assert (∀ v, Recursion.validate_structure depth (Some spec) v
                 = Recursion.validate_structure depth (Some spec) init) as Hfresh by done.
    pose proof (validate_structure_returned depth spec init) as Hret.
    destruct (truthy_str (get code)).
    + destruct (validate_syntax _ _ _) as [syn v]. rewrite (Hfresh v).
      rewrite (validate_structure_fresh (Some spec) v).
      destruct (Recursion.validate_structure depth (Some spec) init) as [[r|] st]; [|done].
      specialize (Hret r eq_refl). cbn [fst].
      destruct (validate_structure (Some spec) init) as [r' st']. simpl in Hret. by subst r'.
    + destruct (Recursion.validate_structure depth (Some spec) init) as [[r|] st]; [|done].
      specialize (Hret r eq_refl). cbn [fst].
      destruct (validate_structure (Some spec) init) as [r' st']. simpl in Hret. by subst r'.
Qed.

Lemma validate_dag_raised data :
  status_code (Recursion.validate_dag depth ast_parse data) = 500
  ∨ Recursion.validate_dag depth ast_parse data = validate_dag ast_parse data.
Proof.
  destruct data as [d|]; [|by right]. rewrite validate_dag_within.
  destruct (submitted_spec d) as [s|]; [|by right].
  destruct (Recursion.validate_structure depth (Some s) init).1; [by right|by left].
Qed.

Lemma validate_dag_500 data :
  status_code (Recursion.validate_dag depth ast_parse data) = 500 →
  ∃ d s, data = Some d ∧ submitted_spec d = Some s
         ∧ depth < size (names (tasks_of s)).
Proof.
  pose proof (validate_dag_status ast_parse data) as Hstatus.
  cbv zeta in Hstatus. destruct Hstatus as (_ & _ & Hin).
  destruct data as [d|]; [|done]. rewrite validate_dag_within.
  destruct (submitted_spec d) as [s|] eqn:Hs.
  - destruct (Recursion.validate_structure depth (Some s) init).1 eqn:Hr.
    + intros H500. rewrite H500 in Hin. set_solver.
    + intros _. exists d, s. split_and!; [done..|].
      by apply (validate_structure_raised depth s init).
  - intros H500. rewrite H500 in Hin. set_solver.
Qed.
End Limit.

(** X16.  The handler answers 400 exactly when the request brings neither
    code nor a specification, a missing, null or empty one counting as
    none.  It answers 500 only when the task list of the specification has
    more names than the recursion limit allows nested calls of [has_cycle].
    When it does not answer 500, it answers 200 exactly when the request
    brings code or a specification, the code it brings is not blank and is
    accepted by the parser, and the specification it brings is well formed.
    Every other request is answered 422. *)
Theorem response_status depth ast_parse data :
  let r := Recursion.validate_dag depth ast_parse data in
  (App.status_code r = 400
   ↔ ∀ d, data = Some d → App.submitted_code d = None ∧ App.submitted_spec d = None)
  ∧ (App.status_code r = 500
     → ∃ d s, data = Some d ∧ App.submitted_spec d = Some s
              ∧ depth < size (names (tasks_of s)))
  ∧ (App.status_code r ≠ 500
     → App.status_code r = 200
       ↔ ∃ d, data = Some d
              ∧ (App.submitted_code d ≠ None ∨ App.submitted_spec d ≠ None)
              ∧ (∀ c, App.submitted_code d = Some c →
                   whitespace_only c = false ∧ ∃ walk, ast_parse c = Parsed walk)
              ∧ (∀ s, App.submitted_spec d = Some s → well_formed s))
  ∧ App.status_code r ∈ [200; 400; 422; 500].
Proof.
  intros r. subst r.
  pose proof (validate_dag_status ast_parse data) as Hstatus.
  cbv zeta in Hstatus. destruct Hstatus as (H400 & H200 & Hin).
  pose proof (validate_dag_500 depth ast_parse data) as H500.
  destruct (validate_dag_raised depth ast_parse data) as [Hraised|Hreturned];
    [|rewrite Hreturned].
  - destruct (H500 Hraised) as (d & s & -> & Hs & Hdepth). rewrite Hraised.
    split_and!; [|intros _; by exists d, s|by intros []|set_solver].
    split; [done|]. intros Hnone. destruct (Hnone d eq_refl) as [_ Hnone']. congruence.
  - split_and!; [exact H400| |intros _; exact H200|set_solver].
    intros Heq. rewrite Heq in Hin. set_solver.
Qed.

(** A chain of three tasks, well formed, is answered 200 when three calls
    may nest and 500 when only two may. *)
Example chain_answered_500 ast_parse :
  let data := Some (App.mk_request Absent (Present (example_spec chain)) []) in
  App.status_code (Recursion.validate_dag 3 ast_parse data) = 200
  ∧ App.status_code (Recursion.validate_dag 2 ast_parse data) = 500.
Proof. by vm_compute. Qed.
